(** * E-commerce backend: stock ledger and category hierarchy guard

    Shallow embedding of the order, product and category controllers
    ([backend/controllers/orderController.js], [categoryController.js] and
    the product controller) over an explicit document store.

    Modelling conventions.
    - An ObjectId is the string [toString()] gives for it.  An id that a
      handler only hands to [findById], to a query filter or to a schema
      path is given as the ObjectId it is cast to.  Where a handler
      compares the request string itself ([parent] in [updateCategory],
      [productId] in the wishlist handlers, the address id in
      [updateUserAddress]), the argument is the string as the request
      spells it, and the cast is a parameter of the handler.
    - Stock counters and quantities are integer-valued Numbers, written as
      integers ([Z]); the schema type is [Number], and the handlers only
      add, subtract and compare them.  Comparison is exact; a sum or a
      difference is rounded to the nearest Number ([nearestNumber]), which
      changes it only beyond 2^53.
    - A document fetched with [findById] is a local copy; only [save] and
      [remove] write to the store.  The store calls of one handler run
      one after the other, every [await] being completed before the next
      statement.
    - A [save] of a document that was fetched from the store is taken to
      be accepted by the store and by the schema validation; the
      rejections that are modelled are the ones the handlers themselves
      cause (a string that is no ObjectId, an address with a required
      field missing).
    - A handler is a state transformer that returns the store it leaves
      behind together with either the error it threw or its response, so
      that writes made before a throw stay visible. *)

From stdpp Require Import gmap strings list fin_maps relations.
From Stdlib Require Import ZArith Lia.

Local Open Scope Z_scope.

(** ** Documents *)

(** [variantSchema]: the name and the stock counter; the presentation
    fields ([colorCode], [size], [sku], [price], [images]) are never read
    by the handlers below. *)
Record Variant := mkVariant {
  v_name : string;
  v_stock : Z
}.

(** [productSchema], restricted to the fields the stock and category
    handlers read or write. *)
Record Product := mkProduct {
  p_name : string;
  p_category : string;
  p_stock : Z;
  p_variants : list Variant
}.

(** One entry of [orderItems]: [variant] is [Some n] when the item carries
    a [variant] object whose [name] is [n]. *)
Record OrderItem := mkItem {
  product : string;
  variant : option string;
  quantity : Z
}.

(** Modelled from the spec: the [status] enumeration of the order schema
    ([models/orderModel.js] is not part of the sources): one of pending,
    processing, delivered, cancelled. *)
Inductive Status := pending | processing | delivered | cancelled.

Record Order := mkOrder {
  o_user : string;
  orderItems : list OrderItem;
  o_status : Status;
  isPaid : bool;
  isDelivered : bool
}.

(** Modelled from the spec: the defaults of the order schema
    ([models/orderModel.js] is not part of the sources): an order is
    created in pending, neither paid nor delivered. *)
Definition newOrder (user : string) (items : list OrderItem) : Order :=
  mkOrder user items pending false false.

(** [categorySchema]: [parent] is an ObjectId or [null]. *)
Record Category := mkCategory {
  c_name : string;
  c_parent : option string
}.

(** [req.user] as the handlers use it. *)
Record User := mkUser {
  u_id : string;
  role : string
}.

(** The three collections of the document store. *)
Record Store := mkStore {
  products : gmap string Product;
  categories : gmap string Category;
  orders : gmap string Order
}.

Global Instance Status_eq_dec : EqDecision Status.
Proof. solve_decision. Defined.
Global Instance Variant_eq_dec : EqDecision Variant.
Proof. solve_decision. Defined.
Global Instance Product_eq_dec : EqDecision Product.
Proof. solve_decision. Defined.
Global Instance OrderItem_eq_dec : EqDecision OrderItem.
Proof. solve_decision. Defined.

(** ** Errors *)

(** The errors the handlers throw, one constructor per [throw new Error]
    site, plus the [TypeError] JavaScript raises on a property read of
    [null] or [undefined], the [CastError] of a [findById] whose argument
    is no ObjectId, and the rejection of a [save] whose document holds a
    value that is no ObjectId under a path of that type. *)
Inductive Error :=
  | NoOrderItems
  | ProductNotFound (id : string)
  | VariantNotFound (name : string)
  | NotEnoughStock (pname : string) (vname : option string) (available : Z)
  | OrderNotFound
  | CannotCancel
  | NotAuthorized
  | OwnParent
  | CircularReference
  | CategoryNotFound
  | HasSubcategories
  | HasAssociatedProducts
  | TypeError
  | CastError
  | InvalidDocument.

(** The status set with [res.status] before each throw (500 is what the
    error middleware answers for an error thrown before any status is
    set). *)
Definition httpStatus (e : Error) : Z :=
  match e with
  | NoOrderItems | NotEnoughStock _ _ _ | CannotCancel | OwnParent
  | CircularReference | HasSubcategories | HasAssociatedProducts => 400
  | NotAuthorized => 403
  | ProductNotFound _ | VariantNotFound _ | OrderNotFound
  | CategoryNotFound => 404
  | TypeError | CastError | InvalidDocument => 500
  end.

(** The error kinds of the specification, as classes of thrown errors. *)
Definition InsufficientStock (e : Error) : bool :=
  match e with NotEnoughStock _ _ _ => true | _ => false end.
Definition NotFound (e : Error) : bool :=
  match e with
  | ProductNotFound _ | VariantNotFound _ | OrderNotFound
  | CategoryNotFound => true
  | _ => false
  end.
Definition InvalidHierarchy (e : Error) : bool :=
  match e with OwnParent | CircularReference => true | _ => false end.
Definition HasChildren (e : Error) : bool :=
  match e with HasSubcategories => true | _ => false end.
Definition HasProducts (e : Error) : bool :=
  match e with HasAssociatedProducts => true | _ => false end.

(** ** The handler monad *)

Definition Handler (A : Type) : Type := Store → Store * (Error + A).

Global Instance Handler_ret : MRet Handler :=
  λ A (a : A) st, (st, inr a).
Global Instance Handler_bind : MBind Handler :=
  λ A B (f : A → Handler B) (m : Handler A) st,
    match m st with
    | (st', inl e) => (st', inl e)
    | (st', inr a) => f a st'
    end.

Definition throw {A} (e : Error) : Handler A := λ st, (st, inl e).

(** [for (const x of l) { body }] *)
Fixpoint forOf {A} (l : list A) (body : A → Handler unit) : Handler unit :=
  match l with
  | [] => mret tt
  | x :: l' => body x ≫= λ _, forOf l' body
  end.

(** *** Store calls *)

(** [findById], [save] and [remove] on the three models.  A [save] stores
    the document under its id and answers with it; the handlers call it
    on documents they have fetched or built, and it is taken to be
    accepted. *)

Definition Product_findById (id : string) : Handler (option Product) :=
  λ st, (st, inr (products st !! id)).
Definition Product_save (id : string) (p : Product) : Handler unit :=
  λ st, (mkStore (<[id := p]> (products st)) (categories st) (orders st),
         inr tt).
Definition Order_findById (id : string) : Handler (option Order) :=
  λ st, (st, inr (orders st !! id)).
Definition Order_save (id : string) (o : Order) : Handler Order :=
  λ st, (mkStore (products st) (categories st) (<[id := o]> (orders st)),
         inr o).
Definition Category_findById (id : string) : Handler (option Category) :=
  λ st, (st, inr (categories st !! id)).
Definition Category_save (id : string) (c : Category) : Handler Category :=
  λ st, (mkStore (products st) (<[id := c]> (categories st)) (orders st),
         inr c).
Definition Category_remove (id : string) : Handler unit :=
  λ st, (mkStore (products st) (delete id (categories st)) (orders st),
         inr tt).

(** ** JavaScript helpers *)

(** Truthiness of a string-or-null value: [null] and the empty string are
    falsy. *)
Definition truthy (x : option string) : option string :=
  match x with
  | Some s => if bool_decide (s = "") then None else Some s
  | None => None
  end.

(** [item.variant && item.variant.name]: the variant name the item
    resolves through, if any. *)
Definition variantName (item : OrderItem) : option string :=
  truthy (variant item).

(** [Array.prototype.findIndex]; [None] stands for the result [-1]. *)
Fixpoint findIndex {A} (f : A → bool) (l : list A) : option nat :=
  match l with
  | [] => None
  | x :: l' => if f x then Some 0%nat else S <$> findIndex f l'
  end.

(** The largest magnitude up to which every integer is a Number. *)
Definition exactLimit : Z := 2 ^ 53.

(** The Number nearest to an integer: the integer itself up to 2^53, and
    beyond it the integer rounded to 53 significant binary digits, a tie
    going to the even significand (the rounding of IEEE 754 binary64
    arithmetic).  [e] is the number of low digits that are dropped.
    Magnitudes of 2^1024 and more, where a Number becomes [Infinity], are
    not distinguished. *)
Definition nearestNumber (z : Z) : Z :=
  let m := Z.abs z in
  if m <=? exactLimit then z else
  let e := Z.log2 m - 52 in
  let q := m / 2 ^ e in
  let r := m mod 2 ^ e in
  let half := 2 ^ (e - 1) in
  let q' := if r <? half then q
            else if half <? r then q + 1
            else if Z.even q then q else q + 1 in
  Z.sgn z * (q' * 2 ^ e).

(** [a - b] and [a + b] on Numbers that hold integers. *)
Definition Number_sub (a b : Z) : Z := nearestNumber (a - b).
Definition Number_add (a b : Z) : Z := nearestNumber (a + b).

Definition named (n : string) (v : Variant) : bool :=
  bool_decide (v_name v = n).

Definition set_v_stock (s : Z) (v : Variant) : Variant :=
  mkVariant (v_name v) s.
Definition set_p_stock (s : Z) (p : Product) : Product :=
  mkProduct (p_name p) (p_category p) s (p_variants p).
Definition set_p_variants (vs : list Variant) (p : Product) : Product :=
  mkProduct (p_name p) (p_category p) (p_stock p) vs.
Definition set_o_status (s : Status) (o : Order) : Order :=
  mkOrder (o_user o) (orderItems o) s (isPaid o) (isDelivered o).
Definition set_isPaid (b : bool) (o : Order) : Order :=
  mkOrder (o_user o) (orderItems o) (o_status o) b (isDelivered o).
Definition set_isDelivered (b : bool) (o : Order) : Order :=
  mkOrder (o_user o) (orderItems o) (o_status o) (isPaid o) b.

(** ** Order controller *)

(** Body of the first loop of [createOrder] ("Check if all products are in
    stock"). *)
Definition checkItem (item : OrderItem) : Handler unit :=
  p ← Product_findById (product item);
  match p with
  | None => throw (ProductNotFound (product item))
  | Some p =>
      match variantName item with
      | Some n =>
          match List.find (named n) (p_variants p) with
          | None => throw (VariantNotFound n)
          | Some v =>
              if v_stock v <? quantity item
              then throw (NotEnoughStock (p_name p) (Some (v_name v))
                            (v_stock v))
              else mret tt
          end
      | None =>
          if p_stock p <? quantity item
          then throw (NotEnoughStock (p_name p) None (p_stock p))
          else mret tt
      end
  end.

(** Body of the second loop of [createOrder] ("Update product stock
    quantities").  The product is dereferenced without a null check. *)
Definition decrementItem (item : OrderItem) : Handler unit :=
  p ← Product_findById (product item);
  match p with
  | None => throw TypeError
  | Some p =>
      let p' :=
        match variantName item with
        | Some n =>
            match findIndex (named n) (p_variants p) with
            | Some variantIndex =>
                set_p_variants
                  (alter (λ v, set_v_stock
                                 (Number_sub (v_stock v) (quantity item)) v)
                     variantIndex (p_variants p)) p
            | None => p
            end
        | None => set_p_stock (Number_sub (p_stock p) (quantity item)) p
        end in
      Product_save (product item) p'
  end.

(** [createOrder].  [oid] is the ObjectId the new order document
    receives; [user] is [req.user]; [items] is [req.body.orderItems].
    The fields the request does not set take the schema defaults. *)
Definition createOrder (oid : string) (user : User) (items : list OrderItem)
  : Handler Order :=
  if bool_decide (length items = 0%nat) then throw NoOrderItems else
  _ ← forOf items checkItem;
  createdOrder ← Order_save oid (newOrder (u_id user) items);
  _ ← forOf items decrementItem;
  mret createdOrder.

(** Body of the restoration loop of [cancelOrder] ("Restore product stock
    quantities"); a product that no longer exists is skipped. *)
Definition restoreItem (item : OrderItem) : Handler unit :=
  p ← Product_findById (product item);
  match p with
  | Some p =>
      let p' :=
        match variantName item with
        | Some n =>
            match findIndex (named n) (p_variants p) with
            | Some variantIndex =>
                set_p_variants
                  (alter (λ v, set_v_stock
                                 (Number_add (v_stock v) (quantity item)) v)
                     variantIndex (p_variants p)) p
            | None => p
            end
        | None => set_p_stock (Number_add (p_stock p) (quantity item)) p
        end in
      Product_save (product item) p'
  | None => mret tt
  end.

(** [cancelOrder]: [oid] is [req.params.id]. *)
Definition cancelOrder (oid : string) (user : User) : Handler Order :=
  order ← Order_findById oid;
  match order with
  | None => throw OrderNotFound
  | Some order =>
      if bool_decide (o_status order ≠ pending)
         && bool_decide (o_status order ≠ processing)
      then throw CannotCancel
      else if bool_decide (o_user order ≠ u_id user)
              && bool_decide (role user ≠ "admin")
      then throw NotAuthorized
      else
        let order := set_o_status cancelled order in
        _ ← forOf (orderItems order) restoreItem;
        Order_save oid order
  end.

(** [updateOrderToPaid]: [payer] is [req.body.payer]; reading
    [email_address] of an absent payer raises before the save. *)
Definition updateOrderToPaid (oid : string) (payer : option string)
  : Handler Order :=
  order ← Order_findById oid;
  match order with
  | Some order =>
      let order := set_o_status processing (set_isPaid true order) in
      match payer with
      | None => throw TypeError
      | Some _ => Order_save oid order
      end
  | None => throw OrderNotFound
  end.

(** [updateOrderToDelivered]. *)
Definition updateOrderToDelivered (oid : string) : Handler Order :=
  order ← Order_findById oid;
  match order with
  | Some order =>
      Order_save oid (set_o_status delivered (set_isDelivered true order))
  | None => throw OrderNotFound
  end.

(** [updateOrderStatus]: [status] is [req.body.status], [None] when it is
    absent or falsy ([status || order.status]). *)
Definition updateOrderStatus (oid : string) (status : option Status)
  : Handler Order :=
  order ← Order_findById oid;
  match order with
  | Some order =>
      let order := set_o_status (default (o_status order) status) order in
      let order :=
        if bool_decide (status = Some delivered) && negb (isDelivered order)
        then set_isDelivered true order else order in
      Order_save oid order
  | None => throw OrderNotFound
  end.

(** ** Product controller *)

(** The fields of [req.body] that [updateProduct] copies into the modelled
    part of the product. *)
Record ProductBody := mkProductBody {
  b_name : option string;
  b_category : option string;
  b_stock : option Z;
  b_variants : option (list Variant)
}.

(** [updateProduct]: [name] and [category] are kept when falsy, [stock]
    when [undefined], [variants] when absent. *)
Definition updateProduct (id : string) (body : ProductBody)
  : Handler Product :=
  p ← Product_findById id;
  match p with
  | Some p =>
      let p := mkProduct
                 (default (p_name p) (truthy (b_name body)))
                 (default (p_category p) (truthy (b_category body)))
                 (default (p_stock p) (b_stock body))
                 (default (p_variants p) (b_variants body)) in
      _ ← Product_save id p;
      mret p
  | None => throw (ProductNotFound id)
  end.

(** ** Category controller *)

(** [x ? x.parent : null] for [x = await Category.findById(id)]. *)
Definition parentOf (cats : gmap string Category) (id : string)
  : option string :=
  match cats !! id with
  | Some c => c_parent c
  | None => None
  end.

(** The [while (parentId)] loop of [updateCategory].  [fuel] bounds the
    number of [Category.findById] calls made inside the loop; [None] means
    that the loop is still running when the fuel is spent. *)
Fixpoint ancestorWalk (fuel : nat) (cats : gmap string Category)
    (cid : string) (parentId : option string) : option (Error + unit) :=
  match truthy parentId with
  | None => Some (inr tt)
  | Some pid =>
      if bool_decide (pid = cid) then Some (inl CircularReference)
      else match fuel with
           | O => None
           | S fuel' => ancestorWalk fuel' cats cid (parentOf cats pid)
           end
  end.

(** The cast of a string to an ObjectId, as [findById] and the
    assignment to a path of type ObjectId perform it: [Some] of the
    ObjectId, as [toString()] writes it, or [None] when the string is no
    ObjectId.  The cast belongs to the database library; the handlers
    that see a request string and its cast take it as their first
    argument. *)
Definition Cast : Type := string → option string.

(** The two guards of [updateCategory] on the proposed parent
    ([ValidateReparent] in the specification).  [parent] is
    [req.body.parent] as the request spells it: the first guard compares
    that string with [category._id.toString()], the second one hands it
    to [Category.findById], which casts it. *)
Definition validateReparent (castObjectId : Cast) (fuel : nat)
    (cats : gmap string Category) (cid : string) (parent : option string)
  : option (Error + unit) :=
  match truthy parent with
  | Some p =>
      if bool_decide (p = cid) then Some (inl OwnParent)
      else match castObjectId p with
           | Some parentId => ancestorWalk fuel cats cid (parentOf cats parentId)
           | None => Some (inl CastError)
           end
  | None => Some (inr tt)
  end.

(** The fields of [req.body] that [updateCategory] copies into the
    modelled part of the category.  [cb_parent] is [None] for
    [undefined], [Some None] for [null]. *)
Record CategoryBody := mkCategoryBody {
  cb_name : option string;
  cb_parent : option (option string)
}.

(** The value the path [parent] takes when [category.parent] is assigned:
    [undefined] keeps the stored parent, [null] is stored as it is, and a
    string is cast; the outer [None] is the failure of that cast, which
    makes [save] reject the document. *)
Definition assignParent (castObjectId : Cast) (stored : option string)
    (parent : option (option string)) : option (option string) :=
  match parent with
  | None => Some stored
  | Some None => Some None
  | Some (Some p) => Some <$> castObjectId p
  end.

(** [updateCategory]; [None] when the ancestor walk outlives [fuel].
    [id] is the ObjectId that [req.params.id] is cast to. *)
Definition updateCategory (castObjectId : Cast) (fuel : nat) (id : string)
    (body : CategoryBody) : Store → option (Store * (Error + Category)) :=
  λ st,
    match categories st !! id with
    | Some category =>
        match validateReparent castObjectId fuel (categories st) id
                (default None (cb_parent body)) with
        | None => None
        | Some (inl e) => Some (st, inl e)
        | Some (inr _) =>
            match assignParent castObjectId (c_parent category)
                    (cb_parent body) with
            | Some parent =>
                Some (Category_save id
                        (mkCategory
                           (default (c_name category) (truthy (cb_name body)))
                           parent) st)
            | None => Some (st, inl InvalidDocument)
            end
        end
    | None => Some (st, inl CategoryNotFound)
    end.

(** [Category.exists({ parent: id })] and [Product.exists({ category: id })]. *)
Definition Category_exists_parent (id : string) : Handler bool :=
  λ st, (st, inr (bool_decide
                    (map_Exists (λ _ c, c_parent c = Some id) (categories st)))).
Definition Product_exists_category (id : string) : Handler bool :=
  λ st, (st, inr (bool_decide
                    (map_Exists (λ _ p, p_category p = id) (products st)))).

(** [deleteCategory]. *)
Definition deleteCategory (id : string) : Handler unit :=
  category ← Category_findById id;
  match category with
  | Some _ =>
      hasSubcategories ← Category_exists_parent id;
      if (hasSubcategories : bool) then throw HasSubcategories else
      hasProducts ← Product_exists_category id;
      if (hasProducts : bool) then throw HasAssociatedProducts else
      Category_remove id
  | None => throw CategoryNotFound
  end.

(** ** Sample stores *)

Definition headphones : Product :=
  mkProduct "Premium Wireless Headphones" "electronics" 25
    [mkVariant "Black" 15; mkVariant "Silver" 10].
Definition gadget : Product :=
  mkProduct "P" "electronics" 5 [mkVariant "Red" 3].
Definition sampleCategories : gmap string Category :=
  <["electronics" := mkCategory "Electronics" None]>
  (<["smartphones" := mkCategory "Smartphones" (Some "electronics")]>
  (<["android" := mkCategory "Android" (Some "smartphones")]> ∅)).
Definition sampleStore : Store :=
  mkStore (<["h1" := headphones]> (<["p" := gadget]> ∅)) sampleCategories ∅.
Definition john : User := mkUser "john" "customer".

(** John orders two units of "P", then the order is cancelled, marked as
    paid, delivered. *)
Definition orderedStore : Store :=
  (createOrder "o1" john [mkItem "p" None 2] sampleStore).1.
Definition cancelledStore : Store :=
  (cancelOrder "o1" john orderedStore).1.
Definition repaidStore : Store :=
  (updateOrderToPaid "o1" (Some "payer@example.com") cancelledStore).1.
Definition deliveredStore : Store :=
  (updateOrderToDelivered "o1" orderedStore).1.

(** A product whose stock is beyond the integers that are all Numbers,
    and the order of one unit of it. *)
Definition bulk : Product := mkProduct "Bulk" "electronics" (2 ^ 53 + 2) [].
Definition bulkStore : Store :=
  mkStore (<["b" := bulk]> ∅) sampleCategories ∅.
Definition bulkOrdered : Store :=
  (createOrder "o1" john [mkItem "b" None 1] bulkStore).1.

(** An order that names the same variant twice. *)
Definition basket : list OrderItem :=
  [mkItem "p" (Some "Red") 2; mkItem "h1" None 5; mkItem "p" (Some "Red") 1].
Definition basketStore : Store :=
  (createOrder "o1" john basket sampleStore).1.

(** ** Closed form of the stock movements *)

(** Total quantity the items request from one counter: the product-level
    stock of [pid] ([vn = None]) or its variant named [n] ([vn = Some n]). *)
Definition demand (items : list OrderItem) (pid : string)
    (vn : option string) : Z :=
  foldr (λ it acc,
           if bool_decide (product it = pid ∧ variantName it = vn)
           then quantity it + acc else acc) 0 items.

Global Arguments demand : simpl never.

(** Add [d None] to the product-level stock and [d (Some n)] to the first
    variant named [n]; every other field and variant is kept. *)
Definition shiftStock (d : option string → Z) (p : Product) : Product :=
  mkProduct (p_name p) (p_category p) (p_stock p + d None)
    (imap (λ i v,
             if bool_decide (findIndex (named (v_name v)) (p_variants p)
                             = Some i)
             then set_v_stock (v_stock v + d (Some (v_name v))) v
             else v)
       (p_variants p)).

Global Arguments shiftStock : simpl never.

(** The product [pid] after the items have been debited, resp. credited. *)
Definition debit (items : list OrderItem) (pid : string) : Product → Product :=
  shiftStock (λ c, - demand items pid c).
Definition credit (items : list OrderItem) (pid : string) : Product → Product :=
  shiftStock (λ c, demand items pid c).

(** One stock movement: the counter named by [vn] goes from [s] to [f s]. *)
Definition moveStock (f : Z → Z) (vn : option string) (p : Product) : Product :=
  match vn with
  | Some n =>
      match findIndex (named n) (p_variants p) with
      | Some i =>
          set_p_variants
            (alter (λ v, set_v_stock (f (v_stock v)) v) i (p_variants p)) p
      | None => p
      end
  | None => set_p_stock (f (p_stock p)) p
  end.

(** The change of one counter by [delta], as an argument of [shiftStock]. *)
Definition only (vn : option string) (delta : Z) : option string → Z :=
  λ c, if bool_decide (c = vn) then delta else 0.

(** The value of a counter: the product-level stock of [pid] ([c = None])
    or the stock of its first variant named [n] ([c = Some n]). *)
Definition stockAt (ps : gmap string Product) (pid : string)
    (c : option string) : option Z :=
  p ← ps !! pid;
  match c with
  | Some n => v_stock <$> List.find (named n) (p_variants p)
  | None => Some (p_stock p)
  end.

(** The same counter, read on the product itself. *)
Definition stockIn (p : Product) (c : option string) : option Z :=
  match c with
  | Some n => v_stock <$> List.find (named n) (p_variants p)
  | None => Some (p_stock p)
  end.

(** The stock available to an item: the value of the counter it resolves
    to, if it resolves. *)
Definition available (ps : gmap string Product) (item : OrderItem)
  : option Z :=
  stockAt ps (product item) (variantName item).

(** The quantities the items request from one counter, added up as
    magnitudes. *)
Definition mass (items : list OrderItem) (pid : string)
    (vn : option string) : Z :=
  foldr (λ it acc,
           if bool_decide (product it = pid ∧ variantName it = vn)
           then Z.abs (quantity it) + acc else acc) 0 items.

Global Arguments mass : simpl never.

(** The counters and the quantities requested from them are small enough
    for the arithmetic of the stock loops to be exact: the magnitude of
    each counter plus the quantities the items move on it stays within
    2^53. *)
Definition exactRange (ps : gmap string Product) (items : list OrderItem)
  : Prop :=
  ∀ pid c a, stockAt ps pid c = Some a →
    Z.abs a + mass items pid c ≤ exactLimit.

(** Every product and variant counter is non-negative. *)
Definition product_nonneg (p : Product) : Prop :=
  0 ≤ p_stock p ∧ Forall (λ v, 0 ≤ v_stock v) (p_variants p).
Definition stock_nonneg (ps : gmap string Product) : Prop :=
  map_Forall (λ _, product_nonneg) ps.

(** ** Vocabulary of the statements *)

Definition withProducts (ps : gmap string Product) (st : Store) : Store :=
  mkStore ps (categories st) (orders st).

(** The products collection after every product has been shifted by [k]
    times the demand of the items. *)
Definition shifted (k : Z) (items : list OrderItem) (ps : gmap string Product)
  : gmap string Product :=
  map_imap (λ pid p, Some (shiftStock (λ c, k * demand items pid c) p)) ps.

(** The item asks for more than its resolved counter holds. *)
Definition short (ps : gmap string Product) (item : OrderItem) : Prop :=
  ∃ a, available ps item = Some a ∧ a < quantity item.

(** The item resolves and its counter covers the quantity. *)
Definition covered (ps : gmap string Product) (item : OrderItem) : Prop :=
  ∃ a, available ps item = Some a ∧ quantity item ≤ a.

(** The counter an item resolves to, as a key. *)
Definition counterOf (item : OrderItem) : string * option string :=
  (product item, variantName item).

(** [y] is the parent reference stored on the category [x]. *)
Definition parentStep (cats : gmap string Category) (x y : string) : Prop :=
  truthy (parentOf cats x) = Some y.

(** The parent graph has no cycle: no category is its own ancestor. *)
Definition acyclic (cats : gmap string Category) : Prop :=
  ∀ x, ¬ tc (parentStep cats) x x.

(** [depth cats x n]: following parent references from the reference [x]
    reaches a null parent (or a reference that resolves to no category)
    after [n] ids. *)
Inductive depth (cats : gmap string Category) : option string → nat → Prop :=
  | depth_root x : truthy x = None → depth cats x 0
  | depth_step x y n :
      truthy x = Some y → depth cats (parentOf cats y) n →
      depth cats x (S n).

(** The proposed parent [p] would close a cycle through [cid]. *)
Definition closesCycle (cats : gmap string Category) (cid p : string) : Prop :=
  p = cid ∨ tc (parentStep cats) p cid.

(** Some stored category has [id] as its parent. *)
Definition hasChild (st : Store) (id : string) : Prop :=
  ∃ k ch, categories st !! k = Some ch ∧ c_parent ch = Some id.

(** Some stored product is filed under the category [id]. *)
Definition hasProduct (st : Store) (id : string) : Prop :=
  ∃ k p, products st !! k = Some p ∧ p_category p = id.

(** Two categories that are each other's parent, and a third one. *)
Definition loopCategories : gmap string Category :=
  <["x" := mkCategory "X" (Some "y")]>
  (<["y" := mkCategory "Y" (Some "x")]>
  (<["a" := mkCategory "A" None]> ∅)).

(** ** Further handlers of the category and product controllers *)

Definition Product_remove (id : string) : Handler unit :=
  λ st, (mkStore (delete id (products st)) (categories st) (orders st),
         inr tt).

(** [deleteProduct]. *)
Definition deleteProduct (id : string) : Handler unit :=
  p ← Product_findById id;
  match p with
  | Some _ => Product_remove id
  | None => throw (ProductNotFound id)
  end.

(** ** Invariants of the store *)

(** Every parent reference resolves to a stored category. *)
Definition parentsResolve (cats : gmap string Category) : Prop :=
  ∀ k c p, cats !! k = Some c → c_parent c = Some p → is_Some (cats !! p).

(** Every product is filed under a stored category. *)
Definition productsFiled (st : Store) : Prop :=
  ∀ k p, products st !! k = Some p → is_Some (categories st !! p_category p).

(** A delivered order carries the delivered flag. *)
Definition deliveredFlagged (os : gmap string Order) : Prop :=
  ∀ k o, os !! k = Some o → o_status o = delivered → isDelivered o = true.

(** [o'] is a later state of the order [o]: same owner, same items, and
    no flag taken back. *)
Definition laterOrder (o o' : Order) : Prop :=
  o_user o' = o_user o ∧ orderItems o' = orderItems o ∧
  (isPaid o = true → isPaid o' = true) ∧
  (isDelivered o = true → isDelivered o' = true).

(** The caller may act on the order: owner or admin. *)
Definition mayCancel (user : User) (o : Order) : Prop :=
  o_user o = u_id user ∨ role user = "admin".

(** The order can still be cancelled. *)
Definition stillOpen (o : Order) : Prop :=
  o_status o = pending ∨ o_status o = processing.

(** One step of an order handler on the orders collection: nothing, or
    the order [oid] replaced by a later state of itself that is flagged
    as delivered if the step made it delivered. *)
Definition orderStep (oid : string) (os os' : gmap string Order) : Prop :=
  os' = os ∨
  ∃ o o', os !! oid = Some o ∧ os' = <[oid := o']> os ∧ laterOrder o o' ∧
          (o_status o' = delivered →
           isDelivered o' = true ∨ o_status o = delivered).

(** The item has nothing to be restored to: its product is gone, or it
    names a variant the product no longer has. *)
Definition orphaned (ps : gmap string Product) (it : OrderItem) : Prop :=
  match ps !! product it with
  | None => True
  | Some p =>
      ∃ n, variantName it = Some n ∧ findIndex (named n) (p_variants p) = None
  end.


(** One category with one product filed under it. *)
Definition shelfStore : Store :=
  mkStore (<["p" := gadget]> ∅)
    (<["electronics" := mkCategory "Electronics" None]> ∅) ∅.

(** ** User controller: address book and wishlist *)

(** [addressSchema]; [a_id] is the [_id] of the subdocument. *)
Record Address := mkAddress {
  a_id : string;
  a_street : string;
  a_city : string;
  a_state : string;
  a_zipCode : string;
  a_country : string;
  a_isDefault : bool
}.

(** [userSchema], restricted to the two arrays the address and wishlist
    handlers work on. *)
Record Account := mkAccount {
  addresses : list Address;
  wishlist : list string
}.

(** The errors of the address and wishlist handlers: the three thrown by
    the controller, the rejection of [user.save()] when a required field
    of an address is missing or empty, and the failure to cast a string
    pushed on the wishlist to an ObjectId. *)
Inductive UserError :=
  | UserNotFound
  | AddressNotFound
  | AlreadyInWishlist
  | ValidationError
  | NotAnObjectId.

(** A handler of the user controller, over the users collection. *)
Definition UserHandler (A : Type) : Type :=
  gmap string Account → gmap string Account * (UserError + A).

(** The address fields of [req.body]. *)
Record AddressBody := mkAddressBody {
  ab_street : option string;
  ab_city : option string;
  ab_state : option string;
  ab_zipCode : option string;
  ab_country : option string;
  ab_isDefault : option bool
}.

Definition set_isDefault (b : bool) (a : Address) : Address :=
  mkAddress (a_id a) (a_street a) (a_city a) (a_state a) (a_zipCode a)
    (a_country a) b.


(** The field updates of [updateUserAddress]: each field is replaced
    when the request gives a truthy value for it. *)
Definition updateFields (body : AddressBody) (a : Address) : Address :=
  mkAddress (a_id a)
    (default (a_street a) (truthy (ab_street body)))
    (default (a_city a) (truthy (ab_city body)))
    (default (a_state a) (truthy (ab_state body)))
    (default (a_zipCode a) (truthy (ab_zipCode body)))
    (default (a_country a) (truthy (ab_country body)))
    (a_isDefault a).

(** [updateUserAddress]: [id] is [req.params.id] as the request spells
    it; the handler compares it with the [toString()] of each [_id]. *)
Definition updateUserAddress (uid id : string) (body : AddressBody)
  : UserHandler (list Address) :=
  λ users,
    match users !! uid with
    | Some user =>
        match findIndex (λ a, bool_decide (a_id a = id)) (addresses user) with
        | Some addressIndex =>
            let addrs := alter (updateFields body) addressIndex
                           (addresses user) in
            let addrs :=
              match ab_isDefault body with
              | None => addrs
              | Some true =>
                  imap (λ idx a,
                          set_isDefault (bool_decide (idx = addressIndex)) a)
                    addrs
              | Some false =>
                  let addrs := alter (set_isDefault false) addressIndex addrs in
                  let hasDefault := existsb a_isDefault addrs in
                  if negb hasDefault && bool_decide (0 < length addrs)%nat
                  then alter (set_isDefault true) 0%nat addrs
                  else addrs
              end in
            (<[uid := mkAccount addrs (wishlist user)]> users, inr addrs)
        | None => (users, inl AddressNotFound)
        end
    | None => (users, inl UserNotFound)
    end.

(** [deleteUserAddress]: [id] is the ObjectId that [req.params.id] is cast
    to.  [addresses.id(id)] is the first subdocument with that [_id];
    removing it pulls the subdocuments with that [_id] out of the
    array. *)
Definition deleteUserAddress (uid id : string)
  : UserHandler (list Address) :=
  λ users,
    match users !! uid with
    | Some user =>
        match List.find (λ a, bool_decide (a_id a = id)) (addresses user) with
        | Some address =>
            let wasDefault := a_isDefault address in
            let addrs := filter (λ a, a_id a ≠ id) (addresses user) in
            let addrs :=
              if wasDefault && bool_decide (0 < length addrs)%nat
              then alter (set_isDefault true) 0%nat addrs else addrs in
            (<[uid := mkAccount addrs (wishlist user)]> users, inr addrs)
        | None => (users, inl AddressNotFound)
        end
    | None => (users, inl UserNotFound)
    end.

(** [addToWishlist]: [productId] is [req.body.productId] as the request
    spells it.  [includes] compares that string with the stored ObjectIds
    by [==], that is with their [toString()]; [push] casts it. *)
Definition addToWishlist (castObjectId : Cast) (uid productId : string)
  : UserHandler (list string) :=
  λ users,
    match users !! uid with
    | Some user =>
        if bool_decide (productId ∈ wishlist user)
        then (users, inl AlreadyInWishlist)
        else
          match castObjectId productId with
          | Some pushed =>
              let w := wishlist user ++ [pushed] in
              (<[uid := mkAccount (addresses user) w]> users, inr w)
          | None => (users, inl NotAnObjectId)
          end
    | None => (users, inl UserNotFound)
    end.

(** [removeFromWishlist]: [productId] is [req.params.productId] as the
    request spells it; the filter compares it with the [toString()] of
    each stored ObjectId. *)
Definition removeFromWishlist (uid productId : string)
  : UserHandler (list string) :=
  λ users,
    match users !! uid with
    | Some user =>
        let w := filter (λ id, id ≠ productId) (wishlist user) in
        (<[uid := mkAccount (addresses user) w]> users, inr w)
    | None => (users, inl UserNotFound)
    end.

(** The number of addresses marked as default. *)
Fixpoint defaults (l : list Address) : nat :=
  match l with
  | [] => 0
  | a :: l' => (if a_isDefault a then 1 else 0) + defaults l'
  end.

(** The invariant of an address book: the subdocument ids are distinct,
    and a book that is not empty has exactly one default address. *)
Definition addressBook (l : list Address) : Prop :=
  NoDup (a_id <$> l) ∧ (l ≠ [] → defaults l = 1%nat).

(** A user with two addresses, the first one the default. *)
Definition home : Address :=
  mkAddress "a1" "1 Main St" "Springfield" "IL" "62701" "US" true.
Definition office : Address :=
  mkAddress "a2" "2 High St" "Springfield" "IL" "62702" "US" false.
Definition sampleUsers : gmap string Account :=
  <["john" := mkAccount [home; office] ["h1"]]> ∅.
(** A user with three addresses, the second one the default. *)
Definition depot : Address :=
  mkAddress "a3" "3 Dock Rd" "Springfield" "IL" "62704" "US" false.
Definition janeUsers : gmap string Account :=
  <["jane" := mkAccount [set_isDefault false home; set_isDefault true office;
                         depot] []]> ∅.

(** ** Slugs *)

(** The character "-" (code 45). *)
Definition dash : Ascii.ascii := Ascii.ascii_of_N 45.

(** [String.prototype.toLowerCase] on the characters of an ASCII string:
    the capital letters A to Z become a to z.  A byte outside ASCII is
    left as it is, whereas JavaScript turns a few characters outside
    ASCII into ASCII letters; what is stated about the letters of a name
    is stated for ASCII names. *)
Definition toLowerCase (c : Ascii.ascii) : Ascii.ascii :=
  let n := Ascii.N_of_ascii c in
  if ((65 <=? n) && (n <=? 90))%N then Ascii.ascii_of_N (n + 32) else c.

(** The character is an ASCII character (code below 128). *)
Definition isAscii (c : Ascii.ascii) : bool :=
  (Ascii.N_of_ascii c <? 128)%N.

(** The character class [[a-z0-9]]. *)
Definition isLowerAlnum (c : Ascii.ascii) : bool :=
  let n := Ascii.N_of_ascii c in
  (((97 <=? n) && (n <=? 122)) || ((48 <=? n) && (n <=? 57)))%N.

Definition isDash (c : Ascii.ascii) : bool := Ascii.eqb c dash.

(** [s.replace(/[C]+/g, '-')]: every maximal run of characters of the
    class is replaced by one dash.  [inRun] tells that the scan is inside
    a run whose dash is already written; a replacement starts with
    [inRun = false]. *)
Fixpoint replaceRuns (inClass : Ascii.ascii → bool) (inRun : bool)
    (l : list Ascii.ascii) : list Ascii.ascii :=
  match l with
  | [] => []
  | c :: l' =>
      if inClass c
      then if inRun then replaceRuns inClass true l'
           else dash :: replaceRuns inClass true l'
      else c :: replaceRuns inClass false l'
  end.

(** [s.replace(/^-|-$/g, '')]: one dash at the start and one at the end
    are removed. *)
Definition dropLeadingDash (l : list Ascii.ascii) : list Ascii.ascii :=
  match l with
  | c :: l' => if isDash c then l' else l
  | [] => []
  end.
Fixpoint dropTrailingDash (l : list Ascii.ascii) : list Ascii.ascii :=
  match l with
  | [] => []
  | [c] => if isDash c then [] else [c]
  | c :: l' => c :: dropTrailingDash l'
  end.

(** The slug the pre-save hooks of the product and category schemas
    compute from a name, on the characters of the name. *)
Definition slugOf (name : list Ascii.ascii) : list Ascii.ascii :=
  dropTrailingDash
    (dropLeadingDash
       (replaceRuns isDash false
          (replaceRuns (λ c, negb (isLowerAlnum c)) false
             (toLowerCase <$> name)))).

Definition slugify (name : string) : string :=
  String.string_of_list_ascii (slugOf (String.list_ascii_of_string name)).

(** The pre-save hook: the slug is recomputed when the name has been
    modified, and kept otherwise. *)
Definition preSaveSlug (nameModified : bool) (name slug : string) : string :=
  if nameModified then slugify name else slug.

(** Lower-case letters, digits and single dashes. *)
Fixpoint dashedWord (prevDash : bool) (l : list Ascii.ascii) : bool :=
  match l with
  | [] => true
  | c :: l' =>
      if isDash c then negb prevDash && dashedWord true l'
      else isLowerAlnum c && dashedWord false l'
  end.

(** A well-formed slug: lower-case letters and digits separated by
    single dashes, with no dash at either end. *)
Fixpoint slugShape (prevDash : bool) (l : list Ascii.ascii) : bool :=
  match l with
  | [] => true
  | c :: l' =>
      if isDash c
      then negb prevDash && negb (bool_decide (l' = [])) && slugShape true l'
      else isLowerAlnum c && slugShape false l'
  end.
Definition isSlug (s : string) : bool :=
  slugShape true (String.list_ascii_of_string s).

(** ** Spellings of an ObjectId *)

(** A cast for the examples.  The spellings of an ObjectId differ by the
    case of their hexadecimal digits, and [toString()] writes them in
    lower case; the empty string is no ObjectId.  On a string of 24
    hexadecimal digits this is the cast of the database library. *)
Definition foldCase : Cast :=
  λ s, if bool_decide (s = "") then None
       else Some (String.string_of_list_ascii
                    (toLowerCase <$> String.list_ascii_of_string s)).

(** The request spells the category's own id in another way. *)
Definition respelled (castObjectId : Cast) (id p : string) : Prop :=
  p ≠ id ∧ castObjectId p = Some id.

(** Two categories under ObjectIds as the database writes them. *)
Definition hexCategories : gmap string Category :=
  <["507f1f77bcf86cd799439011" := mkCategory "Electronics" None]>
  (<["507f191e810c19729de860ea" :=
       mkCategory "Smartphones" (Some "507f1f77bcf86cd799439011")]> ∅).
Definition hexStore : Store := mkStore ∅ hexCategories ∅.

(** ** Pagination *)

(** [Number(req.query.page) || 1], for a page number given as a natural
    number: an absent page and the page 0 stand for the first page. *)
Definition pageNumber (query : option nat) : nat :=
  match query with
  | Some (S n) => S n
  | _ => 1
  end.

(** [Math.ceil(count / pageSize)]. *)
Definition pageCount (pageSize count : nat) : nat :=
  ((count + pageSize - 1) / pageSize)%nat.

(** [.limit(pageSize).skip(pageSize * (page - 1))] on the results of the
    sorted query. *)
Definition pageOf {A} (pageSize page : nat) (results : list A) : list A :=
  take pageSize (drop (pageSize * (page - 1)) results).

(** The listing the paginated handlers answer with ([getMyOrders],
    [getOrders], [getUsers], [getProducts]): the documents of the page,
    the page number, the number of pages and the number of documents. *)
Record Listing (A : Type) := mkListing {
  docs : list A;
  page : nat;
  pages : nat;
  total : nat
}.
Global Arguments mkListing {_} _ _ _ _.
Global Arguments docs {_} _.
Global Arguments page {_} _.
Global Arguments pages {_} _.
Global Arguments total {_} _.

Definition paginate {A} (pageSize : nat) (query : option nat)
    (results : list A) : Listing A :=
  mkListing (pageOf pageSize (pageNumber query) results)
    (pageNumber query)
    (pageCount pageSize (length results))
    (length results).


(** ** Lists and [findIndex] *)

Lemma findIndex_Some {A} (f : A → bool) (l : list A) (i : nat) :
  findIndex f l = Some i →
  ∃ x, l !! i = Some x ∧ f x = true ∧
       ∀ j y, (j < i)%nat → l !! j = Some y → f y = false.
Proof.
  revert i. induction l as [|a l IH]; intros i; simpl; [done|].
  destruct (f a) eqn:Hfa.
  - intros [= <-]. exists a. split_and!; [done..|]. intros j y Hj. lia.
  - destruct (findIndex f l) as [k|] eqn:Hk; simpl; [|done].
    intros [= <-]. destruct (IH k eq_refl) as (x & Hx & Hfx & Hlt).
    exists x. split_and!; [done..|].
    intros [|j] y Hj; simpl.
    + by intros [= <-].
    + apply Hlt. lia.
Qed.

Lemma findIndex_None {A} (f : A → bool) (l : list A) :
  findIndex f l = None → Forall (λ x, f x = false) l.
Proof.
  induction l as [|a l IH]; simpl; [constructor|].
  destruct (f a) eqn:Hfa; [done|].
  destruct (findIndex f l); simpl; [done|]. intros _. constructor; auto.
Qed.

Lemma find_findIndex {A} (f : A → bool) (l : list A) :
  List.find f l = findIndex f l ≫= (l !!.).
Proof.
  induction l as [|a l IH]; simpl; [done|].
  destruct (f a); [done|]. rewrite IH. by destruct (findIndex f l).
Qed.

Lemma findIndex_names (n : string) (l1 l2 : list Variant) :
  v_name <$> l1 = v_name <$> l2 →
  findIndex (named n) l1 = findIndex (named n) l2.
Proof.
  revert l2. induction l1 as [|a l1 IH]; intros [|b l2]; simpl; try done.
  intros [= Hab Hl]. unfold named at 1 3. rewrite Hab.
  by rewrite (IH l2 Hl).
Qed.

Lemma names_imap (g : nat → Variant → Variant) (l : list Variant) :
  (∀ i v, v_name (g i v) = v_name v) →
  v_name <$> imap g l = v_name <$> l.
Proof.
  intros Hg. apply list_eq. intros i.
  rewrite !list_lookup_fmap, list_lookup_imap.
  destruct (l !! i); simpl; [|done]. by rewrite Hg.
Qed.

Lemma set_v_stock_same (v : Variant) : set_v_stock (v_stock v) v = v.
Proof. by destruct v. Qed.

(** ** Numbers that hold integers *)

Lemma nearestNumber_exact z : Z.abs z ≤ exactLimit → nearestNumber z = z.
Proof.
  intros Hz. unfold nearestNumber.
  by rewrite (proj2 (Z.leb_le _ _) Hz).
Qed.

Lemma nearestNumber_nonneg z : 0 ≤ z → 0 ≤ nearestNumber z.
Proof.
  intros Hz. unfold nearestNumber.
  destruct (Z.abs z <=? exactLimit); [done|].
  apply Z.mul_nonneg_nonneg; [by apply Z.sgn_nonneg|].
  assert (0 ≤ 2 ^ (Z.log2 (Z.abs z) - 52)) as Hpow.
  { destruct (Z.le_gt_cases 0 (Z.log2 (Z.abs z) - 52)) as [He|He].
    - by apply Z.pow_nonneg.
    - by rewrite Z.pow_neg_r. }
  assert (0 ≤ Z.abs z / 2 ^ (Z.log2 (Z.abs z) - 52)) as Hq.
  { apply Z.le_lteq in Hpow as [Hpos| <-].
    - apply Z.div_pos; [lia|done].
    - by rewrite Z.div_0_r. }
  apply Z.mul_nonneg_nonneg; [|done].
  repeat case_match; lia.
Qed.

Lemma Number_sub_exact a b :
  Z.abs a + Z.abs b ≤ exactLimit → Number_sub a b = a - b.
Proof. intros Hab. apply nearestNumber_exact. lia. Qed.

Lemma Number_add_exact a b :
  Z.abs a + Z.abs b ≤ exactLimit → Number_add a b = a + b.
Proof. intros Hab. apply nearestNumber_exact. lia. Qed.

(** ** Algebra of [shiftStock] *)

Lemma shiftStock_names d p :
  v_name <$> p_variants (shiftStock d p) = v_name <$> p_variants p.
Proof.
  unfold shiftStock; simpl. apply names_imap.
  intros i v. by case_bool_decide.
Qed.

Lemma shiftStock_ext d1 d2 p :
  (∀ c, d1 c = d2 c) → shiftStock d1 p = shiftStock d2 p.
Proof.
  intros Hd. unfold shiftStock. rewrite (Hd None). f_equal.
  apply imap_ext. intros i v _. simpl. by rewrite Hd.
Qed.

Lemma shiftStock_zero p : shiftStock (λ _, 0) p = p.
Proof.
  destruct p as [n c s vs]. unfold shiftStock; simpl. f_equal; [lia|].
  apply list_eq. intros i. rewrite list_lookup_imap.
  destruct (vs !! i) as [v|]; simpl; [|done].
  case_bool_decide; [|done].
  by rewrite Z.add_0_r, set_v_stock_same.
Qed.

Lemma shiftStock_compose d1 d2 p :
  shiftStock d2 (shiftStock d1 p) = shiftStock (λ c, d1 c + d2 c) p.
Proof.
  unfold shiftStock at 1. rewrite (imap_ext _
    (λ i v, if bool_decide (findIndex (named (v_name v)) (p_variants p) = Some i)
            then set_v_stock (v_stock v + d2 (Some (v_name v))) v else v)).
  2:{ intros i v _. simpl.
      by rewrite (findIndex_names _ _ _ (shiftStock_names d1 p)). }
  destruct p as [n c s vs]. unfold shiftStock; simpl. f_equal; [lia|].
  apply list_eq. intros i. rewrite !list_lookup_imap.
  destruct (vs !! i) as [v|]; simpl; [|done]. f_equal.
  destruct (bool_decide (findIndex (named (v_name v)) vs = Some i)) eqn:Hi;
    simpl; rewrite Hi; [|done].
  unfold set_v_stock; simpl. f_equal. lia.
Qed.

Lemma imap_fixed {A} (g : nat → A → A) (l : list A) :
  (∀ i x, l !! i = Some x → g i x = x) → imap g l = l.
Proof.
  intros Hg. apply list_eq. intros i. rewrite list_lookup_imap.
  destruct (l !! i) as [x|] eqn:Hx; simpl; [|done]. by rewrite (Hg i x).
Qed.

(** A stock movement touches one counter only: it is the shift of that
    counter by whatever [f] adds to the value it holds. *)
Lemma moveStock_shift f delta vn p :
  (∀ a, stockIn p vn = Some a → f a = a + delta) →
  moveStock f vn p = shiftStock (only vn delta) p.
Proof.
  destruct p as [pn pc s vs].
  unfold moveStock, shiftStock, only, stockIn; simpl. intros Hf.
  destruct vn as [n|].
  - rewrite bool_decide_false, Z.add_0_r by done.
    rewrite find_findIndex in Hf.
    destruct (findIndex (named n) vs) as [i0|] eqn:Hfind.
    + unfold set_p_variants; simpl. f_equal.
      destruct (findIndex_Some _ _ _ Hfind) as (x & Hx & Hnx & _).
      apply bool_decide_eq_true in Hnx.
      simpl in Hf. rewrite Hx in Hf. simpl in Hf.
      apply list_eq. intros i. rewrite list_lookup_alter, list_lookup_imap.
      case_decide as Hi.
      * subst i. rewrite Hx; simpl. rewrite Hnx, Hfind.
        rewrite !bool_decide_true by done. by rewrite (Hf _ eq_refl).
      * destruct (vs !! i) as [v|]; simpl; [|done]. f_equal.
        case_bool_decide as Hv; [|done]. case_bool_decide as Hn.
        -- injection Hn as Hn. rewrite Hn, Hfind in Hv. congruence.
        -- by rewrite Z.add_0_r, set_v_stock_same.
    + f_equal. symmetry. apply imap_fixed. intros i v Hv.
      case_bool_decide as Hi; [|done].
      rewrite bool_decide_false, Z.add_0_r, set_v_stock_same; [done|].
      intros [= Hn]. rewrite Hn, Hfind in Hi. done.
  - rewrite bool_decide_true by done. unfold set_p_stock; simpl.
    rewrite (Hf _ eq_refl). f_equal. symmetry. apply imap_fixed.
    intros i v Hv.
    case_bool_decide; [|done].
    by rewrite Z.add_0_r, set_v_stock_same.
Qed.

(** ** Reading a counter *)

Lemma stockAt_stockIn ps pid c :
  stockAt ps pid c = ps !! pid ≫= λ p, stockIn p c.
Proof. reflexivity. Qed.

Lemma stockIn_shift d p c :
  stockIn (shiftStock d p) c = (λ a, a + d c) <$> stockIn p c.
Proof.
  unfold stockIn. destruct c as [n|]; [|done].
  rewrite !find_findIndex.
  rewrite (findIndex_names n (p_variants (shiftStock d p)) (p_variants p))
    by apply shiftStock_names.
  destruct (findIndex (named n) (p_variants p)) as [i|] eqn:Hi; simpl; [|done].
  unfold shiftStock; simpl. rewrite list_lookup_imap.
  destruct (findIndex_Some _ _ _ Hi) as (v & Hv & Hn & _).
  apply bool_decide_eq_true in Hn. rewrite Hv; simpl.
  by rewrite Hn, bool_decide_true.
Qed.

Lemma stockAt_shifted d ps ps' pid c :
  ps' !! pid = shiftStock d <$> ps !! pid →
  stockAt ps' pid c = (λ a, a + d c) <$> stockAt ps pid c.
Proof.
  rewrite !stockAt_stockIn. intros ->.
  destruct (ps !! pid) as [p|]; simpl; [apply stockIn_shift|done].
Qed.

Lemma stockAt_shift d ps ps' pid c a :
  ps' !! pid = shiftStock d <$> ps !! pid →
  stockAt ps pid c = Some a →
  stockAt ps' pid c = Some (a + d c).
Proof. intros Hps Ha. by rewrite (stockAt_shifted d ps), Ha. Qed.

Lemma available_shift d ps ps' item a :
  ps' !! product item = shiftStock d <$> ps !! product item →
  available ps item = Some a →
  available ps' item = Some (a + d (variantName item)).
Proof. apply stockAt_shift. Qed.

Lemma available_products item ps :
  is_Some (available ps item) → is_Some (ps !! product item).
Proof.
  unfold available, stockAt. destruct (ps !! product item); [eauto|].
  by intros [? ?].
Qed.

Lemma stockAt_insert_ne ps pid pid' p c :
  pid ≠ pid' → stockAt (<[pid := p]> ps) pid' c = stockAt ps pid' c.
Proof. intros Hne. unfold stockAt. by rewrite lookup_insert_ne. Qed.

(** The counters after one product has been shifted. *)
Lemma stockAt_insert_shift d ps pid p pid' c :
  ps !! pid = Some p →
  stockAt (<[pid := shiftStock d p]> ps) pid' c =
    (λ a, a + if bool_decide (pid' = pid) then d c else 0)
      <$> stockAt ps pid' c.
Proof.
  intros Hp. case_bool_decide as Hpid.
  - subst pid'. apply stockAt_shifted. by rewrite lookup_insert_eq, Hp.
  - rewrite stockAt_insert_ne by done.
    destruct (stockAt ps pid' c) as [a|]; simpl; [|done].
    by rewrite Z.add_0_r.
Qed.

(** ** Demand and its magnitude *)

Lemma demand_cons it items pid c :
  demand (it :: items) pid c =
    (if bool_decide (product it = pid ∧ variantName it = c)
     then quantity it else 0) + demand items pid c.
Proof. unfold demand; simpl. case_bool_decide; lia. Qed.

Lemma mass_cons it items pid c :
  mass (it :: items) pid c =
    (if bool_decide (product it = pid ∧ variantName it = c)
     then Z.abs (quantity it) else 0) + mass items pid c.
Proof. unfold mass; simpl. case_bool_decide; lia. Qed.

Lemma mass_nonneg items pid c : 0 ≤ mass items pid c.
Proof.
  induction items as [|it items IH]; [done|].
  rewrite mass_cons. case_bool_decide; lia.
Qed.

Lemma demand_mass items pid c : Z.abs (demand items pid c) ≤ mass items pid c.
Proof.
  induction items as [|it items IH]; [done|].
  rewrite demand_cons, mass_cons. case_bool_decide; lia.
Qed.

Lemma demand_app l1 l2 pid c :
  demand (l1 ++ l2) pid c = demand l1 pid c + demand l2 pid c.
Proof.
  induction l1 as [|it l1 IH]; simpl; [done|].
  rewrite !demand_cons, IH. lia.
Qed.

Lemma mass_app l1 l2 pid c :
  mass (l1 ++ l2) pid c = mass l1 pid c + mass l2 pid c.
Proof.
  induction l1 as [|it l1 IH]; simpl; [done|].
  rewrite !mass_cons, IH. lia.
Qed.

(** ** The two stock loops *)

Lemma decrementItem_eval item st p :
  products st !! product item = Some p →
  decrementItem item st =
    (withProducts (<[product item :=
                      moveStock (λ s, Number_sub s (quantity item))
                        (variantName item) p]>
                     (products st)) st, inr tt).
Proof.
  intros Hp. unfold decrementItem, mbind, Handler_bind, Product_findById.
  rewrite Hp. reflexivity.
Qed.

Lemma restoreItem_eval item st p :
  products st !! product item = Some p →
  restoreItem item st =
    (withProducts (<[product item :=
                      moveStock (λ s, Number_add s (quantity item))
                        (variantName item) p]>
                     (products st)) st, inr tt).
Proof.
  intros Hp. unfold restoreItem, mbind, Handler_bind, Product_findById.
  rewrite Hp. reflexivity.
Qed.

Lemma restoreItem_missing item st :
  products st !! product item = None → restoreItem item st = (st, inr tt).
Proof.
  intros Hp. unfold restoreItem, mbind, Handler_bind, Product_findById.
  by rewrite Hp.
Qed.

(** A loop whose body moves the stock of each item by [k] times its
    quantity, [k] being 1 or -1, leaves every product shifted by [k] times
    the demand, as long as the listed products exist and every sum the
    loop computes is exact. *)
Section stock_loop.
Variable k : Z.
Hypothesis k_unit : Z.abs k = 1.
Variable body : OrderItem → Handler unit.
Hypothesis body_eval : ∀ item st p,
  products st !! product item = Some p →
  ∃ f, (∀ s, Z.abs (s + k * quantity item) ≤ exactLimit →
             f s = s + k * quantity item) ∧
    body item st =
      (withProducts (<[product item := moveStock f (variantName item) p]>
                       (products st)) st, inr tt).

Lemma shifted_lookup items ps pid :
  shifted k items ps !! pid =
    shiftStock (λ c, k * demand items pid c) <$> ps !! pid.
Proof. unfold shifted. rewrite map_lookup_imap. by destruct (ps !! pid). Qed.

Lemma shifted_nil ps : shifted k [] ps = ps.
Proof.
  apply map_eq. intros pid. rewrite shifted_lookup.
  destruct (ps !! pid) as [p|]; simpl; [|done]. f_equal.
  rewrite <- (shiftStock_zero p) at 2.
  apply shiftStock_ext. intros c. unfold demand; simpl. lia.
Qed.

Lemma shifted_cons it items ps p :
  ps !! product it = Some p →
  shifted k items
    (<[product it := shiftStock (only (variantName it) (k * quantity it)) p]>
       ps)
    = shifted k (it :: items) ps.
Proof.
  intros Hp. apply map_eq. intros pid. rewrite !shifted_lookup.
  destruct (decide (product it = pid)) as [<-|Hne].
  - rewrite lookup_insert_eq, Hp; simpl. f_equal.
    rewrite shiftStock_compose. apply shiftStock_ext. intros c.
    rewrite demand_cons. unfold only.
    destruct (decide (c = variantName it)) as [->|Hc].
    + rewrite !bool_decide_true by done. lia.
    + rewrite !bool_decide_false by (intros ?; destruct_and?; congruence). lia.
  - rewrite lookup_insert_ne by done.
    destruct (ps !! pid) as [q|]; simpl; [|done]. f_equal.
    apply shiftStock_ext. intros c. rewrite demand_cons.
    rewrite bool_decide_false by (intros ?; destruct_and?; congruence). lia.
Qed.

(** The loop is the shift by the demand when each of its steps is exact:
    the counter of each item, as the items before it have left it, moves
    to a value within 2^53. *)
Lemma forOf_shifted_steps items st :
  Forall (λ it, is_Some (products st !! product it)) items →
  (∀ l1 it l2 a, items = l1 ++ it :: l2 →
     available (shifted k l1 (products st)) it = Some a →
     Z.abs (a + k * quantity it) ≤ exactLimit) →
  forOf items body st = (withProducts (shifted k items (products st)) st, inr tt).
Proof.
  revert st. induction items as [|it items IH]; intros st Hall Hsteps; simpl.
  - rewrite shifted_nil. by destruct st.
  - inversion Hall as [|? ? [p Hp] Hrest]; subst.
    destruct (body_eval it st p Hp) as (f & Hf & Hbody).
    unfold mbind, Handler_bind. rewrite Hbody.
    rewrite (moveStock_shift f (k * quantity it)).
    2:{ intros a Ha. apply Hf. apply (Hsteps [] it items a); [done|].
        rewrite shifted_nil. unfold available.
        by rewrite stockAt_stockIn, Hp. }
    rewrite IH.
    + simpl. by rewrite (shifted_cons it items _ p Hp).
    + simpl. eapply Forall_impl; [exact Hrest|]. intros it' [p' Hp']; simpl.
      destruct (decide (product it = product it')) as [->|Hne].
      * rewrite lookup_insert_eq. eauto.
      * rewrite lookup_insert_ne by done. eauto.
    + intros l1 it' l2 a Hitems. simpl.
      rewrite (shifted_cons it l1 _ p Hp).
      apply (Hsteps (it :: l1) it' l2 a). by rewrite Hitems.
Qed.

(** The steps are exact when the counters are in range before the loop. *)
Lemma forOf_shifted items st :
  Forall (λ it, is_Some (products st !! product it)) items →
  exactRange (products st) items →
  forOf items body st = (withProducts (shifted k items (products st)) st, inr tt).
Proof.
  intros Hall Hrange. apply forOf_shifted_steps; [done|].
  intros l1 it l2 a -> Ha. unfold available in Ha.
  rewrite (stockAt_shifted _ (products st) _ _ _ (shifted_lookup l1 _ _))
    in Ha.
  destruct (stockAt (products st) (product it) (variantName it))
    as [a0|] eqn:Ha0; simpl in Ha; [|done].
  injection Ha as <-. specialize (Hrange _ _ _ Ha0).
  rewrite mass_app, mass_cons, bool_decide_true in Hrange by done.
  pose proof (demand_mass l1 (product it) (variantName it)).
  pose proof (mass_nonneg l2 (product it) (variantName it)).
  assert (k = 1 ∨ k = -1) as [-> | ->] by lia; lia.
Qed.

(** They are exact as well when the counters are in range after it. *)
Lemma forOf_shifted_back items st :
  Forall (λ it, is_Some (products st !! product it)) items →
  exactRange (shifted k items (products st)) items →
  forOf items body st = (withProducts (shifted k items (products st)) st, inr tt).
Proof.
  intros Hall Hrange. apply forOf_shifted_steps; [done|].
  intros l1 it l2 a -> Ha. unfold available in Ha.
  rewrite (stockAt_shifted _ (products st) _ _ _ (shifted_lookup l1 _ _))
    in Ha.
  destruct (stockAt (products st) (product it) (variantName it))
    as [a0|] eqn:Ha0; simpl in Ha; [|done].
  injection Ha as <-.
  pose proof (stockAt_shift _ _ _ _ _ _
                (shifted_lookup (l1 ++ it :: l2) (products st) (product it))
                Ha0) as Hend.
  specialize (Hrange _ _ _ Hend).
  rewrite mass_app, mass_cons, bool_decide_true in Hrange by done.
  rewrite demand_app, demand_cons, bool_decide_true in Hrange by done.
  pose proof (demand_mass l2 (product it) (variantName it)).
  pose proof (mass_nonneg l1 (product it) (variantName it)).
  assert (k = 1 ∨ k = -1) as [-> | ->] by lia; lia.
Qed.
End stock_loop.

Lemma decrementItem_step item st p :
  products st !! product item = Some p →
  ∃ f, (∀ s, Z.abs (s + -1 * quantity item) ≤ exactLimit →
             f s = s + -1 * quantity item) ∧
    decrementItem item st =
      (withProducts (<[product item := moveStock f (variantName item) p]>
                       (products st)) st, inr tt).
Proof.
  intros Hp. exists (λ s, Number_sub s (quantity item)). split.
  - intros s Hs. unfold Number_sub. rewrite nearestNumber_exact; lia.
  - by apply decrementItem_eval.
Qed.

Lemma restoreItem_step item st p :
  products st !! product item = Some p →
  ∃ f, (∀ s, Z.abs (s + 1 * quantity item) ≤ exactLimit →
             f s = s + 1 * quantity item) ∧
    restoreItem item st =
      (withProducts (<[product item := moveStock f (variantName item) p]>
                       (products st)) st, inr tt).
Proof.
  intros Hp. exists (λ s, Number_add s (quantity item)). split.
  - intros s Hs. unfold Number_add. rewrite nearestNumber_exact; lia.
  - by apply restoreItem_eval.
Qed.

Lemma forOf_decrementItem items st :
  Forall (λ it, is_Some (products st !! product it)) items →
  exactRange (products st) items →
  forOf items decrementItem st =
    (withProducts (shifted (-1) items (products st)) st, inr tt).
Proof. apply forOf_shifted; [done|]. apply decrementItem_step. Qed.

Lemma forOf_restoreItem items st :
  Forall (λ it, is_Some (products st !! product it)) items →
  exactRange (products st) items →
  forOf items restoreItem st =
    (withProducts (shifted 1 items (products st)) st, inr tt).
Proof. apply forOf_shifted; [done|]. apply restoreItem_step. Qed.

(** The restoration is exact as well when it ends on counters in
    range. *)
Lemma forOf_restoreItem_back items st :
  Forall (λ it, is_Some (products st !! product it)) items →
  exactRange (shifted 1 items (products st)) items →
  forOf items restoreItem st =
    (withProducts (shifted 1 items (products st)) st, inr tt).
Proof. apply forOf_shifted_back; [done|]. apply restoreItem_step. Qed.

Lemma shifted_debit items ps pid :
  shifted (-1) items ps !! pid = debit items pid <$> ps !! pid.
Proof.
  rewrite shifted_lookup. destruct (ps !! pid) as [p|]; simpl; [|done].
  apply (f_equal Some), shiftStock_ext. intros c. lia.
Qed.

Lemma shifted_credit items ps pid :
  shifted 1 items ps !! pid = credit items pid <$> ps !! pid.
Proof.
  rewrite shifted_lookup. destruct (ps !! pid) as [p|]; simpl; [|done].
  apply (f_equal Some), shiftStock_ext. intros c. lia.
Qed.

Lemma credit_debit items pid p : credit items pid (debit items pid p) = p.
Proof.
  unfold credit, debit. rewrite shiftStock_compose.
  rewrite <- (shiftStock_zero p) at 2. apply shiftStock_ext. intros c. lia.
Qed.

(** The decrement loop runs to its end when the listed products exist,
    and carries every property of the products that one decrement
    preserves. *)
Lemma forOf_decrementItem_inv (I : gmap string Product → Prop) items st :
  Forall (λ it, is_Some (products st !! product it)) items →
  (∀ ps it p, it ∈ items → I ps → ps !! product it = Some p →
     I (<[product it :=
            moveStock (λ s, Number_sub s (quantity it)) (variantName it) p]>
          ps)) →
  I (products st) →
  ∃ ps', forOf items decrementItem st = (withProducts ps' st, inr tt) ∧ I ps'.
Proof.
  revert st. induction items as [|it items IH]; intros st Hall Hstep HI; simpl.
  - exists (products st). by destruct st.
  - inversion Hall as [|? ? [p Hp] Hrest]; subst.
    unfold mbind, Handler_bind. rewrite (decrementItem_eval it st p Hp).
    edestruct (IH (withProducts
                     (<[product it :=
                          moveStock (λ s, Number_sub s (quantity it))
                            (variantName it) p]> (products st)) st))
      as (ps' & Hrun & HI').
    + simpl. eapply Forall_impl; [exact Hrest|]. intros it' [p' Hp']; simpl.
      destruct (decide (product it = product it')) as [->|Hne].
      * rewrite lookup_insert_eq. eauto.
      * rewrite lookup_insert_ne by done. eauto.
    + intros ps it' p' Hin. apply Hstep. by right.
    + simpl. apply Hstep; [by left|done..].
    + exists ps'. by rewrite Hrun.
Qed.

(** ** The availability check *)

Lemma checkItem_covered item st :
  covered (products st) item → checkItem item st = (st, inr tt).
Proof.
  intros (a & Ha & Hq). revert Ha.
  unfold available, stockAt, checkItem, mbind, Handler_bind, Product_findById.
  destruct (products st !! product item) as [p|]; simpl; [|done].
  destruct (variantName item) as [n|].
  - destruct (List.find (named n) (p_variants p)) as [v|]; simpl; [|done].
    intros [= <-]. by rewrite (proj2 (Z.ltb_ge _ _) Hq).
  - intros [= <-]. by rewrite (proj2 (Z.ltb_ge _ _) Hq).
Qed.

Lemma checkItem_short item st :
  short (products st) item →
  ∃ e, checkItem item st = (st, inl e) ∧ InsufficientStock e = true.
Proof.
  intros (a & Ha & Hq). revert Ha.
  unfold available, stockAt, checkItem, mbind, Handler_bind, Product_findById.
  destruct (products st !! product item) as [p|]; simpl; [|done].
  destruct (variantName item) as [n|].
  - destruct (List.find (named n) (p_variants p)) as [v|]; simpl; [|done].
    intros [= <-]. rewrite (proj2 (Z.ltb_lt _ _) Hq). eauto.
  - intros [= <-]. rewrite (proj2 (Z.ltb_lt _ _) Hq). eauto.
Qed.

Lemma checkItem_unresolved item st :
  available (products st) item = None →
  ∃ e, checkItem item st = (st, inl e) ∧ NotFound e = true.
Proof.
  unfold available, stockAt, checkItem, mbind, Handler_bind, Product_findById.
  destruct (products st !! product item) as [p|]; simpl.
  - destruct (variantName item) as [n|]; [|done].
    destruct (List.find (named n) (p_variants p)) as [v|]; simpl; [done|].
    unfold throw. eauto.
  - unfold throw. eauto.
Qed.

(** The check never writes. *)
Lemma checkItem_store item st : (checkItem item st).1 = st.
Proof.
  destruct (available (products st) item) as [a|] eqn:Ha.
  - destruct (Z.lt_ge_cases a (quantity item)) as [Hlt|Hge].
    + destruct (checkItem_short item st) as (e & -> & _); [|done].
      by exists a.
    + rewrite checkItem_covered; [done|]. by exists a.
  - by destruct (checkItem_unresolved item st Ha) as (e & -> & _).
Qed.

Lemma forOf_checkItem_covered items st :
  Forall (covered (products st)) items →
  forOf items checkItem st = (st, inr tt).
Proof.
  induction 1 as [|it items Hit _ IH]; simpl; [done|].
  unfold mbind, Handler_bind. by rewrite (checkItem_covered it st Hit).
Qed.


(** ** Items and their counters *)

Lemma demand_unlisted items pid c :
  pid ∉ product <$> items → demand items pid c = 0.
Proof.
  induction items as [|it items IH]; [done|].
  rewrite fmap_cons, not_elem_of_cons. intros [Hne Hnot].
  rewrite demand_cons, IH by done.
  rewrite bool_decide_false; [done|]. intros [? _]. by apply Hne.
Qed.

Lemma demand_absent items pid c :
  (pid, c) ∉ counterOf <$> items → demand items pid c = 0.
Proof.
  induction items as [|it items IH]; [done|].
  rewrite fmap_cons, not_elem_of_cons. intros [Hne Hnot].
  rewrite demand_cons, IH by done.
  rewrite bool_decide_false; [done|].
  intros [<- <-]. by apply Hne.
Qed.

(** An item that is alone on its counter is the whole demand on it. *)
Lemma demand_alone items it :
  NoDup (counterOf <$> items) → it ∈ items →
  demand items (product it) (variantName it) = quantity it.
Proof.
  induction items as [|it' items IH]; [by intros _ ?%elem_of_nil|].
  rewrite fmap_cons, NoDup_cons. intros [Hnot Hnd] Hin.
  rewrite demand_cons. apply elem_of_cons in Hin as [->|Hin].
  - rewrite bool_decide_true by done.
    rewrite (demand_absent items) by done. lia.
  - rewrite IH by done. rewrite bool_decide_false; [lia|].
    intros [Hp Hv]. apply Hnot. apply list_elem_of_fmap.
    exists it. split; [|done]. unfold counterOf. by rewrite Hp, Hv.
Qed.

(** ** [createOrder] *)

Lemma covered_products ps items :
  Forall (covered ps) items →
  Forall (λ it, is_Some (ps !! product it)) items.
Proof.
  intros Hall. eapply Forall_impl; [exact Hall|].
  intros it (a & Ha & _). apply available_products. eauto.
Qed.

(** Past the check, [createOrder] stores the order and runs its second
    loop to the end. *)
Lemma createOrder_written oid user items st :
  items ≠ [] →
  Forall (covered (products st)) items →
  ∃ ps',
    forOf items decrementItem
      (mkStore (products st) (categories st)
         (<[oid := mkOrder (u_id user) items pending false false]> (orders st)))
      = (mkStore ps' (categories st)
           (<[oid := mkOrder (u_id user) items pending false false]>
              (orders st)), inr tt) ∧
    createOrder oid user items st =
      (mkStore ps' (categories st)
         (<[oid := mkOrder (u_id user) items pending false false]> (orders st)),
       inr (mkOrder (u_id user) items pending false false)).
Proof.
  intros Hne Hall.
  destruct (forOf_decrementItem_inv (λ _, True) items
              (mkStore (products st) (categories st)
                 (<[oid := mkOrder (u_id user) items pending false false]>
                    (orders st))))
    as (ps' & Hloop & _); [by apply covered_products|done..|].
  exists ps'. split; [exact Hloop|]. unfold createOrder.
  rewrite bool_decide_false by (by destruct items).
  unfold mbind at 1, Handler_bind at 1.
  rewrite (forOf_checkItem_covered items st Hall).
  unfold mbind at 1, Handler_bind at 1, Order_save at 1.
  unfold mbind at 1, Handler_bind at 1.
  unfold newOrder. rewrite Hloop. reflexivity.
Qed.

Lemma createOrder_checked oid user items st :
  items ≠ [] →
  Forall (covered (products st)) items →
  exactRange (products st) items →
  createOrder oid user items st =
    (mkStore (shifted (-1) items (products st)) (categories st)
       (<[oid := mkOrder (u_id user) items pending false false]> (orders st)),
     inr (mkOrder (u_id user) items pending false false)).
Proof.
  intros Hne Hall Hrange.
  destruct (createOrder_written oid user items st Hne Hall)
    as (ps' & Hloop & ->).
  rewrite forOf_decrementItem in Hloop by (by try apply covered_products).
  by injection Hloop as <-.
Qed.


(** What [debit] leaves alone and what it takes. *)
Lemma debit_stock items pid p :
  p_stock (debit items pid p) = p_stock p - demand items pid None.
Proof. unfold debit, shiftStock; simpl. lia. Qed.

Lemma debit_variant items pid p i v :
  p_variants p !! i = Some v →
  p_variants (debit items pid p) !! i =
    Some (if bool_decide (findIndex (named (v_name v)) (p_variants p) = Some i)
          then set_v_stock (v_stock v - demand items pid (Some (v_name v))) v
          else v).
Proof.
  intros Hv. unfold debit, shiftStock; simpl.
  rewrite list_lookup_imap, Hv. reflexivity.
Qed.

Lemma debit_unlisted items pid p :
  pid ∉ product <$> items → debit items pid p = p.
Proof.
  intros Hnot. unfold debit. rewrite <- (shiftStock_zero p) at 2.
  apply shiftStock_ext. intros c. rewrite demand_unlisted by done. lia.
Qed.

(** ** The sample store is in range *)

Lemma mass_total items pid c :
  mass items pid c ≤ foldr (λ it acc, Z.abs (quantity it) + acc) 0 items.
Proof.
  induction items as [|it items IH]; [done|].
  rewrite mass_cons. simpl. case_bool_decide; lia.
Qed.

Lemma exactRange_bounded (bound : Z) ps items :
  (∀ pid c a, stockAt ps pid c = Some a → Z.abs a ≤ bound) →
  bound + foldr (λ it acc, Z.abs (quantity it) + acc) 0 items ≤ exactLimit →
  exactRange ps items.
Proof.
  intros Hps Hsum pid c a Ha.
  pose proof (Hps _ _ _ Ha). pose proof (mass_total items pid c). lia.
Qed.

Lemma sampleStore_bounded pid c a :
  stockAt (products sampleStore) pid c = Some a → Z.abs a ≤ 25.
Proof.
  rewrite stockAt_stockIn. unfold sampleStore. simpl products.
  destruct (decide (pid = "h1")) as [->|Hh].
  { rewrite lookup_insert_eq. simpl. destruct c as [n|]; simpl.
    - unfold named; simpl. repeat case_bool_decide; simpl; intros [= <-]; lia.
    - intros [= <-]. lia. }
  rewrite lookup_insert_ne by done.
  destruct (decide (pid = "p")) as [->|Hp].
  { rewrite lookup_insert_eq. simpl. destruct c as [n|]; simpl.
    - unfold named; simpl. repeat case_bool_decide; simpl; intros [= <-]; lia.
    - intros [= <-]. lia. }
  by rewrite lookup_insert_ne, lookup_empty.
Qed.

Lemma sampleStore_exactRange items :
  25 + foldr (λ it acc, Z.abs (quantity it) + acc) 0 items ≤ exactLimit →
  exactRange (products sampleStore) items.
Proof. apply exactRange_bounded, sampleStore_bounded. Qed.

(** ** Reserve: the two halves of [createOrder] *)

(** C1, amended.  When the item list is not empty, every item resolves
    to a counter that covers its quantity, and the counters and
    quantities are small enough for the arithmetic to be exact (the
    magnitude of each counter plus the quantities requested from it is at
    most 2^53), [createOrder] succeeds with a pending order holding the
    items, and leaves each product debited by the demand of the items:
    the product-level stock loses the quantities of the items that name
    no variant, the first variant with a requested name loses the
    quantities of the items that name it, every other variant and every
    unlisted product is kept.  The counter of an item drops by the total
    quantity requested from it, which is the item's own quantity when no
    other item resolves to the same counter. *)
Theorem createOrder_reserves oid user items st :
  items ≠ [] →
  Forall (covered (products st)) items →
  exactRange (products st) items →
  ∃ st' order,
    createOrder oid user items st = (st', inr order) ∧
    orderItems order = items ∧ o_status order = pending ∧
    orders st' !! oid = Some order ∧
    categories st' = categories st ∧
    (∀ pid, products st' !! pid = debit items pid <$> products st !! pid) ∧
    (∀ pid p, products st !! pid = Some p →
       ∃ p', products st' !! pid = Some p' ∧
         p_stock p' = p_stock p - demand items pid None ∧
         ∀ i v, p_variants p !! i = Some v →
           p_variants p' !! i =
             Some (if bool_decide
                        (findIndex (named (v_name v)) (p_variants p) = Some i)
                   then set_v_stock
                          (v_stock v - demand items pid (Some (v_name v))) v
                   else v)) ∧
    (∀ pid, pid ∉ product <$> items →
       products st' !! pid = products st !! pid) ∧
    (∀ it a, it ∈ items → available (products st) it = Some a →
       available (products st') it =
         Some (a - demand items (product it) (variantName it))) ∧
    (NoDup (counterOf <$> items) →
     ∀ it a, it ∈ items → available (products st) it = Some a →
       available (products st') it = Some (a - quantity it)).
Proof.
  intros Hne Hall Hrange.
  eexists _, _. split; [by apply createOrder_checked|].
  simpl. split_and!; try done.
  - apply lookup_insert_eq.
  - apply shifted_debit.
  - intros pid p Hp. exists (debit items pid p). split_and!.
    + by rewrite shifted_debit, Hp.
    + apply debit_stock.
    + intros i v Hv. by apply debit_variant.
  - intros pid Hnot. rewrite shifted_debit.
    destruct (products st !! pid) as [p|]; simpl; [|done].
    by rewrite debit_unlisted.
  - intros it a _ Ha.
    by rewrite (available_shift _ _ _ _ _ (shifted_debit _ _ _) Ha).
  - intros Hnd it a Hin Ha.
    rewrite (available_shift _ _ _ _ _ (shifted_debit _ _ _) Ha).
    by rewrite demand_alone.
Qed.

Lemma createOrder_reserves_witness :
  ∃ st' order,
    createOrder "o1" john [mkItem "p" (Some "Red") 3] sampleStore
      = (st', inr order) ∧
    available (products st') (mkItem "p" (Some "Red") 3) = Some 0 ∧
    p_stock <$> products st' !! "p" = Some 5.
Proof.
  destruct (createOrder_reserves "o1" john [mkItem "p" (Some "Red") 3]
              sampleStore) as (st' & order & Hrun & _ & _ & _ & _ & Hdebit
                               & _ & _ & _ & Halone).
  - done.
  - apply Forall_cons. split; [|constructor].
    exists 3. split; [reflexivity|simpl; lia].
  - by apply sampleStore_exactRange.
  - exists st', order. split_and!; [done| |].
    + refine (Halone _ (mkItem "p" (Some "Red") 3) 3 _ _);
        [repeat constructor; set_solver|set_solver|reflexivity].
    + rewrite Hdebit. reflexivity.
Defined.

(** The specification's scenario: stock 5 with a variant "Red" of stock 3;
    reserving 3 "Red" empties the variant and keeps the product-level
    stock, and a further request for 1 "Red" is refused with the available
    quantity 0. *)
Example reserve_red_scenario :
  ∃ st',
    createOrder "o1" john [mkItem "p" (Some "Red") 3] sampleStore
      = (st', inr (mkOrder "john" [mkItem "p" (Some "Red") 3] pending false false)) ∧
    products st' !! "p" = Some (mkProduct "P" "electronics" 5 [mkVariant "Red" 0]) ∧
    createOrder "o2" john [mkItem "p" (Some "Red") 1] st'
      = (st', inl (NotEnoughStock "P" (Some "Red") 0)).
Proof. eexists. split_and!; [vm_compute; reflexivity|reflexivity|reflexivity]. Qed.

(** C1 as stated fails on the empty item list: every item (there is none)
    is covered, and the call is refused with "No order items".  It also
    fails when two items resolve to the same counter: both are covered by
    a stock of 5, the call succeeds, and the counter drops by 4, not by
    the 2 that each item requests.  And it fails beyond 2^53, where the
    difference is rounded: one unit ordered from a stock of 2^53 + 2
    leaves 2^53, two units less. *)
Lemma createOrder_empty_or_repeated :
  Forall (covered (products sampleStore)) [] ∧
  createOrder "o1" john [] sampleStore = (sampleStore, inl NoOrderItems) ∧
  Forall (covered (products sampleStore))
    [mkItem "p" None 2; mkItem "p" None 2] ∧
  stockAt (products sampleStore) "p" None = Some 5 ∧
  stockAt (products (createOrder "o1" john
                       [mkItem "p" None 2; mkItem "p" None 2] sampleStore).1)
    "p" None = Some 1 ∧
  Forall (covered (products bulkStore)) [mkItem "b" None 1] ∧
  stockAt (products bulkStore) "b" None = Some (2 ^ 53 + 2) ∧
  stockAt (products (createOrder "o1" john [mkItem "b" None 1] bulkStore).1)
    "b" None = Some (2 ^ 53).
Proof.
  split_and!; [constructor|reflexivity| |reflexivity|reflexivity|
               |reflexivity|vm_compute; reflexivity].
  - repeat (apply Forall_cons; split;
              [exists 5; split; [reflexivity|simpl; lia]|]).
    constructor.
  - apply Forall_cons. split; [|constructor].
    exists (2 ^ 53 + 2). split; [reflexivity|simpl; lia].
Qed.




(** ** Release: the restoration loop of [cancelOrder] *)

Lemma forOf_checkItem_inv items st st' :
  forOf items checkItem st = (st', inr tt) →
  Forall (covered (products st)) items.
Proof.
  induction items as [|it items IH]; simpl; [constructor|].
  unfold mbind, Handler_bind.
  destruct (available (products st) it) as [a|] eqn:Ha.
  - destruct (Z.lt_ge_cases a (quantity it)) as [Hlt|Hge].
    + by destruct (checkItem_short it st) as (e & -> & _); [by exists a|].
    + rewrite checkItem_covered by (by exists a).
      intros Hrest. constructor; [by exists a|auto].
  - by destruct (checkItem_unresolved it st Ha) as (e & -> & _).
Qed.

Lemma createOrder_inv oid user items st st1 order :
  createOrder oid user items st = (st1, inr order) →
  items ≠ [] ∧ Forall (covered (products st)) items.
Proof.
  unfold createOrder. case_bool_decide as Hlen; [done|].
  unfold mbind at 1, Handler_bind at 1.
  destruct (forOf items checkItem st) as [st0 [e|[]]] eqn:Hcheck; [done|].
  intros _. split.
  - intros ->. by apply Hlen.
  - by eapply forOf_checkItem_inv.
Qed.

(** The restoration loop always runs to its end, and carries every
    property of the products that one restoration step preserves. *)
Lemma forOf_restoreItem_inv (I : gmap string Product → Prop) items st :
  (∀ ps it p, it ∈ items → I ps → ps !! product it = Some p →
     I (<[product it :=
            moveStock (λ s, Number_add s (quantity it)) (variantName it) p]>
          ps)) →
  I (products st) →
  ∃ ps', forOf items restoreItem st = (withProducts ps' st, inr tt) ∧ I ps'.
Proof.
  revert st. induction items as [|it items IH]; intros st Hstep HI; simpl.
  - exists (products st). by destruct st.
  - unfold mbind, Handler_bind.
    destruct (products st !! product it) as [p|] eqn:Hp.
    + rewrite (restoreItem_eval it st p Hp).
      edestruct (IH (withProducts
                       (<[product it :=
                            moveStock (λ s, Number_add s (quantity it))
                              (variantName it) p]>
                          (products st)) st)) as (ps' & Hrun & HI').
      * intros ps it' p' Hin. apply Hstep. by right.
      * simpl. apply Hstep; [by left|done..].
      * exists ps'. by rewrite Hrun.
    + rewrite (restoreItem_missing it st Hp).
      destruct (IH st) as (ps' & Hrun & HI'); [|done|by exists ps'].
      intros ps it' p' Hin. apply Hstep. by right.
Qed.

Lemma cancelOrder_run oid user st o :
  orders st !! oid = Some o →
  o_status o = pending ∨ o_status o = processing →
  o_user o = u_id user ∨ role user = "admin" →
  ∀ ps', forOf (orderItems o) restoreItem st = (withProducts ps' st, inr tt) →
  cancelOrder oid user st =
    (mkStore ps' (categories st)
       (<[oid := set_o_status cancelled o]> (orders st)),
     inr (set_o_status cancelled o)).
Proof.
  intros Ho Hst Hauth ps' Hloop.
  unfold cancelOrder, mbind at 1, Handler_bind at 1, Order_findById.
  rewrite Ho.
  replace (bool_decide (o_status o ≠ pending)
           && bool_decide (o_status o ≠ processing)) with false.
  2:{ symmetry. apply andb_false_iff.
      destruct Hst as [-> | ->]; [left|right]; by apply bool_decide_eq_false_2; auto. }
  replace (bool_decide (o_user o ≠ u_id user)
           && bool_decide (role user ≠ "admin")) with false.
  2:{ symmetry. apply andb_false_iff.
      destruct Hauth as [-> | ->]; [left|right]; by apply bool_decide_eq_false_2; auto. }
  unfold mbind, Handler_bind. simpl orderItems. rewrite Hloop.
  reflexivity.
Qed.

Lemma cancelOrder_closed oid user st o :
  orders st !! oid = Some o →
  o_status o ≠ pending → o_status o ≠ processing →
  cancelOrder oid user st = (st, inl CannotCancel).
Proof.
  intros Ho Hp Hq.
  unfold cancelOrder, mbind at 1, Handler_bind at 1, Order_findById.
  rewrite Ho.
  by rewrite (bool_decide_true (o_status o ≠ pending)),
       (bool_decide_true (o_status o ≠ processing)).
Qed.

Lemma cancelOrder_inv oid user st st' o' :
  cancelOrder oid user st = (st', inr o') →
  ∃ o, orders st !! oid = Some o ∧
       (o_status o = pending ∨ o_status o = processing) ∧
       (o_user o = u_id user ∨ role user = "admin") ∧
       o' = set_o_status cancelled o ∧
       orders st' = <[oid := o']> (orders st) ∧
       categories st' = categories st.
Proof.
  unfold cancelOrder, mbind at 1, Handler_bind at 1, Order_findById.
  destruct (orders st !! oid) as [o|] eqn:Ho; [|done].
  destruct (bool_decide (o_status o ≠ pending)
            && bool_decide (o_status o ≠ processing)) eqn:Hst; [done|].
  destruct (bool_decide (o_user o ≠ u_id user)
            && bool_decide (role user ≠ "admin")) eqn:Hauth; [done|].
  destruct (forOf_restoreItem_inv (λ _, True) (orderItems o) st)
    as (ps' & Hloop & _); [done..|].
  unfold mbind, Handler_bind. simpl orderItems. rewrite Hloop.
  intros [= <- <-]. exists o. split_and!; try done.
  - apply andb_false_iff in Hst as [H|H]; apply bool_decide_eq_false in H;
      [left|right]; by apply dec_stable.
  - apply andb_false_iff in Hauth as [H|H]; apply bool_decide_eq_false in H;
      [left|right]; by apply dec_stable.
Qed.

Lemma shifted_back items ps :
  shifted 1 items (shifted (-1) items ps) = ps.
Proof.
  apply map_eq. intros pid. rewrite shifted_credit, shifted_debit.
  destruct (ps !! pid) as [p|]; simpl; [|done]. by rewrite credit_debit.
Qed.

(** What a successful [createOrder] has stored, whatever the stock. *)
Lemma createOrder_stored oid user items st st1 order :
  createOrder oid user items st = (st1, inr order) →
  order = mkOrder (u_id user) items pending false false ∧
  orders st1 = <[oid := order]> (orders st) ∧
  categories st1 = categories st.
Proof.
  intros Hrun. destruct (createOrder_inv _ _ _ _ _ _ Hrun) as [Hne Hall].
  destruct (createOrder_written oid user items st Hne Hall)
    as (ps' & _ & Hrun').
  rewrite Hrun' in Hrun. by injection Hrun as <- <-.
Qed.

Lemma createOrder_release oid user items st st1 order :
  exactRange (products st) items →
  createOrder oid user items st = (st1, inr order) →
  order = mkOrder (u_id user) items pending false false ∧
  orders st1 !! oid = Some order ∧
  forOf items restoreItem st1 = (withProducts (products st) st1, inr tt).
Proof.
  intros Hrange Hrun.
  destruct (createOrder_inv _ _ _ _ _ _ Hrun) as [Hne Hall].
  rewrite (createOrder_checked oid user items st Hne Hall Hrange) in Hrun.
  injection Hrun as <- <-. split_and!; [done|apply lookup_insert_eq|].
  rewrite forOf_restoreItem_back.
  - simpl. by rewrite shifted_back.
  - simpl. eapply Forall_impl; [exact Hall|]. intros it Hit.
    rewrite shifted_debit.
    destruct (available_products it (products st)) as [p ->]; [|by eexists].
    destruct Hit as (a & -> & _). eauto.
  - simpl. by rewrite shifted_back.
Qed.

(** C7, amended.  When the counters and the quantities are small enough
    for the arithmetic to be exact (the magnitude of each counter plus
    the quantities requested from it is at most 2^53), then after a
    successful [createOrder], running the restoration loop of
    [cancelOrder] over the same items gives back the products collection
    of before the order, hence every product and variant counter; so does
    the cancellation of the new order by its owner or by an admin. *)
Theorem reserve_release_restores oid user items st st1 order :
  exactRange (products st) items →
  createOrder oid user items st = (st1, inr order) →
  (∃ st2, forOf items restoreItem st1 = (st2, inr tt) ∧
          products st2 = products st ∧
          ∀ pid c, stockAt (products st2) pid c = stockAt (products st) pid c) ∧
  (∀ user', u_id user' = u_id user ∨ role user' = "admin" →
     ∃ st2 order',
       cancelOrder oid user' st1 = (st2, inr order') ∧
       o_status order' = cancelled ∧
       products st2 = products st ∧
       ∀ pid c, stockAt (products st2) pid c = stockAt (products st) pid c).
Proof.
  intros Hrange Hrun.
  destruct (createOrder_release _ _ _ _ _ _ Hrange Hrun) as (-> & Ho & Hloop).
  split.
  - eexists. split; [exact Hloop|]. done.
  - intros user' Hauth. eexists _, _. split.
    + eapply (cancelOrder_run oid user' st1); [exact Ho|by left| |exact Hloop].
      simpl. destruct Hauth as [->|?]; [by left|by right].
    + done.
Qed.

Lemma reserve_release_restores_witness :
  products basketStore ≠ products sampleStore ∧
  products (cancelOrder "o1" john basketStore).1 = products sampleStore.
Proof.
  destruct (reserve_release_restores "o1" john basket sampleStore basketStore
              (newOrder "john" basket)) as [_ Hcancel];
    [by apply sampleStore_exactRange|vm_compute; reflexivity|].
  destruct (Hcancel john) as (st2 & order' & Hrun & _ & Hps & _);
    [left; reflexivity|].
  split.
  - intros Heq. apply (f_equal (λ m, p_stock <$> m !! "h1")) in Heq.
    vm_compute in Heq. discriminate.
  - rewrite Hrun. exact Hps.
Defined.

(** C7 as stated fails beyond 2^53, where sums and differences are
    rounded: one unit ordered from a stock of 2^53 + 2 leaves 2^53, and
    the restoration of that unit, by the loop or by the cancellation of
    the order, leaves 2^53 again, not the stock of before the order. *)
Lemma reserve_release_rounded :
  createOrder "o1" john [mkItem "b" None 1] bulkStore
    = (bulkOrdered, inr (newOrder "john" [mkItem "b" None 1])) ∧
  stockAt (products bulkStore) "b" None = Some (2 ^ 53 + 2) ∧
  stockAt (products bulkOrdered) "b" None = Some (2 ^ 53) ∧
  (forOf [mkItem "b" None 1] restoreItem bulkOrdered).2 = inr tt ∧
  stockAt (products (forOf [mkItem "b" None 1] restoreItem bulkOrdered).1)
    "b" None = Some (2 ^ 53) ∧
  (cancelOrder "o1" john bulkOrdered).2
    = inr (set_o_status cancelled (newOrder "john" [mkItem "b" None 1])) ∧
  stockAt (products (cancelOrder "o1" john bulkOrdered).1) "b" None
    = Some (2 ^ 53).
Proof. split_and!; vm_compute; reflexivity. Qed.

Lemma cancelOrder_failed oid user st st' e :
  cancelOrder oid user st = (st', inl e) → st' = st.
Proof.
  unfold cancelOrder, mbind at 1, Handler_bind at 1, Order_findById.
  destruct (orders st !! oid) as [o|]; [|by intros [= <- _]].
  destruct (_ && _); [by intros [= <- _]|].
  destruct (_ && _); [by intros [= <- _]|].
  destruct (forOf_restoreItem_inv (λ _, True) (orderItems o) st)
    as (ps' & Hloop & _); [done..|].
  unfold mbind, Handler_bind. simpl orderItems. by rewrite Hloop.
Qed.

(** C9, amended.  [cancelOrder] on an order that is neither pending nor
    processing throws before any write: the whole store, and with it the
    order and every stock counter, is as before.  More generally a
    cancellation that throws has written nothing.  A second cancellation
    of an order whose cancellation succeeded, on the store that the first
    one left, is therefore refused and restores nothing. *)
Theorem cancelOrder_not_twice oid user st :
  (∀ o, orders st !! oid = Some o →
        o_status o ≠ pending → o_status o ≠ processing →
        cancelOrder oid user st = (st, inl CannotCancel)) ∧
  (∀ st1 e, cancelOrder oid user st = (st1, inl e) → st1 = st) ∧
  (∀ st1 o1, cancelOrder oid user st = (st1, inr o1) →
     ∀ user', cancelOrder oid user' st1 = (st1, inl CannotCancel)).
Proof.
  split_and!.
  - intros o. apply cancelOrder_closed.
  - intros st1 e. apply cancelOrder_failed.
  - intros st1 o1 Hrun user'.
    destruct (cancelOrder_inv _ _ _ _ _ Hrun) as (o & _ & _ & _ & -> & Hos & _).
    apply (cancelOrder_closed oid user' st1 (set_o_status cancelled o)).
    + rewrite Hos. apply lookup_insert_eq.
    + done.
    + done.
Qed.

Lemma cancelOrder_not_twice_witness :
  products cancelledStore = products sampleStore ∧
  cancelOrder "o1" john cancelledStore = (cancelledStore, inl CannotCancel).
Proof.
  split; [vm_compute; reflexivity|].
  apply (proj2 (proj2 (cancelOrder_not_twice "o1" john orderedStore))
           cancelledStore
           (set_o_status cancelled (newOrder "john" [mkItem "p" None 2]))).
  vm_compute. reflexivity.
Defined.

(** C9 as stated fails: the stock of an order can be restored twice by
    cancelling it twice, once another handler has reopened it in between.
    Two units are ordered from a stock of 5 and the order is cancelled,
    which gives the 5 back; marking the cancelled order as paid puts it in
    processing, and the second cancellation succeeds and leaves 7. *)
Lemma cancelOrder_restores_twice :
  stockAt (products sampleStore) "p" None = Some 5 ∧
  stockAt (products orderedStore) "p" None = Some 3 ∧
  cancelOrder "o1" john orderedStore
    = (cancelledStore,
       inr (set_o_status cancelled (newOrder "john" [mkItem "p" None 2]))) ∧
  stockAt (products cancelledStore) "p" None = Some 5 ∧
  (updateOrderToPaid "o1" (Some "payer@example.com") cancelledStore).1
    = repaidStore ∧
  (cancelOrder "o1" john repaidStore).2
    = inr (set_o_status cancelled
             (set_o_status processing
                (set_isPaid true
                   (set_o_status cancelled
                      (newOrder "john" [mkItem "p" None 2]))))) ∧
  stockAt (products (cancelOrder "o1" john repaidStore).1) "p" None = Some 7.
Proof. split_and!; vm_compute; reflexivity. Qed.

(** ** Order lifecycle *)

(** C3, amended.  The status an order takes under each handler:
    [createOrder] stores the new order as pending; [updateOrderToPaid]
    sets processing and [updateOrderToDelivered] sets delivered whatever
    the status was; [updateOrderStatus] sets the status it is given and
    keeps the status when it is given none; [cancelOrder] succeeds only
    from pending or processing, sets cancelled, and is refused from
    delivered and cancelled, which it leaves as they are. *)
Theorem order_status_transitions oid st :
  (∀ user items st' order,
     createOrder oid user items st = (st', inr order) →
     o_status order = pending ∧ orders st' !! oid = Some order) ∧
  (∀ o, orders st !! oid = Some o →
     (∀ payer, ∃ st' o',
        updateOrderToPaid oid (Some payer) st = (st', inr o') ∧
        orders st' !! oid = Some o' ∧ o_status o' = processing) ∧
     (∃ st' o',
        updateOrderToDelivered oid st = (st', inr o') ∧
        orders st' !! oid = Some o' ∧ o_status o' = delivered) ∧
     (∀ s, ∃ st' o',
        updateOrderStatus oid s st = (st', inr o') ∧
        orders st' !! oid = Some o' ∧
        o_status o' = default (o_status o) s) ∧
     (∀ user st' o',
        cancelOrder oid user st = (st', inr o') →
        (o_status o = pending ∨ o_status o = processing) ∧
        orders st' !! oid = Some o' ∧ o_status o' = cancelled) ∧
     (o_status o = delivered ∨ o_status o = cancelled →
      ∀ user, cancelOrder oid user st = (st, inl CannotCancel))).
Proof.
  split.
  - intros user items st' order Hrun.
    destruct (createOrder_stored _ _ _ _ _ _ Hrun) as (-> & -> & _).
    split; [done|apply lookup_insert_eq].
  - intros o Ho. split_and!.
    + intros payer. eexists _, _.
      unfold updateOrderToPaid, mbind, Handler_bind, Order_findById.
      rewrite Ho. split; [reflexivity|]. simpl.
      split; [apply lookup_insert_eq|done].
    + eexists _, _.
      unfold updateOrderToDelivered, mbind, Handler_bind, Order_findById.
      rewrite Ho. split; [reflexivity|]. simpl.
      split; [apply lookup_insert_eq|done].
    + intros s. eexists _, _.
      unfold updateOrderStatus, mbind, Handler_bind, Order_findById.
      rewrite Ho. split; [reflexivity|]. simpl.
      split; [apply lookup_insert_eq|].
      by destruct (bool_decide (s = Some delivered) && negb (isDelivered o)).
    + intros user st' o' Hrun.
      destruct (cancelOrder_inv _ _ _ _ _ Hrun)
        as (o0 & Ho0 & Hst & _ & -> & Hos & _).
      rewrite Ho in Ho0. injection Ho0 as <-.
      split_and!; [done| |done]. rewrite Hos. apply lookup_insert_eq.
    + intros Hst user. apply (cancelOrder_closed oid user st o Ho);
        by destruct Hst as [-> | ->].
Qed.

Lemma order_status_transitions_witness :
  o_status <$> orders orderedStore !! "o1" = Some pending ∧
  o_status <$> orders deliveredStore !! "o1" = Some delivered ∧
  cancelOrder "o1" john deliveredStore = (deliveredStore, inl CannotCancel).
Proof.
  destruct (order_status_transitions "o1" sampleStore) as [Hcreate _].
  destruct (Hcreate john [mkItem "p" None 2] orderedStore
              (newOrder "john" [mkItem "p" None 2]))
    as [_ Ho1]; [vm_compute; reflexivity|].
  destruct (order_status_transitions "o1" orderedStore) as [_ Hst1].
  destruct (Hst1 _ Ho1) as (_ & (st' & o' & Hrun & Ho' & Hd) & _).
  assert (st' = deliveredStore) as ->
    by (unfold deliveredStore; by rewrite Hrun).
  destruct (order_status_transitions "o1" deliveredStore) as [_ Hst2].
  destruct (Hst2 _ Ho') as (_ & _ & _ & _ & Hclosed).
  split_and!.
  - by rewrite Ho1.
  - by rewrite Ho', <- Hd.
  - apply Hclosed. by left.
Defined.

(** C3 as stated fails: cancelled and delivered are not terminal.  An
    order is placed, cancelled by its owner, and then marked as paid,
    which puts it back in processing; it is then delivered, and the status
    handler moves the delivered order back to pending. *)
Lemma cancelled_order_reopened :
  o_status <$> orders cancelledStore !! "o1" = Some cancelled ∧
  o_status <$> orders repaidStore !! "o1" = Some processing ∧
  o_status <$> orders (updateOrderToDelivered "o1" repaidStore).1 !! "o1"
    = Some delivered ∧
  o_status <$> orders (updateOrderStatus "o1" (Some pending)
                         (updateOrderToDelivered "o1" repaidStore).1).1 !! "o1"
    = Some pending.
Proof. vm_compute. done. Qed.

(** ** Non-negative stock *)

Lemma moveStock_nonneg f vn p :
  (∀ s, 0 ≤ s → 0 ≤ f s) →
  product_nonneg p → product_nonneg (moveStock f vn p).
Proof.
  intros Hf [Hs Hvs]. unfold moveStock. destruct vn as [n|].
  - destruct (findIndex (named n) (p_variants p)) as [i|]; [|done].
    split; [done|]. simpl. apply Forall_alter; [done|].
    intros v _ Hv. simpl. by apply Hf.
  - split; [simpl; auto|done].
Qed.

Lemma stockIn_nonneg p c a :
  product_nonneg p → stockIn p c = Some a → 0 ≤ a.
Proof.
  intros [Hs Hvs]. destruct c as [n|]; simpl; [|by intros [= <-]].
  destruct (List.find (named n) (p_variants p)) as [v|] eqn:Hv; simpl; [|done].
  intros [= <-]. apply find_some in Hv as [Hv _].
  rewrite Forall_forall in Hvs. apply Hvs. by apply list_elem_of_In.
Qed.

Lemma stockAt_nonneg ps pid c a :
  stock_nonneg ps → stockAt ps pid c = Some a → 0 ≤ a.
Proof.
  intros Hinv. rewrite stockAt_stockIn.
  destruct (ps !! pid) as [p|] eqn:Hp; simpl; [|done].
  apply stockIn_nonneg. by apply (Hinv pid).
Qed.

(** A shift that leaves every counter of a product non-negative. *)
Lemma shiftStock_nonneg d p :
  product_nonneg p →
  (∀ c a, stockIn p c = Some a → 0 ≤ a + d c) →
  product_nonneg (shiftStock d p).
Proof.
  intros [Hs Hvs] Hd. split.
  - unfold shiftStock; simpl. by apply (Hd None).
  - apply Forall_lookup. intros i v'.
    unfold shiftStock; simpl. rewrite list_lookup_imap.
    destruct (p_variants p !! i) as [v|] eqn:Hv; simpl; [|done].
    intros [= <-]. pose proof (Forall_lookup_1 _ _ _ _ Hvs Hv) as Hv0.
    case_bool_decide as Hi; [|done]. simpl.
    apply (Hd (Some (v_name v))). simpl.
    by rewrite find_findIndex, Hi; simpl; rewrite Hv.
Qed.

(** An item on another counter is as covered after a shift as before. *)
Lemma covered_insert_other ps it it' p delta :
  ps !! product it = Some p → counterOf it' ≠ counterOf it →
  covered ps it' →
  covered (<[product it := shiftStock (only (variantName it) delta) p]> ps) it'.
Proof.
  intros Hp Hne (a & Ha & Hq). exists a. split; [|done].
  unfold available in *.
  rewrite (stockAt_insert_shift _ _ _ _ _ _ Hp), Ha. simpl.
  apply (f_equal Some). unfold only. case_bool_decide as Hpid; [|lia].
  rewrite bool_decide_false; [lia|].
  intros Hc. apply Hne. unfold counterOf. by rewrite Hpid, Hc.
Qed.

(** The decrement loop over items that are covered and resolve to
    pairwise distinct counters keeps the stock non-negative: each counter
    is read as the check saw it, and a rounded difference of a covered
    quantity is not negative. *)
Lemma forOf_decrementItem_nonneg items st :
  NoDup (counterOf <$> items) →
  Forall (covered (products st)) items →
  stock_nonneg (products st) →
  ∃ ps', forOf items decrementItem st = (withProducts ps' st, inr tt) ∧
         stock_nonneg ps'.
Proof.
  revert st. induction items as [|it items IH]; intros st Hnd Hall Hinv; simpl.
  - exists (products st). by destruct st.
  - rewrite fmap_cons in Hnd. apply NoDup_cons in Hnd as [Hnot Hnd].
    inversion Hall as [|? ? Hit Hrest]; subst.
    destruct Hit as (a & Ha & Hq).
    destruct (available_products it (products st)) as [p Hp]; [by eexists|].
    unfold available in Ha. rewrite stockAt_stockIn, Hp in Ha. simpl in Ha.
    unfold mbind, Handler_bind. rewrite (decrementItem_eval it st p Hp).
    rewrite (moveStock_shift _ (Number_sub a (quantity it) - a)).
    2:{ intros a0 Ha0. rewrite Ha0 in Ha. injection Ha as ->. lia. }
    edestruct (IH (withProducts
                     (<[product it :=
                          shiftStock (only (variantName it)
                                        (Number_sub a (quantity it) - a)) p]>
                        (products st)) st)) as (ps' & Hrun & Hps').
    + done.
    + simpl. apply Forall_forall. intros it' Hin.
      apply covered_insert_other; [done| |].
      * intros Heq. apply Hnot. rewrite <- Heq.
        apply list_elem_of_fmap. eauto.
      * rewrite Forall_forall in Hrest. auto.
    + simpl. apply map_Forall_insert_2; [|done].
      apply shiftStock_nonneg; [by apply (Hinv (product it))|].
      intros c a0 Ha0. unfold only. case_bool_decide as Hc.
      * subst c. rewrite Ha0 in Ha. injection Ha as ->.
        pose proof (nearestNumber_nonneg (a - quantity it)).
        unfold Number_sub. lia.
      * pose proof (stockIn_nonneg p c a0 (Hinv _ _ Hp) Ha0). lia.
    + exists ps'. by rewrite Hrun.
Qed.

Lemma forOf_checkItem_store items st : (forOf items checkItem st).1 = st.
Proof.
  induction items as [|it items IH]; simpl; [done|].
  unfold mbind, Handler_bind.
  pose proof (checkItem_store it st) as Hst.
  destruct (checkItem it st) as [st0 [e|[]]]; simpl in *; by subst.
Qed.

Lemma createOrder_failed oid user items st st' e :
  createOrder oid user items st = (st', inl e) → st' = st.
Proof.
  unfold createOrder. case_bool_decide as Hlen; [by intros [= <-]|].
  unfold mbind at 1, Handler_bind at 1.
  pose proof (forOf_checkItem_store items st) as Hst.
  destruct (forOf items checkItem st) as [st0 [e0|[]]] eqn:Hcheck;
    simpl in Hst; subst st0; [by intros [= <-]|].
  pose proof (forOf_checkItem_inv _ _ _ Hcheck) as Hall.
  destruct (forOf_decrementItem_inv (λ _, True) items
              (mkStore (products st) (categories st)
                 (<[oid := newOrder (u_id user) items]> (orders st))))
    as (ps' & Hloop & _); [by apply covered_products|done..|].
  unfold mbind at 1, Handler_bind at 1, Order_save at 1.
  unfold mbind at 1, Handler_bind at 1.
  by rewrite Hloop.
Qed.

Lemma createOrder_nonneg oid user items st st' r :
  stock_nonneg (products st) → NoDup (counterOf <$> items) →
  createOrder oid user items st = (st', r) → stock_nonneg (products st').
Proof.
  intros Hinv Hnd Hrun. destruct r as [e|order].
  - by rewrite (createOrder_failed _ _ _ _ _ _ Hrun).
  - destruct (createOrder_inv _ _ _ _ _ _ Hrun) as [Hne Hall].
    destruct (createOrder_written oid user items st Hne Hall)
      as (ps' & Hloop & Hrun').
    rewrite Hrun' in Hrun. injection Hrun as <- _. simpl.
    destruct (forOf_decrementItem_nonneg items
                (mkStore (products st) (categories st)
                   (<[oid := mkOrder (u_id user) items pending false false]>
                      (orders st))))
      as (ps'' & Hloop' & Hps''); [done..|].
    rewrite Hloop in Hloop'. by injection Hloop' as ->.
Qed.

Lemma cancelOrder_nonneg oid user st st' r :
  stock_nonneg (products st) →
  (∀ o, orders st !! oid = Some o →
        Forall (λ it, 0 ≤ quantity it) (orderItems o)) →
  cancelOrder oid user st = (st', r) → stock_nonneg (products st').
Proof.
  intros Hinv Hq.
  unfold cancelOrder, mbind at 1, Handler_bind at 1, Order_findById.
  destruct (orders st !! oid) as [o|] eqn:Ho; [|by intros [= <- _]].
  destruct (_ && _); [by intros [= <- _]|].
  destruct (_ && _); [by intros [= <- _]|].
  destruct (forOf_restoreItem_inv stock_nonneg (orderItems o) st)
    as (ps' & Hloop & Hps'); [|done|].
  - intros ps it p Hin Hps Hp.
    apply map_Forall_insert_2; [|done].
    apply moveStock_nonneg; [|by apply (Hps (product it))].
    intros s Hs. pose proof (Hq o eq_refl) as Hall.
    rewrite Forall_forall in Hall. specialize (Hall it Hin). simpl in Hall.
    apply nearestNumber_nonneg. lia.
  - unfold mbind, Handler_bind. simpl orderItems. rewrite Hloop.
    by intros [= <- _].
Qed.

Lemma updateProduct_nonneg id body st st' r :
  stock_nonneg (products st) →
  (∀ s, b_stock body = Some s → 0 ≤ s) →
  (∀ vs, b_variants body = Some vs → Forall (λ v, 0 ≤ v_stock v) vs) →
  updateProduct id body st = (st', r) → stock_nonneg (products st').
Proof.
  intros Hinv Hs Hvs.
  unfold updateProduct, mbind, Handler_bind, Product_findById, Product_save.
  destruct (products st !! id) as [p|] eqn:Hp; [|by intros [= <- _]].
  intros [= <- _]. simpl. apply map_Forall_insert_2; [|done].
  destruct (Hinv id p Hp) as [Hp0 Hpv]. split; simpl.
  - destruct (b_stock body) as [s|]; simpl; auto.
  - destruct (b_variants body) as [vs|]; simpl; auto.
Qed.

(** C4, amended.  From a store whose counters are all non-negative:
    [createOrder] keeps them non-negative when its items resolve to
    pairwise distinct counters; [cancelOrder] keeps them non-negative when
    the stored order has non-negative quantities; [updateProduct] keeps
    them non-negative when the stock and the variant stocks it is given,
    if any, are non-negative (it stores them as given). *)
Theorem stock_nonneg_preserved st :
  stock_nonneg (products st) →
  (∀ oid user items st' r,
     NoDup (counterOf <$> items) →
     createOrder oid user items st = (st', r) →
     stock_nonneg (products st')) ∧
  (∀ oid user st' r,
     (∀ o, orders st !! oid = Some o →
           Forall (λ it, 0 ≤ quantity it) (orderItems o)) →
     cancelOrder oid user st = (st', r) →
     stock_nonneg (products st')) ∧
  (∀ id body st' r,
     (∀ s, b_stock body = Some s → 0 ≤ s) →
     (∀ vs, b_variants body = Some vs → Forall (λ v, 0 ≤ v_stock v) vs) →
     updateProduct id body st = (st', r) →
     stock_nonneg (products st')).
Proof.
  intros Hinv. split_and!.
  - intros oid user items st' r Hnd. by apply createOrder_nonneg.
  - intros oid user st' r Hq. by apply cancelOrder_nonneg.
  - intros id body st' r Hs Hvs. by apply (updateProduct_nonneg id body).
Qed.

Lemma sampleStore_nonneg : stock_nonneg (products sampleStore).
Proof.
  intros pid p Hp. unfold sampleStore in Hp; simpl in Hp.
  apply lookup_insert_Some in Hp as [[_ <-]|[_ Hp]].
  - split; [done|]. by repeat constructor.
  - apply lookup_insert_Some in Hp as [[_ <-]|[_ Hp]]; [|done].
    split; [done|]. by repeat constructor.
Defined.

Lemma stock_nonneg_preserved_witness :
  stock_nonneg
    (products (createOrder "o1" john
                 [mkItem "p" (Some "Red") 3; mkItem "p" None 5] sampleStore).1) ∧
  stock_nonneg
    (products (updateProduct "p" (mkProductBody None None (Some 0) None)
                 sampleStore).1).
Proof.
  destruct (stock_nonneg_preserved sampleStore sampleStore_nonneg)
    as (Hcreate & _ & Hupdate).
  split.
  - eapply (Hcreate "o1" john [mkItem "p" (Some "Red") 3; mkItem "p" None 5]).
    + apply (bool_decide_unpack _). by vm_compute.
    + apply surjective_pairing.
  - eapply (Hupdate "p" (mkProductBody None None (Some 0) None)).
    + simpl. intros s [= <-]. done.
    + simpl. done.
    + apply surjective_pairing.
Defined.

(** C4 as stated fails.  [updateProduct] stores the stock it is given,
    negative or not; and [createOrder] checks each item against the stock
    of before the order, so that two items of quantity 3 on a stock of 5
    both pass and leave the stock at -1. *)
Lemma stock_goes_negative :
  stock_nonneg (products sampleStore) ∧
  p_stock <$> products (updateProduct "p"
                          (mkProductBody None None (Some (-1)) None)
                          sampleStore).1 !! "p" = Some (-1) ∧
  Forall (λ it, 0 < quantity it) [mkItem "p" None 3; mkItem "p" None 3] ∧
  p_stock <$> products (createOrder "o1" john
                          [mkItem "p" None 3; mkItem "p" None 3]
                          sampleStore).1 !! "p" = Some (-1).
Proof.
  split_and!; [apply sampleStore_nonneg|reflexivity| |reflexivity].
  by repeat constructor.
Qed.

(** ** Category hierarchy *)

Section hierarchy.
Variable cats : gmap string Category.
Variable cid : string.

Lemma ancestorWalk_mono fuel fuel' x r :
  ancestorWalk fuel cats cid x = Some r → (fuel ≤ fuel')%nat →
  ancestorWalk fuel' cats cid x = Some r.
Proof.
  revert fuel' x. induction fuel as [|fuel IH]; intros fuel' x; simpl.
  - destruct fuel'; simpl; [done|].
    destruct (truthy x) as [y|]; [|done]. by case_bool_decide.
  - intros Hrun Hle. destruct fuel' as [|fuel']; [lia|]. simpl.
    destruct (truthy x) as [y|]; [|done].
    case_bool_decide; [done|]. apply IH; [done|lia].
Qed.

(** A walk that throws has found [cid] on the chain it follows. *)
Lemma ancestorWalk_throws fuel x e :
  ancestorWalk fuel cats cid x = Some (inl e) →
  e = CircularReference ∧
  ∃ y, truthy x = Some y ∧ rtc (parentStep cats) y cid.
Proof.
  revert x. induction fuel as [|fuel IH]; intros x; simpl.
  - destruct (truthy x) as [y|]; [|done].
    case_bool_decide as Hy; [|done]. intros [= <-].
    split; [done|]. exists y. by subst.
  - destruct (truthy x) as [y|]; [|done].
    case_bool_decide as Hy.
    + intros [= <-]. split; [done|]. exists y. by subst.
    + intros Hrun. destruct (IH _ Hrun) as (-> & z & Hz & Hreach).
      split; [done|]. exists y. split; [done|]. by eapply rtc_l.
Qed.

(** A chain that contains [cid] makes the walk throw, in finitely many
    hops. *)
Lemma ancestorWalk_finds y :
  rtc (parentStep cats) y cid →
  ∀ x, truthy x = Some y →
  ∃ fuel, ancestorWalk fuel cats cid x = Some (inl CircularReference).
Proof.
  induction 1 as [y|y z w Hstep Hreach IH]; intros x Hx.
  - exists 0%nat. simpl. by rewrite Hx, bool_decide_true.
  - destruct (IH _ Hstep) as [fuel Hrun].
    exists (S fuel). simpl. rewrite Hx.
    case_bool_decide; [done|]. exact Hrun.
Qed.

(** The hops of the walk are bounded by the depth of the chain. *)
Lemma ancestorWalk_depth x n :
  depth cats x n →
  ∀ fuel, (n ≤ fuel)%nat →
  ancestorWalk fuel cats cid x = Some (inr tt) ∨
  ancestorWalk fuel cats cid x = Some (inl CircularReference).
Proof.
  induction 1 as [x Hx|x y n Hx _ IH]; intros fuel Hle.
  - left. destruct fuel; simpl; by rewrite Hx.
  - destruct fuel as [|fuel]; [lia|]. simpl. rewrite Hx.
    case_bool_decide; [by right|]. apply IH. lia.
Qed.

(** In an acyclic collection every chain is finite; the ids met so far
    ([seen]) are distinct stored categories. *)
Lemma acyclic_depth (k : nat) (seen : gset string) x :
  acyclic cats →
  seen ⊆ dom cats →
  (size cats ≤ size seen + k)%nat →
  (∀ s y, s ∈ seen → truthy x = Some y → tc (parentStep cats) s y) →
  ∃ n, depth cats x n ∧ (n + size seen ≤ size cats + 1)%nat.
Proof.
  intros Hacyclic. revert seen x.
  induction k as [|k IH]; intros seen x Hsub Hsize Hseen.
  - destruct (truthy x) as [y|] eqn:Hx.
    + assert (y ∉ seen) as Hfresh.
      { intros Hin. apply (Hacyclic y). by apply Hseen. }
      destruct (cats !! y) as [c|] eqn:Hy.
      * exfalso. assert ({[y]} ∪ seen ⊆ dom cats) as Hsub'.
        { apply union_least; [|done].
          apply singleton_subseteq_l, elem_of_dom. eauto. }
        apply subseteq_size in Hsub'.
        rewrite size_union, size_singleton, size_dom in Hsub'
          by set_solver. lia.
      * exists 1%nat. split.
        -- eapply depth_step; [done|]. apply depth_root.
           unfold parentOf. by rewrite Hy.
        -- apply subseteq_size in Hsub. rewrite size_dom in Hsub. lia.
    + exists 0%nat. split; [by apply depth_root|].
      apply subseteq_size in Hsub. rewrite size_dom in Hsub. lia.
  - destruct (truthy x) as [y|] eqn:Hx.
    + assert (y ∉ seen) as Hfresh.
      { intros Hin. apply (Hacyclic y). by apply Hseen. }
      destruct (cats !! y) as [c|] eqn:Hy.
      * destruct (IH ({[y]} ∪ seen) (parentOf cats y)) as (n & Hn & Hle).
        -- apply union_least; [|done].
           apply singleton_subseteq_l, elem_of_dom. eauto.
        -- rewrite size_union, size_singleton by set_solver. lia.
        -- intros s z Hs Hz. apply elem_of_union in Hs as [Hs|Hs].
           ++ apply elem_of_singleton in Hs as ->. by apply tc_once.
           ++ eapply tc_r; [by apply Hseen|]. exact Hz.
        -- exists (S n). split; [by eapply depth_step|].
           rewrite size_union, size_singleton in Hle by set_solver. lia.
      * exists 1%nat. split.
        -- eapply depth_step; [done|]. apply depth_root.
           unfold parentOf. by rewrite Hy.
        -- apply subseteq_size in Hsub. rewrite size_dom in Hsub. lia.
    + exists 0%nat. split; [by apply depth_root|].
      apply subseteq_size in Hsub. rewrite size_dom in Hsub. lia.
Qed.
End hierarchy.

Lemma tc_first_step {A} (R : relation A) x z :
  tc R x z → ∃ y, R x y ∧ rtc R y z.
Proof.
  destruct 1 as [x z Hxz|x y z Hxy Hyz].
  - exists z. split; [done|apply rtc_refl].
  - exists y. split; [done|by apply tc_rtc].
Qed.

Lemma truthy_Some s : s ≠ "" → truthy (Some s) = Some s.
Proof. intros Hs. unfold truthy. by rewrite bool_decide_false. Qed.

Lemma ancestorWalk_hit fuel cats cid x :
  truthy x = Some cid →
  ancestorWalk fuel cats cid x = Some (inl CircularReference).
Proof. intros Hx. destruct fuel; simpl; by rewrite Hx, bool_decide_true. Qed.

Lemma ancestorWalk_next fuel cats cid x y :
  truthy x = Some y → y ≠ cid →
  ancestorWalk (S fuel) cats cid x
    = ancestorWalk fuel cats cid (parentOf cats y).
Proof. intros Hx Hy. simpl. by rewrite Hx, bool_decide_false. Qed.

Lemma truthy_inv x s : truthy x = Some s → x = Some s ∧ s ≠ "".
Proof.
  destruct x as [t|]; simpl; [|done].
  case_bool_decide; [done|]. by intros [= <-].
Qed.

(** What a throwing guard has seen: a string that is no ObjectId, or the
    spelling of the category's own id, or the category among the
    ancestors of the parent that the string is cast to. *)
Lemma validateReparent_throws castObjectId fuel cats cid parent e :
  validateReparent castObjectId fuel cats cid parent = Some (inl e) →
  ∃ p, truthy parent = Some p ∧
    (e = CastError ∧ p ≠ cid ∧ castObjectId p = None ∨
     InvalidHierarchy e = true ∧
     (p = cid ∨ ∃ parentId, castObjectId p = Some parentId ∧
                  tc (parentStep cats) parentId cid)).
Proof.
  unfold validateReparent. destruct (truthy parent) as [p|]; [|done].
  intros Hrun. exists p. split; [done|]. revert Hrun.
  case_bool_decide as Hp.
  - intros [= <-]. right. split; [done|by left].
  - destruct (castObjectId p) as [parentId|] eqn:Hcast.
    + intros Hrun.
      destruct (ancestorWalk_throws _ _ _ _ _ Hrun) as (-> & y & Hy & Hreach).
      right. split; [done|]. right. exists parentId. split; [done|].
      eapply tc_rtc_r; [|exact Hreach]. by apply tc_once.
    + intros [= <-]. by left.
Qed.

Lemma validateReparent_finds castObjectId cats cid parent p parentId :
  truthy parent = Some p → p ≠ cid → castObjectId p = Some parentId →
  tc (parentStep cats) parentId cid →
  ∃ fuel, validateReparent castObjectId fuel cats cid parent
          = Some (inl CircularReference).
Proof.
  intros Hp Hne Hcast Htc. unfold validateReparent.
  rewrite Hp, bool_decide_false, Hcast by done.
  destruct (tc_first_step _ _ _ Htc) as (y & Hstep & Hreach).
  apply (ancestorWalk_finds cats cid y Hreach _ Hstep).
Qed.

Lemma validateReparent_mono castObjectId fuel fuel' cats cid parent r :
  validateReparent castObjectId fuel cats cid parent = Some r →
  (fuel ≤ fuel')%nat →
  validateReparent castObjectId fuel' cats cid parent = Some r.
Proof.
  unfold validateReparent. destruct (truthy parent) as [p|]; [|done].
  case_bool_decide; [done|].
  destruct (castObjectId p); [apply ancestorWalk_mono|done].
Qed.

(** What a passing guard has checked: the string is not the spelling of
    the category's own id, it is cast to an ObjectId, and the category is
    not among the ancestors of that ObjectId. *)
Lemma validateReparent_passes castObjectId fuel cats cid parent p :
  validateReparent castObjectId fuel cats cid parent = Some (inr tt) →
  truthy parent = Some p →
  p ≠ cid ∧
  ∃ parentId, castObjectId p = Some parentId ∧
              ¬ tc (parentStep cats) parentId cid.
Proof.
  intros Hrun Hp.
  assert (p ≠ cid) as Hne.
  { intros ->. revert Hrun. unfold validateReparent.
    by rewrite Hp, bool_decide_true. }
  split; [done|].
  destruct (castObjectId p) as [parentId|] eqn:Hcast.
  - exists parentId. split; [done|]. intros Htc.
    destruct (validateReparent_finds castObjectId cats cid parent p parentId
                Hp Hne Hcast Htc) as [fuel0 Hrun0].
    pose proof (validateReparent_mono _ _ (fuel `max` fuel0) _ _ _ _ Hrun
                  ltac:(lia)) as H1.
    pose proof (validateReparent_mono _ _ (fuel `max` fuel0) _ _ _ _ Hrun0
                  ltac:(lia)) as H2.
    congruence.
  - revert Hrun. unfold validateReparent.
    by rewrite Hp, bool_decide_false, Hcast.
Qed.

(** In an acyclic collection the walk ends within the number of stored
    categories plus one hops. *)
Lemma ancestorWalk_acyclic cats cid x :
  acyclic cats →
  ∃ n, depth cats x n ∧ (n ≤ size cats + 1)%nat ∧
    ∀ fuel, (n ≤ fuel)%nat →
      ancestorWalk fuel cats cid x = Some (inr tt) ∨
      ancestorWalk fuel cats cid x = Some (inl CircularReference).
Proof.
  intros Hacyclic.
  destruct (acyclic_depth cats (size cats) ∅ x)
    as (n & Hn & Hle); [done|set_solver|lia|set_solver|].
  exists n. split_and!; [done|lia|]. by apply ancestorWalk_depth.
Qed.

(** For a parent spelled as the database writes it, the guard throws
    exactly when the parent would close a cycle. *)
Lemma validateReparent_canonical castObjectId cats cid parent p fuel r :
  truthy parent = Some p → castObjectId p = Some p →
  validateReparent castObjectId fuel cats cid parent = Some r →
  ((∃ e, r = inl e) ↔ closesCycle cats cid p) ∧
  (∀ e, r = inl e → InvalidHierarchy e = true).
Proof.
  intros Hp Hcast Hrun. split; [split|].
  - intros [e ->].
    destruct (validateReparent_throws _ _ _ _ _ _ Hrun)
      as (p' & Hp' & [(_ & _ & Hnone)|(_ & [->|(pc & Hpc & Htc)])]);
      rewrite Hp in Hp'; injection Hp' as <-.
    + congruence.
    + by left.
    + rewrite Hcast in Hpc. injection Hpc as <-. by right.
  - intros Hcycle. destruct r as [e|[]]; [eauto|]. exfalso.
    destruct (validateReparent_passes _ _ _ _ _ _ Hrun Hp)
      as (Hne & pc & Hpc & Hno).
    rewrite Hcast in Hpc. injection Hpc as <-.
    by destruct Hcycle.
  - intros e ->.
    destruct (validateReparent_throws _ _ _ _ _ _ Hrun)
      as (p' & Hp' & [(_ & _ & Hnone)|(He & _)]); [|done].
    rewrite Hp in Hp'. injection Hp' as <-. congruence.
Qed.

Lemma updateCategory_inv castObjectId fuel id body st st' r :
  updateCategory castObjectId fuel id body st = Some (st', r) →
  (st' = st ∧ ∃ e, r = inl e) ∨
  ∃ c c' parent, categories st !! id = Some c ∧ r = inr c' ∧
    assignParent castObjectId (c_parent c) (cb_parent body) = Some parent ∧
    c' = mkCategory (default (c_name c) (truthy (cb_name body))) parent ∧
    validateReparent castObjectId fuel (categories st) id
      (default None (cb_parent body)) = Some (inr tt) ∧
    st' = mkStore (products st) (<[id := c']> (categories st)) (orders st).
Proof.
  unfold updateCategory.
  destruct (categories st !! id) as [c|] eqn:Hc; [|intros [= <- <-]; eauto].
  destruct (validateReparent _ _ _ _ _) as [[e|[]]|] eqn:Hrun; [| |done].
  - intros [= <- <-]. eauto.
  - destruct (assignParent _ _ _) as [parent|] eqn:Hparent.
    + intros [= <- <-]. right. by eexists _, _, _.
    + intros [= <- <-]. eauto.
Qed.

(** C5.  The first guard of [updateCategory] compares the request string
    with the category's id, while the lookup that follows and the save
    cast that string.  A request that spells the category's own id in
    another way than the database writes it therefore passes both guards
    on an acyclic hierarchy, and [updateCategory] stores the category as
    its own parent: the hierarchy is no longer acyclic. *)
Theorem validateReparent_misses_respelling castObjectId fuel st id c p name :
  acyclic (categories st) →
  (size (categories st) + 1 ≤ fuel)%nat →
  categories st !! id = Some c →
  id ≠ "" → p ≠ "" →
  respelled castObjectId id p →
  validateReparent castObjectId fuel (categories st) id (Some p)
    = Some (inr tt) ∧
  ∃ st' c',
    updateCategory castObjectId fuel id
      (mkCategoryBody name (Some (Some p))) st = Some (st', inr c') ∧
    c_parent c' = Some id ∧
    categories st' !! id = Some c' ∧
    parentStep (categories st') id id ∧
    ¬ acyclic (categories st').
Proof.
  intros Hacyclic Hfuel Hc Hid Hp [Hne Hcast].
  assert (validateReparent castObjectId fuel (categories st) id (Some p)
          = Some (inr tt)) as Hguard.
  { unfold validateReparent.
    rewrite (truthy_Some p Hp), bool_decide_false, Hcast by done.
    destruct (ancestorWalk_acyclic (categories st) id
                (parentOf (categories st) id) Hacyclic)
      as (n & _ & Hle & Hrun).
    destruct (Hrun fuel ltac:(lia)) as [Hok|Hthrow]; [done|].
    destruct (ancestorWalk_throws _ _ _ _ _ Hthrow) as (_ & y & Hy & Hreach).
    destruct (Hacyclic id). eapply tc_rtc_r; [|exact Hreach].
    by apply tc_once. }
  split; [done|]. eexists _, _. unfold updateCategory.
  rewrite Hc. simpl default. rewrite Hguard. simpl. rewrite Hcast. simpl.
  split; [reflexivity|]. simpl.
  assert (parentStep
            (<[id := mkCategory (default (c_name c) (truthy name)) (Some id)]>
               (categories st)) id id) as Hstep.
  { unfold parentStep, parentOf. rewrite lookup_insert_eq. simpl.
    by apply truthy_Some. }
  split_and!; [done|apply lookup_insert_eq|done|].
  intros Hno. apply (Hno id). by apply tc_once.
Qed.

(** A rank that decreases along parent references rules cycles out. *)
Lemma ranked_acyclic cats (rank : string → nat) :
  (∀ x y, parentStep cats x y → (rank y < rank x)%nat) → acyclic cats.
Proof.
  intros Hrank.
  assert (∀ x y, tc (parentStep cats) x y → (rank y < rank x)%nat) as Htc.
  { induction 1 as [x y Hxy|x y z Hxy _ IH].
    - by apply Hrank.
    - apply Hrank in Hxy. lia. }
  intros x Hx. apply Htc in Hx. lia.
Qed.

Lemma hexCategories_acyclic : acyclic hexCategories.
Proof.
  apply (ranked_acyclic _
           (λ s, if bool_decide (s = "507f191e810c19729de860ea") then 1
                 else 0)%nat).
  intros x y. unfold parentStep, parentOf, hexCategories.
  destruct (decide (x = "507f1f77bcf86cd799439011")) as [->|H1]; [done|].
  destruct (decide (x = "507f191e810c19729de860ea")) as [->|H2].
  { vm_compute. intros [= <-]. lia. }
  by rewrite !lookup_insert_ne, lookup_empty.
Qed.

Lemma validateReparent_misses_respelling_witness :
  validateReparent foldCase 3 hexCategories "507f1f77bcf86cd799439011"
    (Some "507F1F77BCF86CD799439011") = Some (inr tt) ∧
  ∃ st' c',
    updateCategory foldCase 3 "507f1f77bcf86cd799439011"
      (mkCategoryBody None (Some (Some "507F1F77BCF86CD799439011"))) hexStore
      = Some (st', inr c') ∧
    c_parent c' = Some "507f1f77bcf86cd799439011" ∧
    ¬ acyclic (categories st').
Proof.
  destruct (validateReparent_misses_respelling foldCase 3 hexStore
              "507f1f77bcf86cd799439011" (mkCategory "Electronics" None)
              "507F1F77BCF86CD799439011" None)
    as (Hguard & st' & c' & Hrun & Hparent & _ & _ & Hcycle).
  - exact hexCategories_acyclic.
  - vm_compute. lia.
  - vm_compute. reflexivity.
  - discriminate.
  - discriminate.
  - split; [discriminate|vm_compute; reflexivity].
  - split; [exact Hguard|]. exists st', c'. split_and!; assumption.
Defined.

(** The guards on the sample hierarchy: android's parent is smartphones,
    whose parent is electronics, so electronics cannot move under
    android; a category spelled as the database writes it is refused as
    its own parent, and accepted under another spelling; a sibling root
    is accepted; the empty string passes the guards and is rejected by
    the save. *)
Example reparent_electronics_under_android :
  validateReparent foldCase 1 sampleCategories "electronics" (Some "android")
    = Some (inl CircularReference) ∧
  validateReparent foldCase 1 sampleCategories "electronics" (Some "ANDROID")
    = Some (inl CircularReference) ∧
  validateReparent foldCase 0 sampleCategories "electronics"
    (Some "electronics") = Some (inl OwnParent) ∧
  validateReparent foldCase 0 sampleCategories "electronics"
    (Some "ELECTRONICS") = Some (inr tt) ∧
  validateReparent foldCase 2 sampleCategories "android" (Some "electronics")
    = Some (inr tt) ∧
  updateCategory foldCase 0 "android" (mkCategoryBody None (Some (Some "")))
    sampleStore = Some (sampleStore, inl InvalidDocument).
Proof. by vm_compute. Qed.

(** ** Termination of the ancestor walk *)

Lemma updateCategory_returns castObjectId fuel id body st :
  is_Some (validateReparent castObjectId fuel (categories st) id
             (default None (cb_parent body))) →
  is_Some (updateCategory castObjectId fuel id body st).
Proof.
  intros [r Hr]. unfold updateCategory.
  destruct (categories st !! id); [|done].
  rewrite Hr. destruct r; [done|]. by destruct (assignParent _ _ _).
Qed.

(** C8.  When the stored parent graph is acyclic, every parent chain has
    a depth, at most the number of stored categories plus one (the last
    reference may resolve to no category); the walk makes at most that
    many hops and ends either on a null parent (the guard passes) or on
    the category id (the guard throws).  [updateCategory] then returns,
    whatever the request and however the parent is spelled. *)
Theorem ancestorWalk_terminates st cid :
  acyclic (categories st) →
  (∀ x, ∃ n,
     depth (categories st) x n ∧ (n ≤ size (categories st) + 1)%nat ∧
     ∀ fuel, (n ≤ fuel)%nat →
       ancestorWalk fuel (categories st) cid x = Some (inr tt) ∨
       ancestorWalk fuel (categories st) cid x = Some (inl CircularReference)) ∧
  (∀ castObjectId parent,
     is_Some (validateReparent castObjectId (size (categories st) + 1)
                (categories st) cid parent)) ∧
  (∀ castObjectId body,
     is_Some (updateCategory castObjectId (size (categories st) + 1) cid body
                st)).
Proof.
  intros Hacyclic.
  assert (∀ x, ∃ n,
     depth (categories st) x n ∧ (n ≤ size (categories st) + 1)%nat ∧
     ∀ fuel, (n ≤ fuel)%nat →
       ancestorWalk fuel (categories st) cid x = Some (inr tt) ∨
       ancestorWalk fuel (categories st) cid x = Some (inl CircularReference))
    as Hwalk.
  { intros x. by apply ancestorWalk_acyclic. }
  assert (∀ castObjectId parent,
     is_Some (validateReparent castObjectId (size (categories st) + 1)
                (categories st) cid parent)) as Hguard.
  { intros castObjectId parent. unfold validateReparent.
    destruct (truthy parent) as [p|]; [|by eexists].
    case_bool_decide; [by eexists|].
    destruct (castObjectId p) as [parentId|]; [|by eexists].
    destruct (Hwalk (parentOf (categories st) parentId))
      as (n & _ & Hle & Hrun).
    destruct (Hrun (size (categories st) + 1)%nat Hle) as [-> | ->];
      by eexists. }
  split_and!; [done..|].
  intros castObjectId body. apply updateCategory_returns, Hguard.
Qed.

Lemma sampleCategories_acyclic : acyclic sampleCategories.
Proof.
  apply (ranked_acyclic _
           (λ s, if bool_decide (s = "android") then 2
                 else if bool_decide (s = "smartphones") then 1 else 0)%nat).
  intros x y. unfold parentStep, parentOf, sampleCategories.
  destruct (decide (x = "electronics")) as [->|H1]; [done|].
  destruct (decide (x = "smartphones")) as [->|H2].
  { vm_compute. intros [= <-]. lia. }
  destruct (decide (x = "android")) as [->|H3].
  { vm_compute. intros [= <-]. lia. }
  by rewrite !lookup_insert_ne, lookup_empty.
Qed.

Lemma ancestorWalk_terminates_witness :
  is_Some (updateCategory foldCase 4 "electronics"
             (mkCategoryBody None (Some (Some "android"))) sampleStore) ∧
  is_Some (updateCategory foldCase 4 "android"
             (mkCategoryBody None (Some (Some "electronics"))) sampleStore).
Proof.
  split.
  - apply (proj2 (proj2 (ancestorWalk_terminates sampleStore "electronics"
                           sampleCategories_acyclic)) foldCase).
  - apply (proj2 (proj2 (ancestorWalk_terminates sampleStore "android"
                           sampleCategories_acyclic)) foldCase).
Defined.

(** Without acyclicity the walk need not end: on two categories that are
    each other's parent, no amount of fuel lets the guard decide whether a
    third category may be moved under them. *)
Lemma ancestorWalk_cyclic_diverges fuel :
  ancestorWalk fuel loopCategories "a" (Some "x") = None ∧
  ancestorWalk fuel loopCategories "a" (Some "y") = None ∧
  validateReparent foldCase fuel loopCategories "a" (Some "x") = None.
Proof.
  assert (∀ n, ancestorWalk n loopCategories "a" (Some "x") = None ∧
               ancestorWalk n loopCategories "a" (Some "y") = None) as Hloop.
  { induction n as [|n [IHx IHy]]; [done|]. split.
    - rewrite (ancestorWalk_next _ _ _ _ "x") by done. exact IHy.
    - rewrite (ancestorWalk_next _ _ _ _ "y") by done. exact IHx. }
  destruct (Hloop fuel) as [Hx Hy]. split_and!; [done..|].
  unfold validateReparent. simpl. exact Hy.
Qed.

(** ** Dangling parent references *)



(** ** Deleting a category *)

(** C6.  For a stored category: [deleteCategory] throws [HasChildren] as
    soon as some category has it as parent, whether or not products
    reference it; it throws [HasProducts] when no category has it as
    parent and some product references it; in both cases the store is
    untouched.  Otherwise it succeeds and the category is gone from the
    store, every other document being kept. *)
Theorem deleteCategory_guard id st c :
  categories st !! id = Some c →
  (hasChild st id →
     deleteCategory id st = (st, inl HasSubcategories) ∧
     HasChildren HasSubcategories = true) ∧
  (¬ hasChild st id → hasProduct st id →
     deleteCategory id st = (st, inl HasAssociatedProducts) ∧
     HasProducts HasAssociatedProducts = true) ∧
  (¬ hasChild st id → ¬ hasProduct st id →
     ∃ st', deleteCategory id st = (st', inr tt) ∧
       categories st' !! id = None ∧
       (∀ k, k ≠ id → categories st' !! k = categories st !! k) ∧
       products st' = products st ∧ orders st' = orders st).
Proof.
  intros Hc.
  unfold deleteCategory, mbind, Handler_bind, Category_findById,
    Category_exists_parent, Product_exists_category, Category_remove.
  rewrite Hc. split_and!.
  - intros Hchild. by rewrite bool_decide_true.
  - intros Hchild Hprod.
    by rewrite bool_decide_false, bool_decide_true.
  - intros Hchild Hprod. rewrite !bool_decide_false by done.
    eexists. split; [reflexivity|]. simpl. split_and!; try done.
    + apply lookup_delete_eq.
    + intros k Hk. by apply lookup_delete_ne.
Qed.

Lemma deleteCategory_guard_witness :
  deleteCategory "electronics" sampleStore = (sampleStore, inl HasSubcategories) ∧
  (∃ st', deleteCategory "android" sampleStore = (st', inr tt) ∧
          categories st' !! "android" = None).
Proof.
  split.
  - apply (deleteCategory_guard "electronics" sampleStore
             (mkCategory "Electronics" None) eq_refl).
    by exists "smartphones", (mkCategory "Smartphones" (Some "electronics")).
  - destruct (deleteCategory_guard "android" sampleStore
                (mkCategory "Android" (Some "smartphones")) eq_refl)
      as (_ & _ & Hfree).
    destruct Hfree as (st' & Hrun & Hgone & _).
    + intros Hchild. apply (bool_decide_pack _) in Hchild.
      by vm_compute in Hchild.
    + intros Hprod. apply (bool_decide_pack _) in Hprod.
      by vm_compute in Hprod.
    + exists st'. split; [exact Hrun|exact Hgone].
Defined.

(** The specification's scenario: Electronics is the parent of Smartphones,
    so it cannot be deleted; a childless category is deleted when no
    product is filed under it and kept when one is. *)
Example delete_electronics_scenario :
  deleteCategory "electronics" sampleStore
    = (sampleStore, inl HasSubcategories) ∧
  deleteCategory "leaf"
    (mkStore (products sampleStore)
       (<["leaf" := mkCategory "Leaf" None]> ∅) ∅)
    = (mkStore (products sampleStore) ∅ ∅, inr tt) ∧
  deleteCategory "electronics"
    (mkStore (products sampleStore)
       (<["electronics" := mkCategory "Electronics" None]> ∅) ∅)
    = (mkStore (products sampleStore)
         (<["electronics" := mkCategory "Electronics" None]> ∅) ∅,
       inl HasAssociatedProducts).
Proof. split_and!; vm_compute; reflexivity. Qed.

(** * Further properties of the controllers *)

(** ** The hierarchy stays acyclic *)

Section reparent.
Variable cats : gmap string Category.
Variable id : string.
Variable c' : Category.
Hypothesis new_edge : ∀ p,
  truthy (c_parent c') = Some p →
  parentStep cats id p ∨ ¬ closesCycle cats id p.

Lemma parentStep_insert x y :
  parentStep (<[id := c']> cats) x y →
  parentStep cats x y ∨ (x = id ∧ ¬ closesCycle cats id y).
Proof.
  unfold parentStep at 1, parentOf.
  destruct (decide (x = id)) as [->|Hne].
  - rewrite lookup_insert_eq. intros Hp.
    destruct (new_edge y Hp); [by left|by right].
  - rewrite lookup_insert_ne by done. by left.
Qed.

Lemma rtc_insert_old a b :
  rtc (parentStep (<[id := c']> cats)) a b →
  rtc (parentStep cats) a b ∨ rtc (parentStep cats) a id.
Proof.
  induction 1 as [a|a m b Hstep _ IH]; [left; apply rtc_refl|].
  apply parentStep_insert in Hstep as [Hold|[-> _]].
  - destruct IH as [IH|IH]; [left|right]; by eapply rtc_l.
  - right. apply rtc_refl.
Qed.

Lemma tc_insert_split a b :
  tc (parentStep (<[id := c']> cats)) a b →
  tc (parentStep cats) a b ∨
  ∃ y, rtc (parentStep cats) a id ∧ ¬ closesCycle cats id y ∧
       rtc (parentStep (<[id := c']> cats)) y b.
Proof.
  induction 1 as [a b Hstep|a m b Hstep Hrest IH].
  - apply parentStep_insert in Hstep as [Hold|[-> Hnew]].
    + left. by apply tc_once.
    + right. exists b. split_and!; [apply rtc_refl|done|apply rtc_refl].
  - apply parentStep_insert in Hstep as [Hold|[-> Hnew]].
    + destruct IH as [IH|(y & Hid & Hy & Hyb)].
      * left. by eapply tc_l.
      * right. exists y. split_and!; [by eapply rtc_l|done..].
    + right. exists m. split_and!; [apply rtc_refl|done|by apply tc_rtc].
Qed.

Lemma acyclic_insert : acyclic cats → acyclic (<[id := c']> cats).
Proof.
  intros Hacyclic x Hcycle.
  apply tc_insert_split in Hcycle as [Hold|(y & Hid & Hy & Hyx)].
  - by apply (Hacyclic x).
  - apply Hy. apply rtc_tc.
    apply rtc_insert_old in Hyx as [Hyx|Hyid]; [|done].
    by eapply rtc_trans.
Qed.
End reparent.

(** X1.  [updateCategory] closes no cycle, unless the request spells the
    category's own id in another way than the database writes it: for
    every other request, from an acyclic hierarchy and whatever the
    handler answers, the stored hierarchy is acyclic again.  The empty
    string is no ObjectId. *)
Theorem updateCategory_keeps_acyclic castObjectId fuel id body st st' r :
  castObjectId "" = None →
  (∀ p, cb_parent body = Some (Some p) → ¬ respelled castObjectId id p) →
  acyclic (categories st) →
  updateCategory castObjectId fuel id body st = Some (st', r) →
  acyclic (categories st').
Proof.
  intros Hempty Hspelled Hacyclic Hrun.
  apply updateCategory_inv in Hrun
    as [[-> _]|(c & c' & parent & Hc & _ & Hparent & -> & Hguard & ->)];
    [done|].
  simpl. apply acyclic_insert; [|done]. simpl. intros y Hy.
  destruct (cb_parent body) as [[p|]|] eqn:Hbody; simpl in *.
  - destruct (castObjectId p) as [parentId|] eqn:Hcast; [|done].
    injection Hparent as <-. apply truthy_inv in Hy as [[= <-] _].
    right. destruct (decide (p = "")) as [->|Hp]; [congruence|].
    destruct (validateReparent_passes _ _ _ _ _ p Hguard (truthy_Some p Hp))
      as (Hne & parentId' & Hcast' & Hno).
    rewrite Hcast in Hcast'. injection Hcast' as <-.
    intros [->|Htc]; [|done].
    by apply (Hspelled p).
  - injection Hparent as <-. done.
  - injection Hparent as <-. left. unfold parentStep, parentOf.
    by rewrite Hc.
Qed.

Lemma updateCategory_keeps_acyclic_witness :
  ∃ st' c',
    updateCategory foldCase 4 "android"
      (mkCategoryBody None (Some (Some "ELECTRONICS"))) sampleStore
      = Some (st', inr c') ∧
    c_parent c' = Some "electronics" ∧ acyclic (categories st').
Proof.
  eexists _, _. split; [vm_compute; reflexivity|]. split; [reflexivity|].
  eapply (updateCategory_keeps_acyclic foldCase 4 "android"
            (mkCategoryBody None (Some (Some "ELECTRONICS"))) sampleStore).
  - reflexivity.
  - simpl. intros p [= <-] [_ Hcast]. vm_compute in Hcast. discriminate.
  - exact (sampleCategories_acyclic : acyclic (categories sampleStore)).
  - vm_compute. reflexivity.
Defined.

(** ** Deleting keeps the references whole *)

Lemma tc_mono {A} (R1 R2 : relation A) x y :
  (∀ a b, R1 a b → R2 a b) → tc R1 x y → tc R2 x y.
Proof.
  intros Hsub. induction 1 as [x y Hxy|x m y Hxm _ IH].
  - apply tc_once. by apply Hsub.
  - eapply tc_l; [by apply Hsub|done].
Qed.

Lemma deleteCategory_inv id st st' r :
  deleteCategory id st = (st', r) →
  (st' = st ∧ ∃ e, r = inl e) ∨
  (r = inr tt ∧ is_Some (categories st !! id) ∧
   ¬ hasChild st id ∧ ¬ hasProduct st id ∧
   st' = mkStore (products st) (delete id (categories st)) (orders st)).
Proof.
  unfold deleteCategory, mbind, Handler_bind, Category_findById,
    Category_exists_parent, Product_exists_category, Category_remove.
  destruct (categories st !! id) as [c|] eqn:Hc; [|intros [= <- <-]; eauto].
  case_bool_decide as Hchild; [intros [= <- <-]; eauto|].
  case_bool_decide as Hprod; [intros [= <- <-]; eauto|].
  intros [= <- <-]. right. split_and!; eauto.
Qed.

(** X3.  [deleteCategory] leaves no reference behind: whatever it
    answers, an acyclic hierarchy stays acyclic, parent references that
    all resolved still all resolve, and products that were all filed
    under stored categories still are. *)
Theorem deleteCategory_keeps_references id st st' r :
  deleteCategory id st = (st', r) →
  (acyclic (categories st) → acyclic (categories st')) ∧
  (parentsResolve (categories st) → parentsResolve (categories st')) ∧
  (productsFiled st → productsFiled st').
Proof.
  intros Hrun.
  apply deleteCategory_inv in Hrun
    as [[-> _]|(_ & _ & Hchild & Hprod & ->)]; [done|].
  simpl. split_and!.
  - intros Hacyclic x Hcycle. apply (Hacyclic x).
    eapply tc_mono; [|exact Hcycle]. intros a b.
    unfold parentStep, parentOf.
    destruct (decide (a = id)) as [->|Hne].
    + by rewrite lookup_delete_eq.
    + by rewrite lookup_delete_ne.
  - intros Hres k c p Hc Hp.
    apply lookup_delete_Some in Hc as [Hk Hc].
    destruct (decide (p = id)) as [->|Hne].
    + destruct Hchild. by exists k, c.
    + rewrite lookup_delete_ne by done. by eapply Hres.
  - intros Hfiled k p Hp. simpl in *.
    destruct (decide (p_category p = id)) as [Heq|Hne].
    + destruct Hprod. by exists k, p.
    + rewrite lookup_delete_ne by done. by eapply Hfiled.
Qed.

Lemma deleteCategory_keeps_references_witness :
  parentsResolve (categories (deleteCategory "android" sampleStore).1) ∧
  categories (deleteCategory "android" sampleStore).1 !! "android" = None.
Proof.
  split; [|vm_compute; reflexivity].
  eapply (deleteCategory_keeps_references "android" sampleStore);
    [apply surjective_pairing|].
  intros k c p Hc Hp. unfold sampleStore, sampleCategories in Hc; simpl in Hc.
  apply lookup_insert_Some in Hc as [[_ <-]|[_ Hc]]; [done|].
  apply lookup_insert_Some in Hc as [[_ <-]|[_ Hc]].
  { injection Hp as <-. by eexists. }
  apply lookup_insert_Some in Hc as [[_ <-]|[_ Hc]]; [|done].
  injection Hp as <-. by eexists.
Defined.

(** ** Overselling *)

Lemma debit_nonneg_demand items ps pid p :
  ps !! pid = Some p → product_nonneg p →
  (∀ c a, stockAt ps pid c = Some a → demand items pid c ≤ a) →
  product_nonneg (debit items pid p).
Proof.
  intros Hp [Hs Hvs] Hle. split.
  - rewrite debit_stock.
    assert (demand items pid None ≤ p_stock p); [|lia].
    apply Hle. unfold stockAt. by rewrite Hp.
  - apply Forall_lookup. intros i v'.
    unfold debit, shiftStock; simpl. rewrite list_lookup_imap.
    destruct (p_variants p !! i) as [v|] eqn:Hv; simpl; [|done].
    intros [= <-]. pose proof (Forall_lookup_1 _ _ _ _ Hvs Hv) as Hv0.
    case_bool_decide as Hi; [|done]. simpl.
    assert (demand items pid (Some (v_name v)) ≤ v_stock v); [|lia].
    apply Hle. unfold stockAt. rewrite Hp; simpl.
    by rewrite find_findIndex, Hi; simpl; rewrite Hv.
Qed.

(** X5.  As long as the counters and quantities are small enough for the
    arithmetic to be exact (the magnitude of each counter plus the
    quantities requested from it is at most 2^53), after a successful
    [createOrder] every counter holds what it held minus the total
    quantity the items request from it.  From non-negative stock the
    order therefore leaves a negative counter exactly when the items
    together ask some counter for more than it held: the check of each
    item alone does not prevent it. *)
Theorem createOrder_oversells oid user items st st' order :
  exactRange (products st) items →
  createOrder oid user items st = (st', inr order) →
  (∀ pid c a, stockAt (products st) pid c = Some a →
     stockAt (products st') pid c = Some (a - demand items pid c)) ∧
  (stock_nonneg (products st) →
   (stock_nonneg (products st') ↔
    ∀ pid c a, stockAt (products st) pid c = Some a →
               demand items pid c ≤ a)).
Proof.
  intros Hrange Hrun.
  destruct (createOrder_inv _ _ _ _ _ _ Hrun) as [Hne Hall].
  rewrite (createOrder_checked oid user items st Hne Hall Hrange) in Hrun.
  injection Hrun as <- _. simpl.
  assert (∀ pid c a, stockAt (products st) pid c = Some a →
     stockAt (shifted (-1) items (products st)) pid c
       = Some (a - demand items pid c)) as Hcounter.
  { intros pid c a Ha.
    by rewrite (stockAt_shift _ _ _ _ _ _ (shifted_debit _ _ _) Ha). }
  split; [done|]. intros Hinv. split.
  - intros Hinv' pid c a Ha.
    pose proof (stockAt_nonneg _ _ _ _ Hinv' (Hcounter _ _ _ Ha)). lia.
  - intros Hle pid p'. rewrite shifted_debit.
    destruct (products st !! pid) as [p|] eqn:Hp; simpl; [|done].
    intros [= <-]. apply (debit_nonneg_demand items (products st)); try done.
    + by apply (Hinv pid).
    + intros c a. apply Hle.
Qed.

Lemma createOrder_oversells_witness :
  stockAt (products (createOrder "o1" john
                       [mkItem "p" None 3; mkItem "p" None 3] sampleStore).1)
    "p" None = Some (5 - 6).
Proof.
  refine (proj1 (createOrder_oversells "o1" john
                   [mkItem "p" None 3; mkItem "p" None 3] sampleStore _
                   (newOrder "john" [mkItem "p" None 3; mkItem "p" None 3])
                   _ _)
            "p" None 5 _); [|vm_compute; reflexivity|reflexivity].
  by apply sampleStore_exactRange.
Defined.

(** ** Who may cancel, and what cancelling touches *)

Lemma restore_step_dom (ps : gmap string Product) it p :
  ps !! product it = Some p →
  dom (<[product it :=
           moveStock (λ s, Number_add s (quantity it)) (variantName it) p]> ps)
    =@{gset string} dom ps.
Proof. intros Hp. apply dom_insert_lookup_L. eauto. Qed.

(** X6.  [cancelOrder] answers by this table: a missing order is not
    found; an order that is neither pending nor processing cannot be
    cancelled, whoever asks; an open order is refused to a caller who is
    neither its owner nor an admin; in these cases the store is
    untouched.  Otherwise the cancellation succeeds, whatever has become
    of the products: it creates and deletes no product, leaves the
    products the order does not list as they are, and stores the order as
    cancelled. *)
Theorem cancelOrder_table oid user st :
  match orders st !! oid with
  | None => cancelOrder oid user st = (st, inl OrderNotFound)
  | Some o =>
      (¬ stillOpen o → cancelOrder oid user st = (st, inl CannotCancel)) ∧
      (stillOpen o → ¬ mayCancel user o →
         cancelOrder oid user st = (st, inl NotAuthorized)) ∧
      (stillOpen o → mayCancel user o →
         ∃ st', cancelOrder oid user st
                  = (st', inr (set_o_status cancelled o)) ∧
           dom (products st') =@{gset string} dom (products st) ∧
           (∀ pid, pid ∉ product <$> orderItems o →
                   products st' !! pid = products st !! pid) ∧
           categories st' = categories st ∧
           orders st' = <[oid := set_o_status cancelled o]> (orders st))
  end.
Proof.
  destruct (orders st !! oid) as [o|] eqn:Ho.
  - split_and!.
    + intros Hclosed. apply (cancelOrder_closed oid user st o Ho).
      * intros Hp. apply Hclosed. by left.
      * intros Hp. apply Hclosed. by right.
    + intros Hopen Hno.
      unfold cancelOrder, mbind at 1, Handler_bind at 1, Order_findById.
      rewrite Ho.
      replace (bool_decide (o_status o ≠ pending)
               && bool_decide (o_status o ≠ processing)) with false.
      2:{ symmetry. apply andb_false_iff.
          destruct Hopen as [-> | ->]; [left|right];
            by apply bool_decide_eq_false_2; auto. }
      rewrite !bool_decide_true; [done|..].
      * intros Hadmin. apply Hno. by right.
      * intros Howner. apply Hno. by left.
    + intros Hopen Hmay.
      destruct (forOf_restoreItem_inv
                  (λ ps, dom ps =@{gset string} dom (products st) ∧
                         ∀ pid, pid ∉ product <$> orderItems o →
                                ps !! pid = products st !! pid)
                  (orderItems o) st) as (ps' & Hloop & Hdom & Hframe).
      * intros ps it p Hin [Hdom Hframe] Hp. split.
        -- by rewrite restore_step_dom.
        -- intros pid Hpid. rewrite lookup_insert_ne; [by apply Hframe|].
           intros <-. apply Hpid. apply list_elem_of_fmap. eauto.
      * done.
      * eexists. split; [by apply (cancelOrder_run oid user st o)|]. done.
  - unfold cancelOrder, mbind, Handler_bind, Order_findById. by rewrite Ho.
Qed.

Lemma cancelOrder_table_witness :
  (∃ st', cancelOrder "o1" john orderedStore
            = (st', inr (set_o_status cancelled
                           (newOrder "john" [mkItem "p" None 2]))) ∧
          dom (products st') =@{gset string} dom (products orderedStore)) ∧
  cancelOrder "o1" (mkUser "jane" "customer") orderedStore
    = (orderedStore, inl NotAuthorized) ∧
  cancelOrder "o1" (mkUser "jane" "customer") deliveredStore
    = (deliveredStore, inl CannotCancel).
Proof.
  pose proof (cancelOrder_table "o1" john orderedStore) as Hjohn.
  pose proof (cancelOrder_table "o1" (mkUser "jane" "customer") orderedStore)
    as Hjane.
  pose proof (cancelOrder_table "o1" (mkUser "jane" "customer") deliveredStore)
    as Hlate.
  change (orders orderedStore !! "o1")
    with (Some (newOrder "john" [mkItem "p" None 2])) in Hjohn, Hjane.
  change (orders deliveredStore !! "o1")
    with (Some (set_o_status delivered
                  (set_isDelivered true
                     (newOrder "john" [mkItem "p" None 2])))) in Hlate.
  destruct Hjohn as (_ & _ & Hok). destruct Hjane as (_ & Hno & _).
  destruct Hlate as (Hclosed & _ & _).
  split_and!.
  - destruct Hok as (st' & Hrun & Hdom & _); [by left|by left|].
    by exists st'.
  - apply Hno; [by left|]. by intros [?|?].
  - apply Hclosed. by intros [?|?].
Defined.

(** ** Orders only move forward *)

Lemma cancelOrder_step oid user st st' r :
  cancelOrder oid user st = (st', r) → orderStep oid (orders st) (orders st').
Proof.
  destruct r as [e|o'].
  - intros Hrun. left. by rewrite (cancelOrder_failed _ _ _ _ _ Hrun).
  - intros Hrun.
    destruct (cancelOrder_inv _ _ _ _ _ Hrun) as (o & Ho & _ & _ & -> & Hos & _).
    right. exists o, (set_o_status cancelled o). by split_and!.
Qed.

Lemma updateOrderToPaid_step oid payer st st' r :
  updateOrderToPaid oid payer st = (st', r) →
  orderStep oid (orders st) (orders st').
Proof.
  unfold updateOrderToPaid, mbind, Handler_bind, Order_findById.
  destruct (orders st !! oid) as [o|] eqn:Ho; [|intros [= <- _]; by left].
  destruct payer; [|intros [= <- _]; by left].
  intros [= <- _]. right. eexists o, _. by split_and!.
Qed.

Lemma updateOrderToDelivered_step oid st st' r :
  updateOrderToDelivered oid st = (st', r) →
  orderStep oid (orders st) (orders st').
Proof.
  unfold updateOrderToDelivered, mbind, Handler_bind, Order_findById.
  destruct (orders st !! oid) as [o|] eqn:Ho; [|intros [= <- _]; by left].
  intros [= <- _]. right. eexists o, _. split_and!; try done.
  intros _. by left.
Qed.

Lemma updateOrderStatus_step oid s st st' r :
  updateOrderStatus oid s st = (st', r) →
  orderStep oid (orders st) (orders st').
Proof.
  unfold updateOrderStatus, mbind, Handler_bind, Order_findById.
  destruct (orders st !! oid) as [o|] eqn:Ho; [|intros [= <- _]; by left].
  intros [= <- _]. right. eexists o, _. split; [done|]. split; [reflexivity|].
  destruct o as [u its stt paid deliv]. simpl.
  destruct s as [[]|], deliv; simpl; split; try done; auto.
Qed.

Lemma createOrder_step oid user items st st' r :
  createOrder oid user items st = (st', r) →
  orders st' = orders st ∨
  orders st' = <[oid := newOrder (u_id user) items]> (orders st).
Proof.
  destruct r as [e|order]; intros Hrun.
  - left. by rewrite (createOrder_failed _ _ _ _ _ _ Hrun).
  - destruct (createOrder_stored _ _ _ _ _ _ Hrun) as (-> & -> & _).
    by right.
Qed.

Lemma orderStep_flagged oid os os' :
  orderStep oid os os' → deliveredFlagged os → deliveredFlagged os'.
Proof.
  intros [->|(o & o' & Ho & -> & Hlater & Hflag)] Hinv; [done|].
  intros k ok Hk Hd. apply lookup_insert_Some in Hk as [[_ <-]|[_ Hk]].
  - destruct (Hflag Hd) as [?|Hwas]; [done|].
    destruct Hlater as (_ & _ & _ & Hmono). apply Hmono. by eapply Hinv.
  - by eapply Hinv.
Qed.

(** X7.  Every handler of the order controller keeps this invariant of
    the orders collection: an order whose status is delivered has its
    delivered flag set. *)
Theorem delivered_flag_kept st :
  deliveredFlagged (orders st) →
  (∀ oid user items st' r,
     createOrder oid user items st = (st', r) →
     deliveredFlagged (orders st')) ∧
  (∀ oid user st' r,
     cancelOrder oid user st = (st', r) → deliveredFlagged (orders st')) ∧
  (∀ oid payer st' r,
     updateOrderToPaid oid payer st = (st', r) →
     deliveredFlagged (orders st')) ∧
  (∀ oid st' r,
     updateOrderToDelivered oid st = (st', r) →
     deliveredFlagged (orders st')) ∧
  (∀ oid s st' r,
     updateOrderStatus oid s st = (st', r) → deliveredFlagged (orders st')).
Proof.
  intros Hinv. split_and!.
  - intros oid user items st' r Hrun.
    destruct (createOrder_step _ _ _ _ _ _ Hrun) as [-> | ->]; [done|].
    intros k o Hk. apply lookup_insert_Some in Hk as [[_ <-]|[_ Hk]]; [done|].
    by eapply Hinv.
  - intros oid user st' r Hrun.
    eapply orderStep_flagged; [by eapply cancelOrder_step|done].
  - intros oid payer st' r Hrun.
    eapply orderStep_flagged; [by eapply updateOrderToPaid_step|done].
  - intros oid st' r Hrun.
    eapply orderStep_flagged; [by eapply updateOrderToDelivered_step|done].
  - intros oid s st' r Hrun.
    eapply orderStep_flagged; [by eapply updateOrderStatus_step|done].
Qed.

Lemma orderedStore_flagged : deliveredFlagged (orders orderedStore).
Proof.
  intros k o Hk.
  change (orders orderedStore)
    with (<["o1" := newOrder "john" [mkItem "p" None 2]]>
            (∅ : gmap string Order)) in Hk.
  by apply lookup_insert_Some in Hk as [[_ <-]|[_ Hk]].
Qed.

Lemma delivered_flag_kept_witness :
  deliveredFlagged
    (orders (updateOrderStatus "o1" (Some delivered) orderedStore).1) ∧
  isDelivered <$>
    orders (updateOrderStatus "o1" (Some delivered) orderedStore).1 !! "o1"
    = Some true.
Proof.
  split; [|vm_compute; reflexivity].
  destruct (delivered_flag_kept orderedStore orderedStore_flagged)
    as (_ & _ & _ & _ & Hstatus).
  eapply (Hstatus "o1" (Some delivered)). apply surjective_pairing.
Defined.

Lemma orderStep_later oid os os' k o :
  orderStep oid os os' → os !! k = Some o →
  ∃ o', os' !! k = Some o' ∧ laterOrder o o'.
Proof.
  intros [->|(o0 & o' & Ho0 & -> & Hlater & _)] Hk.
  - exists o. by split.
  - destruct (decide (oid = k)) as [->|Hne].
    + rewrite Ho0 in Hk. injection Hk as <-.
      exists o'. split; [apply lookup_insert_eq|done].
    + exists o. split; [by rewrite lookup_insert_ne|done].
Qed.

(** X8.  No handler of the order controller removes an order, and none
    of the handlers that act on stored orders changes an order's owner
    or items or takes back its paid or delivered flag; [createOrder]
    leaves every order stored under another id as it is. *)
Theorem orders_only_advance st k o :
  orders st !! k = Some o →
  (∀ oid user items st' r,
     oid ≠ k → createOrder oid user items st = (st', r) →
     orders st' !! k = Some o) ∧
  (∀ oid user st' r,
     cancelOrder oid user st = (st', r) →
     ∃ o', orders st' !! k = Some o' ∧ laterOrder o o') ∧
  (∀ oid payer st' r,
     updateOrderToPaid oid payer st = (st', r) →
     ∃ o', orders st' !! k = Some o' ∧ laterOrder o o') ∧
  (∀ oid st' r,
     updateOrderToDelivered oid st = (st', r) →
     ∃ o', orders st' !! k = Some o' ∧ laterOrder o o') ∧
  (∀ oid s st' r,
     updateOrderStatus oid s st = (st', r) →
     ∃ o', orders st' !! k = Some o' ∧ laterOrder o o').
Proof.
  intros Hk. split_and!.
  - intros oid user items st' r Hne Hrun.
    destruct (createOrder_step _ _ _ _ _ _ Hrun) as [-> | ->]; [done|].
    by rewrite lookup_insert_ne.
  - intros oid user st' r Hrun.
    eapply orderStep_later; [by eapply cancelOrder_step|done].
  - intros oid payer st' r Hrun.
    eapply orderStep_later; [by eapply updateOrderToPaid_step|done].
  - intros oid st' r Hrun.
    eapply orderStep_later; [by eapply updateOrderToDelivered_step|done].
  - intros oid s st' r Hrun.
    eapply orderStep_later; [by eapply updateOrderStatus_step|done].
Qed.

Lemma orders_only_advance_witness :
  ∃ o', orders (updateOrderStatus "o1" (Some pending) deliveredStore).1 !! "o1"
        = Some o' ∧
        orderItems o' = [mkItem "p" None 2] ∧ isDelivered o' = true.
Proof.
  destruct (orders_only_advance deliveredStore "o1"
              (set_o_status delivered
                 (set_isDelivered true (newOrder "john" [mkItem "p" None 2]))))
    as (_ & _ & _ & _ & Hstatus); [vm_compute; reflexivity|].
  destruct (Hstatus "o1" (Some pending) _ _ (surjective_pairing _))
    as (o' & Ho' & _ & Hitems & _ & Hflag).
  exists o'. split_and!; [done|by rewrite Hitems|by apply Hflag].
Defined.

(** ** Products that have gone *)

(** X9.  Stock is restored by variant name only: when every item of an
    open order has lost its product, or names a variant its product no
    longer has, the cancellation by the owner or an admin succeeds and
    leaves the products collection exactly as it was. *)
Theorem cancelOrder_orphaned oid user st o :
  orders st !! oid = Some o → stillOpen o → mayCancel user o →
  Forall (orphaned (products st)) (orderItems o) →
  ∃ st', cancelOrder oid user st = (st', inr (set_o_status cancelled o)) ∧
         products st' = products st.
Proof.
  intros Ho Hopen Hmay Hall.
  destruct (forOf_restoreItem_inv (λ ps, ps = products st) (orderItems o) st)
    as (ps' & Hloop & ->); [|done|].
  - intros ps it p Hin -> Hp. rewrite Forall_forall in Hall.
    specialize (Hall it Hin). unfold orphaned in Hall. rewrite Hp in Hall.
    destruct Hall as (n & Hn & Hnone).
    unfold moveStock. rewrite Hn, Hnone. by apply insert_id.
  - eexists. split; [by apply (cancelOrder_run oid user st o)|done].
Qed.

Lemma cancelOrder_orphaned_witness :
  ∃ st',
    cancelOrder "o1" john (deleteProduct "p" orderedStore).1
      = (st', inr (set_o_status cancelled (newOrder "john" [mkItem "p" None 2])))
    ∧ products st' !! "p" = None.
Proof.
  destruct (cancelOrder_orphaned "o1" john (deleteProduct "p" orderedStore).1
              (newOrder "john" [mkItem "p" None 2]))
    as (st' & Hrun & Hps).
  - vm_compute. reflexivity.
  - by left.
  - by left.
  - apply Forall_cons. split; [|constructor]. by vm_compute.
  - exists st'. split; [done|]. rewrite Hps. vm_compute. reflexivity.
Defined.

(** X10.  Deleting the products filed under a category unblocks its
    deletion: when no category has it as parent and a single product is
    filed under it, [deleteCategory] is refused before [deleteProduct] of
    that product and succeeds after it. *)
Theorem deleteProduct_unblocks id k st c p :
  categories st !! id = Some c →
  ¬ hasChild st id →
  products st !! k = Some p → p_category p = id →
  (∀ k' p', products st !! k' = Some p' → p_category p' = id → k' = k) →
  deleteCategory id st = (st, inl HasAssociatedProducts) ∧
  ∃ st1 st2,
    deleteProduct k st = (st1, inr tt) ∧
    deleteCategory id st1 = (st2, inr tt) ∧
    categories st2 !! id = None ∧ products st2 !! k = None.
Proof.
  intros Hc Hchild Hp Hcat Honly. split.
  - unfold deleteCategory, mbind, Handler_bind, Category_findById,
      Category_exists_parent, Product_exists_category.
    rewrite Hc, bool_decide_false, bool_decide_true; [done| |done].
    by exists k, p.
  - eexists _, _.
    unfold deleteProduct, mbind, Handler_bind, Product_findById, Product_remove.
    rewrite Hp. split; [reflexivity|].
    unfold deleteCategory, mbind, Handler_bind, Category_findById,
      Category_exists_parent, Product_exists_category, Category_remove.
    simpl. rewrite Hc, !bool_decide_false.
    + split_and!; [done|apply lookup_delete_eq|apply lookup_delete_eq].
    + intros (k' & p' & Hp' & Hcat'). simpl in Hp'.
      apply lookup_delete_Some in Hp' as [Hne Hp'].
      apply Hne. symmetry. by eapply Honly.
    + done.
Qed.

Lemma deleteProduct_unblocks_witness :
  deleteCategory "electronics" shelfStore
    = (shelfStore, inl HasAssociatedProducts) ∧
  (deleteCategory "electronics" (deleteProduct "p" shelfStore).1).2 = inr tt.
Proof.
  destruct (deleteProduct_unblocks "electronics" "p" shelfStore
              (mkCategory "Electronics" None) gadget)
    as (Hblocked & st1 & st2 & Hdel & Hcat & _).
  - reflexivity.
  - intros Hchild. apply (bool_decide_pack _) in Hchild.
    by vm_compute in Hchild.
  - reflexivity.
  - reflexivity.
  - intros k' p' Hp' _. unfold shelfStore in Hp'. simpl in Hp'.
    by apply lookup_insert_Some in Hp' as [[<- _]|[_ Hp']].
  - split; [done|]. rewrite Hdel. simpl. by rewrite Hcat.
Defined.

(** ** The address book *)



Lemma defaults_alter b i l a :
  l !! i = Some a →
  (defaults (alter (set_isDefault b) i l) + (if a_isDefault a then 1 else 0)
   = defaults l + (if b then 1 else 0))%nat.
Proof.
  revert i. induction l as [|x l IH]; intros [|i]; csimpl; try done.
  - intros [= ->]. destruct b, (a_isDefault a); lia.
  - intros Hi. specialize (IH i Hi).
    change (list_alter (set_isDefault b) i l)
      with (alter (set_isDefault b) i l). lia.
Qed.

Lemma defaults_updateFields body i l :
  defaults (alter (updateFields body) i l) = defaults l.
Proof.
  revert i. induction l as [|x l IH]; intros [|i]; csimpl; try done.
  change (list_alter (updateFields body) i l)
    with (alter (updateFields body) i l). by rewrite IH.
Qed.

Lemma defaults_none (g : nat → bool) l :
  (∀ idx, g idx = false) →
  defaults (imap (λ idx a, set_isDefault (g idx) a) l) = 0%nat.
Proof.
  revert g. induction l as [|x l IH]; intros g Hg; [done|].
  rewrite imap_cons. csimpl. rewrite Hg. simpl.
  apply (IH (g ∘ S)). intros idx. apply Hg.
Qed.

Lemma defaults_one (g : nat → bool) i l :
  (i < length l)%nat →
  (∀ idx, g idx = bool_decide (idx = i)) →
  defaults (imap (λ idx a, set_isDefault (g idx) a) l) = 1%nat.
Proof.
  revert g i. induction l as [|x l IH]; intros g i Hi Hg; simpl in Hi; [lia|].
  rewrite imap_cons. csimpl. rewrite Hg. destruct i as [|i].
  - rewrite bool_decide_true by done. simpl. f_equal.
    apply (defaults_none (g ∘ S)). intros idx. simpl.
    rewrite Hg. by apply bool_decide_false.
  - rewrite bool_decide_false by done. simpl.
    apply (IH (g ∘ S) i); [lia|]. intros idx. simpl. rewrite Hg.
    apply bool_decide_ext. lia.
Qed.

Lemma defaults_single i l :
  (i < length l)%nat →
  defaults (imap (λ idx a, set_isDefault (bool_decide (idx = i)) a) l) = 1%nat.
Proof. intros Hi. by apply (defaults_one (λ idx, bool_decide (idx = i)) i). Qed.

Lemma existsb_defaults l :
  existsb a_isDefault l = false ↔ defaults l = 0%nat.
Proof.
  induction l as [|a l IH]; simpl; [done|].
  destruct (a_isDefault a); simpl; [split; [done|lia]|done].
Qed.

Lemma defaults_zero_lookup l i a :
  defaults l = 0%nat → l !! i = Some a → a_isDefault a = false.
Proof.
  revert i. induction l as [|x l IH]; intros [|i]; simpl; try done.
  - intros Hd [= ->]. destruct (a_isDefault a); [lia|done].
  - intros Hd. apply IH. lia.
Qed.

(** Marking the first address of a book without default gives a book
    with one default. *)
Lemma defaults_first l :
  l ≠ [] → defaults l = 0%nat →
  defaults (alter (set_isDefault true) 0%nat l) = 1%nat.
Proof.
  intros Hne Hd. destruct l as [|a l]; [done|].
  pose proof (defaults_alter true 0 (a :: l) a eq_refl) as Halter.
  rewrite (defaults_zero_lookup (a :: l) 0 a Hd eq_refl) in Halter. lia.
Qed.

Lemma ids_alter (f : Address → Address) (i : nat) (l : list Address) :
  (∀ a, a_id (f a) = a_id a) → a_id <$> alter f i l = a_id <$> l.
Proof.
  intros Hf. apply list_eq. intros j.
  rewrite !list_lookup_fmap, list_lookup_alter. case_decide; [subst|done].
  destruct (l !! j); simpl; [|done]. by rewrite Hf.
Qed.

Lemma ids_imap (g : nat → Address → Address) (l : list Address) :
  (∀ i a, a_id (g i a) = a_id a) → a_id <$> imap g l = a_id <$> l.
Proof.
  intros Hg. apply list_eq. intros j.
  rewrite !list_lookup_fmap, list_lookup_imap.
  destruct (l !! j); simpl; [|done]. by rewrite Hg.
Qed.





Lemma defaults_le_length l : (defaults l ≤ length l)%nat.
Proof. induction l as [|a l IH]; simpl; [done|]. destruct (a_isDefault a); lia. Qed.

Lemma set_isDefault_same (a : Address) : set_isDefault (a_isDefault a) a = a.
Proof. by destruct a. Qed.

(** The fields of the addresses, their flags left out. *)
Lemma fields_alter_flag b i (l : list Address) :
  set_isDefault false <$> alter (set_isDefault b) i l = set_isDefault false <$> l.
Proof.
  apply list_eq. intros j. rewrite !list_lookup_fmap, list_lookup_alter.
  case_decide; [subst|done]. by destruct (l !! j).
Qed.

Lemma fields_imap_flag (g : nat → bool) (l : list Address) :
  set_isDefault false <$> imap (λ idx a, set_isDefault (g idx) a) l
    = set_isDefault false <$> l.
Proof.
  apply list_eq. intros j. rewrite !list_lookup_fmap, list_lookup_imap.
  by destruct (l !! j).
Qed.

Lemma flags_updateFields body i (l : list Address) :
  a_isDefault <$> alter (updateFields body) i l = a_isDefault <$> l.
Proof.
  apply list_eq. intros j. rewrite !list_lookup_fmap, list_lookup_alter.
  case_decide; [subst|done]. by destruct (l !! j).
Qed.

Lemma alter_flag_same i (l : list Address) x :
  l !! i = Some x → alter (set_isDefault (a_isDefault x)) i l = l.
Proof.
  intros Hx. apply list_eq. intros j. rewrite list_lookup_alter.
  case_decide; [subst|done]. rewrite Hx. simpl.
  by rewrite set_isDefault_same.
Qed.

(** In a book without default whose first address is then marked, the
    first address is the only default. *)
Lemma flags_first (l : list Address) j a :
  defaults l = 0%nat →
  alter (set_isDefault true) 0%nat l !! j = Some a →
  a_isDefault a = bool_decide (j = 0%nat).
Proof.
  intros Hd. rewrite list_lookup_alter. case_decide as Hj.
  - subst j. destruct (l !! 0%nat); simpl; [|done]. by intros [= <-].
  - intros Ha. rewrite bool_decide_false by done.
    by eapply defaults_zero_lookup.
Qed.

(** X12.  [updateUserAddress] keeps the address book well formed, and
    never leaves a book without default.  The address with the id of the
    request takes the fields of the request and every other address keeps
    its fields.  Asked to make the address the default, the handler makes
    it the only one; asked to unmark the default address, it marks the
    first address of the book instead; in every other case the flags are
    as before. *)
Theorem updateUserAddress_keeps_book uid id body users user :
  users !! uid = Some user →
  addressBook (addresses user) →
  ∀ users' r, updateUserAddress uid id body users = (users', r) →
    match r with
    | inl e => e = AddressNotFound ∧ users' = users ∧
               id ∉ a_id <$> addresses user
    | inr addrs =>
        users' = <[uid := mkAccount addrs (wishlist user)]> users ∧
        addressBook addrs ∧
        a_id <$> addrs = a_id <$> addresses user ∧
        defaults addrs = 1%nat ∧
        (ab_isDefault body = Some true →
         ∀ a, a ∈ addrs → a_isDefault a = bool_decide (a_id a = id)) ∧
        ∃ i x, addresses user !! i = Some x ∧ a_id x = id ∧
          set_isDefault false <$> addrs
            = set_isDefault false
                <$> alter (updateFields body) i (addresses user) ∧
          match ab_isDefault body with
          | Some true =>
              ∀ j a, addrs !! j = Some a → a_isDefault a = bool_decide (j = i)
          | Some false =>
              if a_isDefault x
              then ∀ j a, addrs !! j = Some a →
                          a_isDefault a = bool_decide (j = 0%nat)
              else a_isDefault <$> addrs = a_isDefault <$> addresses user
          | None => a_isDefault <$> addrs = a_isDefault <$> addresses user
          end
    end.
Proof.
  intros Hu [Hnd Hone] users' r. unfold updateUserAddress. rewrite Hu.
  destruct (findIndex _ (addresses user)) as [i|] eqn:Hi.
  - destruct (findIndex_Some _ _ _ Hi) as (x & Hx & Hid & _).
    apply bool_decide_eq_true in Hid.
    assert (addresses user ≠ []) as Hne by (by intros Hnil; rewrite Hnil in Hx).
    specialize (Hone Hne).
    pose proof (lookup_lt_Some _ _ _ Hx) as Hlt.
    set (l0 := alter (updateFields body) i (addresses user)).
    assert (a_id <$> l0 = a_id <$> addresses user) as Hids0
      by (by apply ids_alter).
    assert (defaults l0 = 1%nat) as Hd0
      by (unfold l0; by rewrite defaults_updateFields).
    assert (length l0 = length (addresses user)) as Hlen0
      by (unfold l0; by rewrite length_alter).
    assert (l0 !! i = Some (updateFields body x)) as Hx0
      by (unfold l0; by rewrite list_lookup_alter_eq, Hx).
    assert (a_isDefault <$> l0 = a_isDefault <$> addresses user) as Hflags0
      by apply flags_updateFields.
    intros [= <- <-]. split; [done|].
    destruct (ab_isDefault body) as [[]|] eqn:Hb.
    + assert (a_id <$> imap (λ idx a, set_isDefault (bool_decide (idx = i)) a) l0
              = a_id <$> addresses user) as Hids
        by (by rewrite ids_imap).
      assert (defaults (imap (λ idx a, set_isDefault (bool_decide (idx = i)) a) l0)
              = 1%nat) as Hd
        by (apply defaults_single; lia).
      split_and!; [split; [by rewrite Hids|done]|done..| |].
      * intros _ a Ha. apply list_elem_of_lookup in Ha as [j Hj].
        rewrite list_lookup_imap in Hj.
        destruct (l0 !! j) as [y|] eqn:Hy; simpl in Hj; [|done].
        injection Hj as <-. simpl. apply bool_decide_ext.
        assert ((a_id <$> addresses user) !! j = Some (a_id y)) as Hj1
          by (by rewrite <- Hids0, list_lookup_fmap, Hy).
        assert ((a_id <$> addresses user) !! i = Some id) as Hi1
          by (by rewrite list_lookup_fmap, Hx; simpl; rewrite Hid).
        split.
        -- intros ->. congruence.
        -- intros Heq. rewrite Heq in Hj1.
           by eapply NoDup_lookup.
      * exists i, x. split_and!; [done..| |].
        -- apply (fields_imap_flag (λ idx, bool_decide (idx = i))).
        -- intros j a. rewrite list_lookup_imap.
           destruct (l0 !! j); simpl; [|done]. by intros [= <-].
    + set (l1 := alter (set_isDefault false) i l0).
      assert (a_id <$> l1 = a_id <$> addresses user) as Hids1
        by (unfold l1; by rewrite ids_alter).
      assert (length l1 = length (addresses user)) as Hlen1
        by (unfold l1; by rewrite length_alter).
      assert (set_isDefault false <$> l1 = set_isDefault false <$> l0)
        as Hfields1 by apply fields_alter_flag.
      pose proof (defaults_alter false i l0 _ Hx0) as Hd1. fold l1 in Hd1.
      change (a_isDefault (updateFields body x)) with (a_isDefault x) in Hd1.
      destruct (existsb a_isDefault l1) eqn:Hex; simpl.
      * assert (defaults l1 ≠ 0%nat) as Hnz
          by (intros Hz; apply existsb_defaults in Hz; congruence).
        assert (defaults l1 = 1%nat) as Hd by
          (destruct (a_isDefault x); lia).
        split_and!; [split; [by rewrite Hids1|done]|done..|].
        exists i, x. split_and!; [done..|].
        destruct (a_isDefault x) eqn:Hwas; [lia|].
        rewrite <- Hflags0. unfold l1.
        replace false with (a_isDefault (updateFields body x)) by done.
        by rewrite (alter_flag_same i l0 _ Hx0).
      * apply existsb_defaults in Hex.
        rewrite bool_decide_true by lia.
        assert (l1 ≠ []) as Hne1 by (intros Hnil; rewrite Hnil in Hlen1;
                                     simpl in Hlen1; lia).
        split_and!; [split|..|done|].
        -- rewrite ids_alter by done. by rewrite Hids1.
        -- intros _. by apply defaults_first.
        -- by rewrite ids_alter.
        -- by apply defaults_first.
        -- exists i, x. split_and!; [done..| |].
           ++ by rewrite fields_alter_flag.
           ++ destruct (a_isDefault x) eqn:Hwas; [|lia].
              intros j a. by apply flags_first.
    + split_and!; [split; [by rewrite Hids0|done]|done..|].
      exists i, x. by split_and!.
  - intros [= <- <-]. split_and!; [done..|].
    intros Hin. apply list_elem_of_fmap in Hin as (a & Ha & Hin).
    apply findIndex_None in Hi. rewrite Forall_forall in Hi.
    specialize (Hi a Hin). by apply bool_decide_eq_false in Hi.
Qed.

Lemma janeBook :
  addressBook [set_isDefault false home; set_isDefault true office; depot].
Proof.
  split; [|done]. apply (bool_decide_unpack _). by vm_compute.
Qed.

Lemma updateUserAddress_keeps_book_witness :
  ∃ users' addrs,
    updateUserAddress "jane" "a2" (mkAddressBody None None None None None
                                     (Some false)) janeUsers
      = (users', inr addrs) ∧
    addressBook addrs ∧
    addrs = [home; office; depot].
Proof.
  eexists _, _. split; [vm_compute; reflexivity|].
  split; [|vm_compute; reflexivity].
  refine (proj1 (proj2 (updateUserAddress_keeps_book "jane" "a2"
            (mkAddressBody None None None None None (Some false)) janeUsers
            (mkAccount [set_isDefault false home; set_isDefault true office;
                        depot] [])
            eq_refl janeBook _ (inr _) _))).
  vm_compute. reflexivity.
Defined.

Lemma filter_other_ids id (l : list Address) :
  id ∉ a_id <$> l → filter (λ a, a_id a ≠ id) l = l.
Proof.
  induction l as [|a l IH]; [done|].
  rewrite fmap_cons, not_elem_of_cons. intros [Hne Hnot].
  rewrite filter_cons_True by done. by rewrite IH.
Qed.

Lemma defaults_pulled id (l : list Address) address :
  NoDup (a_id <$> l) →
  List.find (λ a, bool_decide (a_id a = id)) l = Some address →
  (defaults (filter (λ a, a_id a ≠ id) l)
   + (if a_isDefault address then 1 else 0) = defaults l)%nat ∧
  S (length (filter (λ a, a_id a ≠ id) l)) = length l ∧
  id ∉ a_id <$> filter (λ a, a_id a ≠ id) l.
Proof.
  induction l as [|a l IH]; [done|].
  rewrite fmap_cons, NoDup_cons. intros [Hnot Hnd]. simpl.
  case_bool_decide as Ha.
  - intros [= <-]. rewrite filter_cons_False by (by intros ?).
    subst id. rewrite filter_other_ids by done.
    split_and!; [lia|done..].
  - intros Hfind. destruct (IH Hnd Hfind) as (Hd & Hlen & Hgone).
    rewrite filter_cons_True by done. simpl.
    split_and!; [lia|lia|]. rewrite not_elem_of_cons. by split.
Qed.

Lemma find_elem_of (id : string) (l : list Address) address :
  List.find (λ a, bool_decide (a_id a = id)) l = Some address →
  address ∈ l ∧ a_id address = id.
Proof.
  intros Hfind. apply find_some in Hfind as [Hin Hid].
  split; [by apply list_elem_of_In|by apply bool_decide_eq_true in Hid].
Qed.

(** X13.  [deleteUserAddress] keeps the address book well formed: the
    address is gone, the other addresses keep their fields and their
    order, and when the default address is deleted the first of the
    remaining ones becomes the default; otherwise the flags are as
    before. *)
Theorem deleteUserAddress_keeps_book uid id users user :
  users !! uid = Some user →
  addressBook (addresses user) →
  ∀ users' r, deleteUserAddress uid id users = (users', r) →
    match r with
    | inl e => e = AddressNotFound ∧ users' = users ∧
               id ∉ a_id <$> addresses user
    | inr addrs =>
        users' = <[uid := mkAccount addrs (wishlist user)]> users ∧
        addressBook addrs ∧
        a_id <$> addrs = filter (λ x, x ≠ id) (a_id <$> addresses user) ∧
        S (length addrs) = length (addresses user) ∧
        set_isDefault false <$> addrs
          = set_isDefault false
              <$> filter (λ a, a_id a ≠ id) (addresses user) ∧
        ∃ address, address ∈ addresses user ∧ a_id address = id ∧
          if a_isDefault address
          then ∀ j a, addrs !! j = Some a →
                      a_isDefault a = bool_decide (j = 0%nat)
          else addrs = filter (λ a, a_id a ≠ id) (addresses user)
    end.
Proof.
  intros Hu [Hnd Hone] users' r. unfold deleteUserAddress. rewrite Hu.
  destruct (List.find _ (addresses user)) as [address|] eqn:Hfind.
  - assert (addresses user ≠ []) as Hne
      by (intros Hnil; by rewrite Hnil in Hfind).
    specialize (Hone Hne).
    destruct (defaults_pulled id _ _ Hnd Hfind) as (Hd & Hlen & Hgone).
    destruct (find_elem_of id _ _ Hfind) as [Hin Hid].
    set (l1 := filter (λ a, a_id a ≠ id) (addresses user)) in *.
    assert (a_id <$> l1 = filter (λ x, x ≠ id) (a_id <$> addresses user))
      as Hids.
    { unfold l1. clear. induction (addresses user) as [|a l IH]; [done|].
      rewrite fmap_cons. destruct (decide (a_id a = id)) as [Heq|Hneq].
      - by rewrite !filter_cons_False by (by intros ?).
      - rewrite !filter_cons_True by done. by rewrite fmap_cons, IH. }
    assert (NoDup (a_id <$> l1)) as Hnd1
      by (rewrite Hids; by apply NoDup_filter).
    intros [= <- <-]. split; [done|].
    destruct (a_isDefault address) eqn:Hwas; simpl.
    + assert (defaults l1 = 0%nat) as Hd1 by lia.
      case_bool_decide as Hpos.
      * assert (l1 ≠ []) as Hne1
          by (intros Hnil; rewrite Hnil in Hpos; simpl in Hpos; lia).
        split_and!; [split|..].
        -- by rewrite ids_alter.
        -- intros _. by apply defaults_first.
        -- by rewrite ids_alter.
        -- by rewrite length_alter.
        -- by rewrite fields_alter_flag.
        -- exists address. split_and!; [done..|]. rewrite Hwas.
           intros j a. by apply flags_first.
      * split_and!; [split; [done|]|done..|].
        -- intros Hne1. destruct l1; [done|simpl in Hpos; lia].
        -- exists address. split_and!; [done..|]. rewrite Hwas.
           intros j a Ha. destruct l1; [done|simpl in Hpos; lia].
    + split_and!; [split; [done|]|done..|].
      * intros _. lia.
      * exists address. split_and!; [done..|]. by rewrite Hwas.
  - intros [= <- <-]. split_and!; [done..|].
    intros Hin. apply list_elem_of_fmap in Hin as (a & Ha & Hin).
    apply list_elem_of_In in Hin.
    eapply find_none in Hfind; [|exact Hin]. simpl in Hfind.
    by apply bool_decide_eq_false in Hfind.
Qed.

Lemma deleteUserAddress_keeps_book_witness :
  ∃ users' addrs,
    deleteUserAddress "jane" "a2" janeUsers = (users', inr addrs) ∧
    addressBook addrs ∧ addrs = [home; depot].
Proof.
  eexists _, _. split; [vm_compute; reflexivity|].
  split; [|vm_compute; reflexivity].
  refine (proj1 (proj2 (deleteUserAddress_keeps_book "jane" "a2" janeUsers
            (mkAccount [set_isDefault false home; set_isDefault true office;
                        depot] [])
            eq_refl janeBook _ (inr _) _))).
  vm_compute. reflexivity.
Defined.

(** ** The wishlist *)

(** X14.  [addToWishlist] refuses a product that is listed under the
    spelling of the request, and a string that is no ObjectId, and writes
    nothing then; otherwise it appends the ObjectId the string is cast
    to.  A wishlist without repetition stays without repetition exactly
    when that ObjectId was not listed: always when the request spells the
    id as the database writes it, whereas a listed product spelled in
    another way is stored a second time. *)
Theorem addToWishlist_no_duplicates castObjectId uid productId users user :
  users !! uid = Some user →
  (productId ∈ wishlist user →
     addToWishlist castObjectId uid productId users
       = (users, inl AlreadyInWishlist)) ∧
  (productId ∉ wishlist user → castObjectId productId = None →
     addToWishlist castObjectId uid productId users
       = (users, inl NotAnObjectId)) ∧
  (productId ∉ wishlist user →
   ∀ pushed, castObjectId productId = Some pushed →
     addToWishlist castObjectId uid productId users
       = (<[uid := mkAccount (addresses user) (wishlist user ++ [pushed])]>
            users,
          inr (wishlist user ++ [pushed])) ∧
     (NoDup (wishlist user) →
      (NoDup (wishlist user ++ [pushed]) ↔ pushed ∉ wishlist user)) ∧
     (pushed = productId → NoDup (wishlist user) →
      NoDup (wishlist user ++ [pushed]))).
Proof.
  intros Hu. unfold addToWishlist. rewrite Hu. split_and!.
  - intros Hin. by rewrite bool_decide_true.
  - intros Hnot Hcast. by rewrite bool_decide_false, Hcast.
  - intros Hnot pushed Hcast. rewrite bool_decide_false, Hcast by done.
    assert (NoDup (wishlist user) →
            (NoDup (wishlist user ++ [pushed]) ↔ pushed ∉ wishlist user))
      as Hiff.
    { intros Hnd. rewrite NoDup_app. split.
      - intros (_ & Hsep & _) Hin. apply (Hsep pushed Hin).
        by apply list_elem_of_singleton.
      - intros Hfresh. split_and!; [done| |repeat constructor; set_solver].
        intros x Hx Hx'. apply list_elem_of_singleton in Hx' as ->. done. }
    split_and!; [done|done|].
    intros -> Hnd. by apply Hiff.
Qed.

Lemma addToWishlist_no_duplicates_witness :
  addToWishlist foldCase "john" "h1" sampleUsers
    = (sampleUsers, inl AlreadyInWishlist) ∧
  (addToWishlist foldCase "john" "p" sampleUsers).2 = inr ["h1"; "p"] ∧
  (addToWishlist foldCase "john" "H1" sampleUsers).2 = inr ["h1"; "h1"].
Proof.
  destruct (addToWishlist_no_duplicates foldCase "john" "h1" sampleUsers
              (mkAccount [home; office] ["h1"]) eq_refl) as (Hdup & _ & _).
  destruct (addToWishlist_no_duplicates foldCase "john" "p" sampleUsers
              (mkAccount [home; office] ["h1"]) eq_refl) as (_ & _ & Hnew).
  destruct (addToWishlist_no_duplicates foldCase "john" "H1" sampleUsers
              (mkAccount [home; office] ["h1"]) eq_refl) as (_ & _ & Htwice).
  split_and!.
  - apply Hdup. simpl. apply list_elem_of_singleton. reflexivity.
  - destruct (Hnew ltac:(simpl; intros Hin; apply list_elem_of_singleton in Hin;
                         discriminate) "p" eq_refl) as [-> _].
    reflexivity.
  - destruct (Htwice ltac:(simpl; intros Hin;
                           apply list_elem_of_singleton in Hin; discriminate)
                "h1" eq_refl) as [-> _].
    reflexivity.
Defined.

Lemma removeFromWishlist_eval uid productId users user :
  users !! uid = Some user →
  removeFromWishlist uid productId users
    = (<[uid := mkAccount (addresses user)
                  (filter (λ id, id ≠ productId) (wishlist user))]> users,
       inr (filter (λ id, id ≠ productId) (wishlist user))).
Proof. intros Hu. unfold removeFromWishlist. by rewrite Hu. Qed.

Lemma filter_absent (x : string) (l : list string) :
  x ∉ l → filter (λ id, id ≠ x) l = l.
Proof.
  induction l as [|a l IH]; [done|]. rewrite not_elem_of_cons. intros [Hne Hnot].
  rewrite filter_cons_True by done. by rewrite IH.
Qed.

(** X15.  [removeFromWishlist] takes out the ids that the database
    writes as the request spells them: after it the string of the request
    is not listed and the other products keep their order, and a request
    for a product that is not listed so changes no wishlist.  It undoes
    [addToWishlist] when the request spells the id as the database writes
    it: removing the product just added gives back the users collection
    of before.  A product added under another spelling is not removed by
    the request that added it. *)
Theorem removeFromWishlist_undoes_add castObjectId uid productId users user :
  users !! uid = Some user →
  (∃ users' w,
     removeFromWishlist uid productId users = (users', inr w) ∧
     wishlist <$> (users' !! uid) = Some w ∧
     (productId ∉ w) ∧
     w = filter (λ id, id ≠ productId) (wishlist user) ∧
     (productId ∉ wishlist user → users' = users)) ∧
  (castObjectId productId = Some productId →
   ∀ users1 w1,
     addToWishlist castObjectId uid productId users = (users1, inr w1) →
     removeFromWishlist uid productId users1 = (users, inr (wishlist user))) ∧
  (∀ pushed users1 w1,
     castObjectId productId = Some pushed → pushed ≠ productId →
     addToWishlist castObjectId uid productId users = (users1, inr w1) →
     pushed ∈ w1 ∧
     removeFromWishlist uid productId users1 = (users1, inr w1)).
Proof.
  intros Hu. split_and!.
  - eexists _, _. split; [by apply removeFromWishlist_eval|].
    rewrite lookup_insert_eq. simpl. split_and!; [done| |done|].
    + intros Hin. by apply list_elem_of_filter in Hin as [Hne _].
    + intros Hnot. rewrite filter_absent by done.
      apply insert_id. rewrite Hu. by destruct user.
  - intros Hcast users1 w1. unfold addToWishlist. rewrite Hu, Hcast.
    case_bool_decide as Hin; [done|]. intros [= <- <-].
    erewrite removeFromWishlist_eval by apply lookup_insert_eq. simpl.
    rewrite filter_app, filter_absent by done.
    rewrite filter_cons_False, filter_nil, app_nil_r by (by intros ?).
    rewrite insert_insert_eq. f_equal.
    apply insert_id. rewrite Hu. by destruct user.
  - intros pushed users1 w1 Hcast Hne. unfold addToWishlist.
    rewrite Hu, Hcast.
    case_bool_decide as Hin; [done|]. intros [= <- <-]. split.
    + apply elem_of_app. right. by apply list_elem_of_singleton.
    + erewrite removeFromWishlist_eval by apply lookup_insert_eq. simpl.
      rewrite filter_app, filter_absent by done.
      rewrite filter_cons_True, filter_nil by done.
      by rewrite insert_insert_eq.
Qed.

Lemma removeFromWishlist_undoes_add_witness :
  removeFromWishlist "john" "p" (addToWishlist foldCase "john" "p" sampleUsers).1
    = (sampleUsers, inr ["h1"]) ∧
  (removeFromWishlist "john" "P"
     (addToWishlist foldCase "john" "P" sampleUsers).1).2 = inr ["h1"; "p"].
Proof.
  destruct (removeFromWishlist_undoes_add foldCase "john" "p" sampleUsers
              (mkAccount [home; office] ["h1"]) eq_refl) as (_ & Hundo & _).
  destruct (removeFromWishlist_undoes_add foldCase "john" "P" sampleUsers
              (mkAccount [home; office] ["h1"]) eq_refl) as (_ & _ & Hkept).
  split.
  - apply (Hundo eq_refl _ ["h1"; "p"]). vm_compute. reflexivity.
  - destruct (Hkept "p" (addToWishlist foldCase "john" "P" sampleUsers).1
                ["h1"; "p"] eq_refl) as [_ ->];
      [discriminate|vm_compute; reflexivity|reflexivity].
Defined.

(** ** Slugs *)

Lemma isDash_eq c : isDash c = true → c = dash.
Proof. apply Ascii.eqb_eq. Qed.

Lemma alnum_not_dash c : isLowerAlnum c = true → isDash c = false.
Proof.
  intros Hc. destruct (isDash c) eqn:Hd; [|done].
  apply isDash_eq in Hd. by subst.
Qed.

Lemma toLowerCase_alnum c : isLowerAlnum c = true → toLowerCase c = c.
Proof. destruct c as [[] [] [] [] [] [] [] []]; by vm_compute. Qed.

Lemma dashedWord_weaken b l : dashedWord true l = true → dashedWord b l = true.
Proof.
  destruct l as [|c l]; [done|]. simpl.
  destruct (isDash c); [done|]. done.
Qed.

(** The first replacement leaves letters, digits and single dashes. *)
Lemma replaceRuns_dashed b l :
  dashedWord b (replaceRuns (λ c, negb (isLowerAlnum c)) b l) = true.
Proof.
  revert b. induction l as [|c l IH]; intros b; simpl; [done|].
  destruct (isLowerAlnum c) eqn:Hc; simpl.
  - by rewrite (alnum_not_dash c Hc), Hc, IH.
  - destruct b; [apply IH|]. simpl. apply IH.
Qed.

(** On such a word both replacements change nothing. *)
Lemma replaceRuns_dash_fixed b l :
  dashedWord b l = true → replaceRuns isDash b l = l.
Proof.
  revert b. induction l as [|c l IH]; intros b; simpl; [done|].
  destruct (isDash c) eqn:Hd.
  - intros [Hb Hl]%andb_true_iff. destruct b; [done|].
    apply isDash_eq in Hd as ->. by rewrite (IH true).
  - intros [_ Hl]%andb_true_iff. by rewrite (IH false).
Qed.

Lemma replaceRuns_alnum_fixed b l :
  dashedWord b l = true →
  replaceRuns (λ c, negb (isLowerAlnum c)) b l = l.
Proof.
  revert b. induction l as [|c l IH]; intros b; simpl; [done|].
  destruct (isDash c) eqn:Hd.
  - intros [Hb Hl]%andb_true_iff. destruct b; [done|].
    apply isDash_eq in Hd as ->. simpl. by rewrite (IH true).
  - intros [Hc Hl]%andb_true_iff. rewrite Hc. simpl. by rewrite (IH false).
Qed.

Lemma dropLeadingDash_dashed l :
  dashedWord false l = true → dashedWord true (dropLeadingDash l) = true.
Proof.
  destruct l as [|c l]; [done|]. simpl. destruct (isDash c) eqn:Hd; [done|].
  simpl. by rewrite Hd.
Qed.

Lemma dropTrailingDash_shape b l :
  dashedWord b l = true → slugShape b (dropTrailingDash l) = true.
Proof.
  revert b. induction l as [|c l IH]; intros b; [done|].
  destruct l as [|c' l].
  - simpl. destruct (isDash c) eqn:Hd; [done|]. simpl. by rewrite Hd.
  - change (dropTrailingDash (c :: c' :: l))
      with (c :: dropTrailingDash (c' :: l)).
    change (dashedWord b (c :: c' :: l))
      with (if isDash c then negb b && dashedWord true (c' :: l)
            else isLowerAlnum c && dashedWord false (c' :: l)).
    change (slugShape b (c :: dropTrailingDash (c' :: l)))
      with (if isDash c
            then negb b && negb (bool_decide (dropTrailingDash (c' :: l) = []))
                 && slugShape true (dropTrailingDash (c' :: l))
            else isLowerAlnum c && slugShape false (dropTrailingDash (c' :: l))).
    destruct (isDash c).
    + intros [Hb Hl]%andb_true_iff. rewrite Hb, (IH true Hl).
      rewrite bool_decide_false; [done|].
      simpl in Hl. destruct (isDash c') eqn:Hd'; [done|].
      destruct l; simpl; [by rewrite Hd'|done].
    + intros [Hc Hl]%andb_true_iff. by rewrite Hc, (IH false Hl).
Qed.

Lemma slugOf_shape name : slugShape true (slugOf name) = true.
Proof.
  unfold slugOf. apply dropTrailingDash_shape, dropLeadingDash_dashed.
  rewrite replaceRuns_dash_fixed by apply replaceRuns_dashed.
  apply replaceRuns_dashed.
Qed.

Lemma slugShape_dashed b l : slugShape b l = true → dashedWord b l = true.
Proof.
  revert b. induction l as [|c l IH]; intros b; simpl; [done|].
  destruct (isDash c).
  - intros [[Hb _]%andb_true_iff Hl]%andb_true_iff. by rewrite Hb, (IH true).
  - intros [Hc Hl]%andb_true_iff. by rewrite Hc, (IH false).
Qed.

Lemma slugShape_lower b l : slugShape b l = true → toLowerCase <$> l = l.
Proof.
  revert b. induction l as [|c l IH]; intros b; csimpl; [done|].
  destruct (isDash c) eqn:Hd.
  - intros [_ Hl]%andb_true_iff. apply isDash_eq in Hd as ->.
    by rewrite (IH true).
  - intros [Hc Hl]%andb_true_iff.
    by rewrite (toLowerCase_alnum c Hc), (IH false).
Qed.

Lemma slugShape_no_trailing b l :
  slugShape b l = true → dropTrailingDash l = l.
Proof.
  revert b. induction l as [|c l IH]; intros b; [done|].
  destruct l as [|c' l].
  - simpl. destruct (isDash c); [|done].
    by rewrite andb_false_r.
  - change (dropTrailingDash (c :: c' :: l))
      with (c :: dropTrailingDash (c' :: l)).
    intros Hs. f_equal. simpl in Hs. destruct (isDash c).
    + apply andb_true_iff in Hs as [_ Hs]. by apply (IH true).
    + apply andb_true_iff in Hs as [_ Hs]. by apply (IH false).
Qed.

Lemma slugOf_fixed l : slugShape true l = true → slugOf l = l.
Proof.
  intros Hs. unfold slugOf. rewrite (slugShape_lower _ _ Hs).
  pose proof (dashedWord_weaken false l (slugShape_dashed _ _ Hs)) as Hw.
  rewrite (replaceRuns_alnum_fixed false l Hw).
  rewrite (replaceRuns_dash_fixed false l Hw).
  assert (dropLeadingDash l = l) as ->.
  { destruct l as [|c l]; [done|]. simpl in *. by destruct (isDash c). }
  by eapply slugShape_no_trailing.
Qed.

Lemma slugify_well_formed_aux name : isSlug (slugify name) = true.
Proof.
  unfold isSlug, slugify. rewrite String.list_ascii_of_string_of_list_ascii.
  apply slugOf_shape.
Qed.

(** X16.  The slug computed from any name is well formed: it consists of
    lower-case letters and digits separated by single dashes, and neither
    starts nor ends with a dash; so is the slug the pre-save hook stores
    when the name has been modified. *)
Theorem slugify_well_formed name :
  isSlug (slugify name) = true ∧
  ∀ slug, isSlug (preSaveSlug true name slug) = true.
Proof.
  split; [apply slugify_well_formed_aux|].
  intros slug. apply slugify_well_formed_aux.
Qed.

(** X17.  Computing the slug of a well-formed slug gives it back, so
    that computing slugs is idempotent: renaming a document to its own
    slug does not change the slug. *)
Theorem slugify_idempotent name :
  (isSlug name = true → slugify name = name) ∧
  slugify (slugify name) = slugify name.
Proof.
  assert (∀ s, isSlug s = true → slugify s = s) as Hfix.
  { intros s Hs. unfold slugify, isSlug in *.
    by rewrite (slugOf_fixed _ Hs), String.string_of_list_ascii_of_string. }
  split; [apply Hfix|]. apply Hfix, slugify_well_formed_aux.
Qed.

Lemma slugify_idempotent_witness :
  slugify "home-kitchen" = "home-kitchen".
Proof. apply (proj1 (slugify_idempotent "home-kitchen")). reflexivity. Defined.

(** The slugs of some names of the seed script; a name without letter or
    digit has the empty slug. *)
Example slugify_samples :
  slugify "Home & Kitchen" = "home-kitchen" ∧
  slugify "Men's Clothing" = "men-s-clothing" ∧
  slugify "  --Smartphone X!--" = "smartphone-x" ∧
  slugify "-" = "" ∧ slugify "!?" = "".
Proof. by vm_compute. Qed.

Lemma replaceRuns_keeps (inClass : Ascii.ascii → bool) b l c :
  c ∈ l → inClass c = false → c ∈ replaceRuns inClass b l.
Proof.
  revert b. induction l as [|x l IH]; intros b; [by intros ?%elem_of_nil|].
  intros [->|Hin]%elem_of_cons Hc; simpl.
  - rewrite Hc. by left.
  - destruct (inClass x); [destruct b|]; [auto|right; auto|right; auto].
Qed.

Lemma replaceRuns_all (inClass : Ascii.ascii → bool) l :
  Forall (λ c, inClass c = true) l →
  replaceRuns inClass true l = [] ∧
  replaceRuns inClass false l = if bool_decide (l = []) then [] else [dash].
Proof.
  induction 1 as [|c l Hc _ [IH _]]; [done|]. simpl. by rewrite Hc, IH.
Qed.

Lemma dropLeadingDash_keeps l c :
  c ∈ l → isDash c = false → c ∈ dropLeadingDash l.
Proof.
  destruct l as [|x l]; [done|]. simpl.
  intros [->|Hin]%elem_of_cons Hc; [rewrite Hc; by left|].
  destruct (isDash x); [done|by right].
Qed.

Lemma dropTrailingDash_keeps l c :
  c ∈ l → isDash c = false → c ∈ dropTrailingDash l.
Proof.
  induction l as [|x l IH]; [done|].
  intros Hin Hc. destruct l as [|y l].
  - apply list_elem_of_singleton in Hin as ->. simpl. rewrite Hc. by left.
  - change (dropTrailingDash (x :: y :: l))
      with (x :: dropTrailingDash (y :: l)).
    apply elem_of_cons in Hin as [->|Hin]; [by left|right; auto].
Qed.

(** X18.  The slug of an ASCII name is empty exactly when the name
    contains no letter and no digit. *)
Theorem slugify_empty name :
  Forall (λ c, isAscii c = true) (String.list_ascii_of_string name) →
  slugify name = "" ↔
  Forall (λ c, isLowerAlnum (toLowerCase c) = false)
    (String.list_ascii_of_string name).
Proof.
  intros _. unfold slugify.
  assert (∀ l, String.string_of_list_ascii l = "" ↔ l = []) as Hnil.
  { intros [|c l]; simpl; split; done. }
  rewrite Hnil. generalize (String.list_ascii_of_string name). intros l. split.
  - intros Hempty. apply Forall_forall. intros c Hc.
    destruct (isLowerAlnum (toLowerCase c)) eqn:Halnum; [exfalso|done].
    assert (toLowerCase c ∈ slugOf l) as Hin.
    { unfold slugOf.
      apply dropTrailingDash_keeps; [|by apply alnum_not_dash].
      apply dropLeadingDash_keeps; [|by apply alnum_not_dash].
      apply replaceRuns_keeps; [|by apply alnum_not_dash].
      apply replaceRuns_keeps; [|by rewrite Halnum].
      by apply list_elem_of_fmap_2. }
    rewrite Hempty in Hin. by apply elem_of_nil in Hin.
  - intros Hall. unfold slugOf.
    destruct (replaceRuns_all (λ c, negb (isLowerAlnum c)) (toLowerCase <$> l))
      as [_ ->].
    { apply Forall_fmap. eapply Forall_impl; [exact Hall|].
      intros c Hc. simpl. by rewrite Hc. }
    by case_bool_decide.
Qed.

Lemma slugify_empty_witness : slugify "?! &" = "" ∧ slugify "a?" ≠ "".
Proof.
  split.
  - apply (proj2 (slugify_empty "?! &" ltac:(by repeat constructor))).
    by repeat constructor.
  - intros Hempty.
    apply (proj1 (slugify_empty "a?" ltac:(by repeat constructor))) in Hempty.
    inversion Hempty as [|? ? Ha _]. discriminate Ha.
Defined.

(** ** Pagination *)

Lemma pageCount_covers pageSize count :
  (0 < pageSize)%nat → (count ≤ pageCount pageSize count * pageSize)%nat.
Proof.
  intros Hpos. unfold pageCount.
  pose proof (Nat.div_mod_eq (count + pageSize - 1) pageSize) as Hdiv.
  pose proof (Nat.mod_upper_bound (count + pageSize - 1) pageSize) as Hmod.
  nia.
Qed.

Lemma pageCount_tight pageSize count :
  (0 < pageSize)%nat →
  (pageCount pageSize count * pageSize < count + pageSize)%nat.
Proof.
  intros Hpos. unfold pageCount.
  pose proof (Nat.div_mod_eq (count + pageSize - 1) pageSize) as Hdiv.
  nia.
Qed.

Lemma pages_concat {A} pageSize n (results : list A) :
  concat ((λ p, pageOf pageSize p results) <$> seq 1 n)
    = take (n * pageSize) results.
Proof.
  induction n as [|n IH]; [done|].
  rewrite seq_S, fmap_app, concat_app, IH. simpl. rewrite app_nil_r.
  unfold pageOf.
  replace (pageSize * (S n - 1))%nat with (n * pageSize)%nat by lia.
  rewrite take_take_drop. f_equal. lia.
Qed.

(** X19.  The pages of a listing partition the results: for a positive
    page size, the pages 1 to [pages] put one after another are the
    results, every page holds at most [pageSize] documents, each of the
    pages 1 to [pages] holds at least one, and every later page is
    empty. *)
Theorem paginate_partitions {A} pageSize (results : list A) :
  (0 < pageSize)%nat →
  let n := pages (paginate pageSize None results) in
  concat ((λ p, docs (paginate pageSize (Some p) results)) <$> seq 1 n)
    = results ∧
  (∀ q, length (docs (paginate pageSize q results)) ≤ pageSize)%nat ∧
  (∀ p, (1 ≤ p ≤ n)%nat → docs (paginate pageSize (Some p) results) ≠ []) ∧
  (∀ p, (n < p)%nat → docs (paginate pageSize (Some p) results) = []).
Proof.
  intros Hpos n. subst n. unfold paginate. simpl.
  pose proof (pageCount_covers pageSize (length results) Hpos) as Hcover.
  pose proof (pageCount_tight pageSize (length results) Hpos) as Htight.
  split_and!.
  - erewrite (list_fmap_ext _ (λ p, pageOf pageSize p results)).
    + rewrite pages_concat. by apply take_ge.
    + intros i p Hp. apply lookup_seq in Hp as [-> _]. done.
  - intros q. unfold pageOf. rewrite length_take. lia.
  - intros [|p] [Hp1 Hp2]; [lia|]. simpl. unfold pageOf. intros Hnil.
    apply (f_equal length) in Hnil. rewrite length_take, length_drop in Hnil.
    simpl in Hnil. nia.
  - intros [|p] Hp; [lia|]. simpl. unfold pageOf.
    rewrite drop_ge; [apply take_nil|]. nia.
Qed.

Lemma paginate_partitions_witness :
  docs (paginate 2%nat (Some 1%nat) ["a"; "b"; "c"; "d"; "e"])
  ++ docs (paginate 2%nat (Some 2%nat) ["a"; "b"; "c"; "d"; "e"])
  ++ docs (paginate 2%nat (Some 3%nat) ["a"; "b"; "c"; "d"; "e"])
    = ["a"; "b"; "c"; "d"; "e"] ∧
  pages (paginate 2%nat None ["a"; "b"; "c"; "d"; "e"]) = 3%nat.
Proof.
  split; [|reflexivity].
  destruct (paginate_partitions 2%nat ["a"; "b"; "c"; "d"; "e"]) as [Hall _];
    [lia|]. exact Hall.
Defined.

(** ** Cancelling twice after all *)

Lemma updateOrderStatus_eval oid s st o :
  orders st !! oid = Some o →
  ∃ o', updateOrderStatus oid s st
          = (mkStore (products st) (categories st) (<[oid := o']> (orders st)),
             inr o') ∧
        o_status o' = default (o_status o) s ∧ laterOrder o o'.
Proof.
  intros Ho. unfold updateOrderStatus, mbind, Handler_bind, Order_findById.
  rewrite Ho. eexists. split; [reflexivity|].
  destruct o as [u its stt paid deliv]. simpl.
  destruct s as [[]|], deliv; simpl; by split_and!.
Qed.

(** X20.  The guard of [cancelOrder] looks at the status only: when the
    status handler puts a cancelled order back to pending, the order can
    be cancelled again, and the second cancellation restores the stock a
    second time.  As long as the counters and quantities are small enough
    for the arithmetic to be exact (the magnitude of each counter plus
    the quantities requested from it is at most 2^53), after order,
    cancellation, reopening and second cancellation every counter holds
    what it held before the order plus the quantity the order requested
    from it. *)
Theorem cancelOrder_twice_after_reopening oid user items st st1 order :
  exactRange (products st) items →
  createOrder oid user items st = (st1, inr order) →
  ∃ st2 st3 st4 o2 o3 o4,
    cancelOrder oid user st1 = (st2, inr o2) ∧
    updateOrderStatus oid (Some pending) st2 = (st3, inr o3) ∧
    cancelOrder oid user st3 = (st4, inr o4) ∧
    products st2 = products st ∧
    ∀ pid c a, stockAt (products st) pid c = Some a →
               stockAt (products st4) pid c = Some (a + demand items pid c).
Proof.
  intros Hrange Hrun.
  destruct (createOrder_inv _ _ _ _ _ _ Hrun) as [Hne Hall].
  destruct (createOrder_release _ _ _ _ _ _ Hrange Hrun) as (-> & Ho & Hloop).
  pose proof (cancelOrder_run oid user st1 _ Ho (or_introl eq_refl)
                (or_introl eq_refl) _ Hloop) as Hcancel1.
  set (o2 := set_o_status cancelled (newOrder (u_id user) items)) in *.
  set (st2 := mkStore (products st) (categories st1)
                (<[oid := o2]> (orders st1))) in *.
  destruct (updateOrderStatus_eval oid (Some pending) st2 o2)
    as (o3 & Hreopen & Hst & Hlater); [apply lookup_insert_eq|].
  eexists st2, _, _, o2, o3, _. split; [exact Hcancel1|].
  split; [exact Hreopen|].
  destruct Hlater as (Huser & Hitems & _). simpl in Hst, Huser, Hitems.
  split.
  - eapply cancelOrder_run.
    + simpl. apply lookup_insert_eq.
    + by left.
    + left. by rewrite Huser.
    + rewrite Hitems. apply forOf_restoreItem; simpl.
      * by apply covered_products.
      * done.
  - split; [done|]. simpl. intros pid c a Ha.
    by rewrite (stockAt_shift _ _ _ _ _ _ (shifted_credit _ _ _) Ha).
Qed.

Lemma cancelOrder_twice_after_reopening_witness :
  stockAt (products
             (cancelOrder "o1" john
                (updateOrderStatus "o1" (Some pending) cancelledStore).1).1)
    "p" None = Some (5 + 2).
Proof.
  destruct (cancelOrder_twice_after_reopening "o1" john [mkItem "p" None 2]
              sampleStore orderedStore (newOrder "john" [mkItem "p" None 2]))
    as (st2 & st3 & st4 & o2 & o3 & o4 & H2 & H3 & H4 & _ & Hstock);
    [by apply sampleStore_exactRange|vm_compute; reflexivity|].
  assert (st2 = cancelledStore) as ->
    by (unfold cancelledStore; by rewrite H2).
  rewrite H3. simpl. rewrite H4. simpl.
  apply (Hstock "p" None 5). reflexivity.
Defined.
